(** * ComfyBox: graph-to-prompt compiler and backend event client

    A shallow embedding of [ComfyPromptSerializer.ts] (the activity
    predicates, the upstream node locator and the prompt serializer) and of
    [api.ts] (the websocket life cycle, the message decoder and the REST
    helpers), followed by the properties of the specification stated and
    settled against these definitions. *)

From Stdlib Require Import ZArith Strings.String Strings.Ascii Strings.Byte Lists.List Bool.
From stdpp Require Import gmap strings list fin_maps pretty.

Open Scope string_scope.

(* ===================================================================== *)
(** ** JavaScript values *)
(* ===================================================================== *)

(** The values that travel over links, sit in slot defaults and end up in
    the prompt.  Numbers are kept to the integers: the source never does
    arithmetic on them, it only copies them and, in the pruning pass, uses
    one as a property key.  [JNum n] is the number [n] for an integer that
    JavaScript represents exactly and prints in decimal (a magnitude below
    2^53); an object is a plain object given by its own fields, and no
    field holds a function. *)
#[warnings="-register-all"]
Inductive JsValue : Type :=
| JUndefined
| JNull
| JBool (b : bool)
| JNum (n : Z)
| JStr (s : string)
| JArr (elems : list JsValue)
| JObj (fields : list (string * JsValue)).

(** [String(v)]; an array prints its elements separated by commas, with
    [null] and [undefined] elements printed as nothing. *)
Fixpoint js_to_string (v : JsValue) : string :=
  match v with
  | JUndefined => "undefined"
  | JNull => "null"
  | JBool true => "true"
  | JBool false => "false"
  | JNum n => pretty n
  | JStr s => s
  | JArr l =>
      String.concat ","
        (List.map (fun e => match e with
                            | JUndefined | JNull => ""
                            | _ => js_to_string e
                            end) l)
  | JObj _ => "[object Object]"
  end.

(** [String(v)] and [v.toString()] go through the [toString] method of
    the value.  An object with a field of its own named [toString] hides
    the inherited method by something that cannot be called, and the
    conversion is a [TypeError]; so it is for an array that holds such an
    object, since the array joins the texts of its elements.
    [js_to_string] is the text where the conversion succeeds. *)
Fixpoint js_stringable (v : JsValue) : bool :=
  match v with
  | JArr l => forallb js_stringable l
  | JObj fs => negb (existsb (fun kv => String.eqb (fst kv) "toString") fs)
  | _ => true
  end.

(** [o[v]] converts [v] to a property key first. *)
Definition toPropertyKey (v : JsValue) : string := js_to_string v.

(** Property read [v.k]: reading a property of [null] or [undefined] is a
    [TypeError]; a missing property reads as [undefined]. *)
Definition js_get (v : JsValue) (k : string) : option JsValue :=
  match v with
  | JUndefined | JNull => None
  | JObj fs =>
      match List.find (fun kv => String.eqb (fst kv) k) fs with
      | Some kv => Some (snd kv)
      | None => Some JUndefined
      end
  | _ => Some JUndefined
  end.

Definition js_truthy (v : JsValue) : bool :=
  match v with
  | JUndefined | JNull => false
  | JBool b => b
  | JNum n => negb (n =? 0)%Z
  | JStr s => negb (String.eqb s "")
  | JArr _ | JObj _ => true
  end.

(** Outcome of a piece of code that may throw.  [OutOfFuel] is the third
    outcome of the fuelled rendering of a [while] loop; the loops below are
    shown never to reach it. *)
Inductive Completion (A : Type) : Type :=
| Normal (a : A)
| Throw (msg : string)
| OutOfFuel.
Arguments Normal {A} a.
Arguments Throw {A} msg.
Arguments OutOfFuel {A}.

Definition cbind {A B} (c : Completion A) (k : A -> Completion B) : Completion B :=
  match c with
  | Normal a => k a
  | Throw m => Throw m
  | OutOfFuel => OutOfFuel
  end.

#[global] Instance Completion_bind : MBind Completion :=
  fun A B k c => cbind c k.

Definition cannot_convert : string := "TypeError: Cannot convert object to primitive value".

(** [String(v)], and the conversion of a value stored as a string or used
    as a property key. *)
Definition js_String (v : JsValue) : Completion string :=
  if js_stringable v then Normal (js_to_string v) else Throw cannot_convert.

(** The method call [v.toString()]: [null] and [undefined] have no
    properties, so the call throws on them too. *)
Definition toString_method (v : JsValue) : Completion string :=
  match v with
  | JUndefined | JNull => Throw "TypeError: cannot read properties of null or undefined"
  | _ => js_String v
  end.

(* ===================================================================== *)
(** ** Plain objects used as maps *)
(* ===================================================================== *)

(** The serializer collects its results in objects created by [{}].  Such
    an object inherits the members of [Object.prototype]: the accessor
    [__proto__] and eleven methods.  A read [o[k]] and a test [k in o] find
    them when [o] has no property of its own named [k]; all of them read as
    truthy values. *)
Definition object_prototype_members : list string :=
  ["constructor"; "__defineGetter__"; "__defineSetter__"; "hasOwnProperty";
   "__lookupGetter__"; "__lookupSetter__"; "isPrototypeOf"; "propertyIsEnumerable";
   "toString"; "valueOf"; "__proto__"; "toLocaleString"].

Definition inherited (k : string) : bool :=
  existsb (String.eqb k) object_prototype_members.

(** [k in o], and the truthiness of [o[k]] when the values [o] holds are
    objects: [o] is given by its own properties, its prototype is
    [Object.prototype]. *)
Definition has_member {A} (o : gmap string A) (k : string) : bool :=
  match o !! k with
  | Some _ => true
  | None => inherited k
  end.

(** What an object [{}] inherits from after assignments to it: still
    [Object.prototype], or nothing, or a value it was given as prototype by
    an assignment to [__proto__]. *)
Inductive Prototype : Type :=
| ObjectPrototype
| NoPrototype
| ValuePrototype (v : JsValue).

Record PlainObject : Type := mkObject {
  own : gmap string JsValue;
  proto : Prototype
}.

Definition empty_object : PlainObject := mkObject ∅ ObjectPrototype.

(** Whether an assignment to [__proto__] finds the accessor of
    [Object.prototype] on the prototype chain: not when there is no
    prototype, and not when the prototype is an object with a field of its
    own named [__proto__], which is found first. *)
Definition reaches_proto_setter (p : Prototype) : bool :=
  match p with
  | ObjectPrototype => true
  | NoPrototype => false
  | ValuePrototype (JObj fs) => negb (existsb (fun kv => String.eqb (fst kv) "__proto__") fs)
  | ValuePrototype _ => true
  end.

(** The assignment [o[k] = v].  A property of [o] itself is overwritten.
    Otherwise, when [k] is [__proto__] and the accessor is reached, the
    setter runs: it makes an object or [null] the prototype of [o] and
    ignores any other value, and [o] gets no property.  In every other
    case [o] gets the property: the members that can be inherited here
    are writable data properties. *)
Definition js_assign (o : PlainObject) (k : string) (v : JsValue) : PlainObject :=
  match own o !! k with
  | Some _ => mkObject (<[k := v]> (own o)) (proto o)
  | None =>
      if String.eqb k "__proto__" && reaches_proto_setter (proto o) then
        match v with
        | JArr _ | JObj _ => mkObject (own o) (ValuePrototype v)
        | JNull => mkObject (own o) NoPrototype
        | _ => o
        end
      else mkObject (<[k := v]> (own o)) (proto o)
  end.

(* ===================================================================== *)
(** ** The litegraph data model *)
(* ===================================================================== *)

(** The graph, node and link objects are litegraph's ([@litegraph-ts/core],
    outside the repository).  What follows renders the fields and accessors
    of them that the compiler reads. *)

(** Node and link ids are numbers or UUIDs in litegraph; they are kept here
    by their [String(id)] rendering, which is what the serializer keys the
    prompt by. *)
Definition NodeID := string.
Definition LinkID := string.

(** A graph is named by the chain of subgraph nodes that own it, innermost
    first: the root graph is [[]], and the inner graph of a subgraph node
    [s] that lives in graph [p] is [s :: p].  This renders the ownership
    tree of litegraph ([Subgraph.subgraph] downwards, [graph._subgraph_node]
    upwards) without cyclic references. *)
Definition GraphRef := list NodeID.

(** [NodeMode]: a numeric enum whose [ALWAYS] member is 0. *)
Definition NodeMode := Z.
Definition ALWAYS : NodeMode := 0%Z.
Definition ON_EVENT : NodeMode := 1%Z.
Definition NEVER : NodeMode := 2%Z.
Definition ON_TRIGGER : NodeMode := 3%Z.
Definition BYPASS : NodeMode := 4%Z.

(** What [node.is(...)] can tell about a node. *)
Inductive NodeClass : Type :=
| Reroute
| ComfyReroute
| GraphInput (nameInGraph : string)
| GraphOutput (name : string)
| Subgraph
| PlainNode.

(** The part of [IComfyInputSlot] the serializer reads; present exactly
    when ["config" in inp]. *)
Record ComfySlot : Type := mkComfySlot {
  defaultValue : JsValue;       (* [config?.defaultValue] *)
  slot_serialize : bool         (* [serialize] *)
}.

Record InputSlot : Type := mkInputSlot {
  slot_name : string;
  slot_link : option LinkID;
  slot_comfy : option ComfySlot
}.

Record LLink : Type := mkLink {
  link_id : LinkID;
  origin_id : NodeID;
  origin_slot : nat;
  target_id : NodeID;
  target_slot : nat;
  data : JsValue
}.

Record LGraphNode : Type := mkNode {
  id : NodeID;
  graph : GraphRef;
  class : NodeClass;
  mode : NodeMode;
  tags : option (list string);        (* [properties.tags], when present *)
  inputs : list InputSlot;
  outputs : list string;              (* names of the output slots *)
  isBackendNode : option bool;        (* [None]: the property is absent *)
  comfyClass : string;
  upstreamHook : option (option LLink) (* [Some r]: the node has a
                                          [getUpstreamLink] method, which
                                          returns [r] *)
}.

Record LGraph : Type := mkGraph {
  _nodes : list LGraphNode;
  links : gmap LinkID LLink
}.

(** The heap of graphs the editor owns. *)
Abbreviation Store := (gmap GraphRef LGraph).

Definition with_graph (g : GraphRef) (n : LGraphNode) : LGraphNode :=
  {| id := id n; graph := g; class := class n; mode := mode n; tags := tags n;
     inputs := inputs n; outputs := outputs n; isBackendNode := isBackendNode n;
     comfyClass := comfyClass n; upstreamHook := upstreamHook n |}.

Definition graph_nodes (s : Store) (g : GraphRef) : list LGraphNode :=
  match s !! g with
  | Some gr => with_graph g <$> _nodes gr
  | None => []
  end.

(** [graph.getNodeById(id)]; the node found in the table of [g] has [g] as
    its [graph]. *)
Definition getNodeById (s : Store) (g : GraphRef) (i : NodeID) : option LGraphNode :=
  List.find (fun n => String.eqb (id n) i) (graph_nodes s g).

(** [graph.links[l]] *)
Definition getLink (s : Store) (g : GraphRef) (l : LinkID) : option LLink :=
  match s !! g with
  | Some gr => links gr !! l
  | None => None
  end.

(** [graph._subgraph_node]: the [Subgraph] node that owns the graph. *)
Definition is_Subgraph (n : LGraphNode) : bool :=
  match class n with Subgraph => true | _ => false end.

Definition _subgraph_node (s : Store) (g : GraphRef) : option LGraphNode :=
  match g with
  | [] => None
  | sid :: p =>
      match getNodeById s p sid with
      | Some n => if is_Subgraph n then Some n else None
      | None => None
      end
  end.

(** [graph._is_subgraph] *)
Definition _is_subgraph (g : GraphRef) : bool :=
  match g with [] => false | _ :: _ => true end.

(** [node.getInputLink(slot)] *)
Definition getInputLink (s : Store) (node : LGraphNode) (slot : nat) : option LLink :=
  match nth_error (inputs node) slot with
  | Some inp =>
      match slot_link inp with
      | Some l => getLink s (graph node) l
      | None => None
      end
  | None => None
  end.

(** [node.getInputNode(slot)] *)
Definition getInputNode (s : Store) (node : LGraphNode) (slot : nat) : option LGraphNode :=
  match getInputLink s node slot with
  | Some l => getNodeById s (graph node) (origin_id l)
  | None => None
  end.

(** [node.iterateParentSubgraphNodes()], innermost first. *)
Fixpoint parentSubgraphNodes (s : Store) (g : GraphRef) : list LGraphNode :=
  match g with
  | [] => []
  | _ :: p =>
      match _subgraph_node s g with
      | Some sub => sub :: parentSubgraphNodes s p
      | None => []
      end
  end.

Definition iterateParentSubgraphNodes (s : Store) (node : LGraphNode) : list LGraphNode :=
  parentSubgraphNodes s (graph node).

(** [subgraph.getInnerGraphOutputByIndex(slot)]: the first graph-output
    node of the inner graph that is named like output slot [slot]. *)
Definition is_graph_output_named (nm : string) (n : LGraphNode) : bool :=
  match class n with
  | GraphOutput nm' => String.eqb nm' nm
  | _ => false
  end.

Definition getInnerGraphOutputByIndex (s : Store) (subgraph : LGraphNode) (slot : nat)
  : option LGraphNode :=
  match nth_error (outputs subgraph) slot with
  | Some nm => List.find (is_graph_output_named nm) (graph_nodes s (id subgraph :: graph subgraph))
  | None => None
  end.

(* ===================================================================== *)
(** ** Activity predicates *)
(* ===================================================================== *)

Definition isReroute (node : LGraphNode) : bool :=
  match class node with
  | Reroute | ComfyReroute => true
  | _ => false
  end.

Definition isGraphInputOutput (node : LGraphNode) : bool :=
  match class node with
  | GraphInput _ | GraphOutput _ => true
  | _ => false
  end.

Definition has_tag (ts : option (list string)) (tag : string) : bool :=
  match ts with
  | Some l => existsb (String.eqb tag) l
  | None => false
  end.

(** The [while (node != null)] loop of [nodeHasTag], by recursion on the
    chain of owning subgraph nodes. *)
Fixpoint nodeHasTag_from (s : Store) (ts : option (list string)) (g : GraphRef)
    (tag : string) (checkParents : bool) : bool :=
  if has_tag ts tag then true
  else if negb checkParents then false
  else match g with
       | [] => false
       | _ :: p =>
           match _subgraph_node s g with
           | Some sub => nodeHasTag_from s (tags sub) p tag checkParents
           | None => false
           end
       end.

Definition nodeHasTag (s : Store) (node : LGraphNode) (tag : string) (checkParents : bool) : bool :=
  nodeHasTag_from s (tags node) (graph node) tag checkParents.

(** A tag filter is in force when [tag] is truthy: neither [null] nor the
    empty string. *)
Definition tag_set (tag : option string) : option string :=
  match tag with
  | Some t => if String.eqb t "" then None else Some t
  | None => None
  end.

Definition isActiveNode (s : Store) (node : option LGraphNode) (tag : option string) : bool :=
  match node with
  | None => false
  | Some node =>
      if negb (isReroute node) && negb (isGraphInputOutput node)
         && match tag_set tag with
            | Some t => negb (nodeHasTag s node t true)
            | None => false
            end
      then false
      else if negb (mode node =? ALWAYS)%Z then false
      else true
  end.

Definition backend_flag (node : LGraphNode) : bool :=
  match isBackendNode node with
  | Some b => b
  | None => false
  end.

Definition isActiveBackendNode (s : Store) (node : LGraphNode) (tag : option string) : bool :=
  if negb (backend_flag node) then false
  else if negb (isActiveNode s (Some node) tag) then false
  else if _is_subgraph (graph node)
          && existsb (fun n => negb (isActiveNode s (Some n) tag))
                     (iterateParentSubgraphNodes s node)
       then false
       else true.

(* ===================================================================== *)
(** ** Following one link upstream *)
(* ===================================================================== *)

(** [UpstreamResult]: the graph, link, input slot and node of the next hop,
    each of which may be [null]. *)
Record UpstreamResult : Type := mkUpstream {
  up_graph : option GraphRef;
  up_link : option LLink;
  up_slot : option nat;
  up_node : option LGraphNode
}.

Definition followSubgraph (s : Store) (subgraph : LGraphNode) (link : option LLink)
  : Completion UpstreamResult :=
  match link with
  | None => Throw "TypeError: link is null"
  | Some link =>
      if negb (String.eqb (origin_id link) (id subgraph)) then
        Throw "Invalid link and graph output!"
      else
        match getInnerGraphOutputByIndex s subgraph (origin_slot link) with
        | None => Throw "No inner graph input!"
        | Some innerGraphOutput =>
            let nextLink := getInputLink s innerGraphOutput 0 in
            Normal (mkUpstream (Some (graph innerGraphOutput)) nextLink (Some 0)
                               (Some innerGraphOutput))
        end
  end.

(** [inputs.findIndex(i => i.name === nm)] *)
Fixpoint findIndex_name (nm : string) (l : list InputSlot) : option nat :=
  match l with
  | [] => None
  | inp :: l' =>
      if String.eqb (slot_name inp) nm then Some 0
      else option_map S (findIndex_name nm l')
  end.

Definition followGraphInput (s : Store) (graphInput : LGraphNode) (nameInGraph : string)
    (link : option LLink) : Completion UpstreamResult :=
  match link with
  | None => Throw "TypeError: link is null"
  | Some link =>
      if negb (String.eqb (origin_id link) (id graphInput)) then
        Throw "Invalid link and graph input!"
      else
        match _subgraph_node s (graph graphInput) with
        | None => Throw "No outer subgraph!"
        | Some outerSubgraph =>
            match findIndex_name nameInGraph (inputs outerSubgraph) with
            | None => Throw "No outer input slot!"
            | Some outerInputIndex =>
                let nextLink := getInputLink s outerSubgraph outerInputIndex in
                Normal (mkUpstream (Some (graph outerSubgraph)) nextLink
                                   (Some outerInputIndex) (Some outerSubgraph))
            end
        end
  end.

Definition no_upstream : UpstreamResult := mkUpstream None None None None.

Definition getUpstreamLink (s : Store) (parent : LGraphNode) (currentLink : option LLink)
  : Completion UpstreamResult :=
  match class parent with
  | Subgraph => followSubgraph s parent currentLink
  | GraphInput nm => followGraphInput s parent nm currentLink
  | _ =>
      match upstreamHook parent with
      | Some link =>
          Normal (mkUpstream (Some (graph parent)) link (option_map target_slot link)
                             (Some parent))
      | None =>
          if Nat.eqb (length (inputs parent)) 1 then
            match getInputLink s parent 0 with
            | Some link =>
                Normal (mkUpstream (Some (graph parent)) (Some link) (Some 0) (Some parent))
            | None => Normal no_upstream
            end
          else Normal no_upstream
      end
  end.

(* ===================================================================== *)
(** ** UpstreamNodeLocator *)
(* ===================================================================== *)

Module UpstreamNodeLocator.

(** The variables of [locateUpstream] that the loop updates. *)
Record LoopState : Type := mkLoop {
  parent : option LGraphNode;
  currentLink : option LLink;
  currentInputSlot : option nat;
  currentNode : option LGraphNode;
  seen : gset LinkID
}.

(** The four-element array [locateUpstream] returns. *)
Record Located : Type := mkLocated {
  found : option LGraphNode;
  linkLeadingTo : option LLink;
  inputSlot : option nat;
  lastNode : option LGraphNode
}.

Section Locator.
(** The constructor argument of the locator. *)
Variable isTheTargetNode : LGraphNode -> option LLink -> bool.
Variable s : Store.
Variable tag : option string.

Definition shouldFollowParent (parent : option LGraphNode) (currentLink : option LLink) : bool :=
  isActiveNode s parent tag
  && match parent with
     | Some p => negb (isTheTargetNode p currentLink)
     | None => false
     end.

(** The [while] loop; each unfolding of the body spends one unit of
    fuel. *)
Fixpoint locate_loop (fuel : nat) (st : LoopState) : Completion LoopState :=
  if shouldFollowParent (parent st) (currentLink st) then
    match fuel, parent st with
    | O, _ => OutOfFuel
    | _, None => Normal st
    | S fuel', Some p =>
        up ← getUpstreamLink s p (currentLink st);
        let st1 := mkLoop (parent st) (currentLink st) (up_slot up) (up_node up) (seen st) in
        match up_link up with
        | None => Normal st1                                     (* break *)
        | Some nextLink =>
            if decide (link_id nextLink ∈ seen st) then
              locate_loop fuel' (mkLoop None (currentLink st) (up_slot up) (up_node up) (seen st))
            else
              let seen' := {[link_id nextLink]} ∪ seen st in
              let nextParent :=
                match up_graph up with
                | Some nextGraph => getNodeById s nextGraph (origin_id nextLink)
                | None => None
                end in
              if negb (isActiveNode s (parent st) tag) then
                locate_loop fuel' (mkLoop None (currentLink st) (up_slot up) (up_node up) seen')
              else
                locate_loop fuel' (mkLoop nextParent (Some nextLink) (up_slot up) (up_node up) seen')
        end
    end
  else Normal st.

(** What the code after the loop returns. *)
Definition locate_result (st : LoopState) : Located :=
  if negb (isActiveNode s (parent st) tag)
     || match parent st with
        | Some p => negb (isTheTargetNode p (currentLink st))
        | None => true
        end
     || match currentLink st with None => true | Some _ => false end
  then mkLocated None (currentLink st) (currentInputSlot st) (currentNode st)
  else mkLocated (parent st) (currentLink st) (currentInputSlot st) (currentNode st).

Definition locate_from (fuel : nat) (fromNode : LGraphNode) (inputIndex : nat)
  : Completion Located :=
  match getInputNode s fromNode inputIndex with
  | None => Normal (mkLocated None None None None)
  | Some p =>
      st ← locate_loop fuel
             (mkLoop (Some p) (getInputLink s fromNode inputIndex) (Some inputIndex)
                     (Some fromNode) ∅);
      Normal (locate_result st)
  end.
End Locator.

(** Every link id a traversal can meet: the ids in the link tables of the
    graphs, and the ids of the links the [getUpstreamLink] methods of their
    nodes return. *)
Definition hook_link_ids (n : LGraphNode) : gset LinkID :=
  match upstreamHook n with
  | Some (Some l) => {[link_id l]}
  | _ => ∅
  end.

Definition graph_link_ids (gr : LGraph) : gset LinkID :=
  list_to_set ((fun kv => link_id (snd kv)) <$> map_to_list (links gr))
  ∪ ⋃ (hook_link_ids <$> _nodes gr).

Definition link_ids (s : Store) : gset LinkID :=
  ⋃ ((fun kg => graph_link_ids (snd kg)) <$> map_to_list s).

(** [locateUpstream(fromNode, inputIndex, tag)] of a locator built with
    [isTheTargetNode]. *)
Definition locateUpstream (isTheTargetNode : LGraphNode -> option LLink -> bool)
    (s : Store) (fromNode : LGraphNode) (inputIndex : nat) (tag : option string)
  : Completion Located :=
  locate_from isTheTargetNode s tag (S (size (link_ids s))) fromNode inputIndex.

End UpstreamNodeLocator.

(* ===================================================================== *)
(** ** ComfyPromptSerializer *)
(* ===================================================================== *)

(** One entry of the prompt: [{ inputs, class_type }].  The prompt and the
    inputs of an entry are plain objects used as maps from ids,
    respectively slot names.  They are kept by their own properties; what
    they inherit from [Object.prototype] comes in where the source reads
    them with a key taken from the data ([has_member]) and where it assigns
    to them under a slot name ([js_assign]). *)
Record PromptEntry : Type := mkEntry {
  entry_inputs : gmap string JsValue;
  class_type : string
}.

Record SerializedPrompt : Type := mkPrompt {
  workflow : JsValue;
  output : gmap string PromptEntry
}.

(** The [ComfyGraph] handed to [serialize], after [runStep(1)]: its heap of
    graphs, the node sequence that litegraph's
    [computeExecutionOrderRecursive(false, null)] yields for it, and the
    snapshot [graph.serialize()] takes of it.  The last two are computed by
    litegraph and are taken as given. *)
Record ComfyGraph : Type := mkComfyGraph {
  heap : Store;
  executionOrder : list LGraphNode;
  snapshot : JsValue
}.

Module ComfyPromptSerializer.

(** The body of the [for] loop of [serializeInputValues], for slot [i]. *)
Definition serializeInputValues_step (s : Store) (node : LGraphNode)
    (acc : PlainObject) (i : nat) : PlainObject :=
  match nth_error (inputs node) i with
  | None => acc
  | Some inp =>
      let inputLink := getInputLink s node i in
      let inputNode := getInputNode s node i in
      if match inputNode with
         | Some n => negb (mode n =? ALWAYS)%Z
         | None => false
         end
      then acc                                                     (* continue *)
      else
        match inputLink, inputNode with
        | Some inputLink, Some inputNode =>
            let serialize :=
              match slot_comfy inp with
              | Some c => slot_serialize c
              | None => true
              end in
            let isBackendNode := backend_flag node in
            let isInputBackendNode := backend_flag inputNode in
            if serialize && isBackendNode && negb isInputBackendNode
            then js_assign acc (slot_name inp) (data inputLink)
            else acc
        | _, _ =>
            match slot_comfy inp with
            | Some c =>
                match defaultValue c with
                | JNull | JUndefined => acc
                | dv => js_assign acc (slot_name inp) dv
                end
            | None => acc
            end
        end
  end.

(** [node.inputs] is always an array here, so the [!node.inputs] guard is
    never taken.  The caller spreads the object returned into a new one,
    which copies its own properties and nothing else: the result is kept as
    those. *)
Definition serializeInputValues_object (s : Store) (node : LGraphNode) : PlainObject :=
  fold_left (serializeInputValues_step s node) (seq 0 (length (inputs node))) empty_object.

Definition serializeInputValues (s : Store) (node : LGraphNode) : gmap string JsValue :=
  own (serializeInputValues_object s node).

(** [const test = (node) => node.isBackendNode] *)
Definition test (node : LGraphNode) (_ : option LLink) : bool := backend_flag node.

(** The link reference [[String(origin_id), origin_slot]]. *)
Definition link_reference (l : LLink) : JsValue :=
  JArr [JStr (origin_id l); JNum (Z.of_nat (origin_slot l))].

(** The body of the [for] loop of [serializeBackendLinks], for slot [i]. *)
Definition serializeBackendLinks_step (s : Store) (node : LGraphNode) (tag : option string)
    (acc : Completion (gmap string JsValue)) (i : nat) : Completion (gmap string JsValue) :=
  inputs_so_far ← acc;
  r ← UpstreamNodeLocator.locateUpstream test s node i tag;
  match UpstreamNodeLocator.found r with
  | Some backendNode =>
      match nth_error (inputs node) i, UpstreamNodeLocator.linkLeadingTo r with
      | Some input, Some linkLeadingTo =>
          if has_member inputs_so_far (slot_name input)          (* [name in inputs] *)
          then Normal inputs_so_far
          else Normal (<[slot_name input := link_reference linkLeadingTo]> inputs_so_far)
      | _, _ => Throw "TypeError"
      end
  | None => Normal inputs_so_far                                   (* warn *)
  end.

Definition serializeBackendLinks (s : Store) (node : LGraphNode) (tag : option string)
  : Completion (gmap string JsValue) :=
  fold_left (serializeBackendLinks_step s node tag) (seq 0 (length (inputs node))) (Normal ∅).

(** The body of the first loop of [serialize], for one node of the
    execution order.  Node ids are numbers or UUIDs, never the name of a
    member of [Object.prototype]: the assignment to [output[String(node.id)]]
    creates or overwrites a property of [output] itself. *)
Definition serialize_node (s : Store) (tag : option string)
    (acc : Completion (gmap string PromptEntry)) (node : LGraphNode)
  : Completion (gmap string PromptEntry) :=
  out ← acc;
  if negb (isActiveBackendNode s node tag) then Normal out        (* continue *)
  else
    let inputs := serializeInputValues s node in
    links ← serializeBackendLinks s node tag;
    Normal (<[id node := mkEntry (links ∪ inputs) (comfyClass node)]> out).

(** The test of the pruning loop:
    [Array.isArray(v) && v.length === 2 && !output[v[0]]].  [output] is a
    plain object; an entry is an object, hence truthy, and so is every
    member it inherits: [!output[k]] says that [k] is neither a key nor the
    name of a member of [Object.prototype]. *)
Definition refers_to_removed (out : gmap string PromptEntry) (v : JsValue) : bool :=
  match v with
  | JArr [a; _] => negb (has_member out (toPropertyKey a))
  | _ => false
  end.

(** The test converts [v[0]] to a property key, for every two-element
    array among the inputs; the conversion can throw. *)
Definition unconvertible_key (v : JsValue) : bool :=
  match v with
  | JArr [a; _] => negb (js_stringable a)
  | _ => false
  end.

Definition pruning_throws (out : gmap string PromptEntry) : bool :=
  existsb (fun ke => existsb (fun nv => unconvertible_key (snd nv))
                       (map_to_list (entry_inputs (snd ke))))
    (map_to_list out).

(** The second loop of [serialize]: remove inputs connected to removed
    nodes. *)
Definition prune_inputs (out : gmap string PromptEntry) (ins : gmap string JsValue)
  : gmap string JsValue :=
  filter (fun kv => refers_to_removed out (snd kv) = false) ins.

Definition prune (out : gmap string PromptEntry) : gmap string PromptEntry :=
  (fun e => mkEntry (prune_inputs out (entry_inputs e)) (class_type e)) <$> out.

Definition serialize (graph : ComfyGraph) (tag : option string) : Completion SerializedPrompt :=
  out ← fold_left (serialize_node (heap graph) tag) (executionOrder graph) (Normal ∅);
  if pruning_throws out then Throw cannot_convert
  else Normal (mkPrompt (snapshot graph) (prune out)).

End ComfyPromptSerializer.

(* ===================================================================== *)
(** ** ComfyAPI: the backend event client *)
(* ===================================================================== *)

Module ComfyAPI.

Record Blob : Type := mkBlob {
  blob_parts : list byte;
  blob_type : string
}.

(** [ComfyAPIEvents]: what the client emits on its event bus. *)
Inductive Event : Type :=
| status (st : JsValue)
| progress (p : JsValue)
| reconnecting
| reconnected
| executing (promptID runningNodeID : JsValue)
| executed (promptID nodeID out : JsValue)
| execution_start (promptID : JsValue)
| execution_cached (promptID nodes : JsValue)
| execution_interrupted (error : JsValue)
| execution_error (error : JsValue)
| b_preview (imageBlob : Blob).

(** The variables one call of [createSocket] closes over, shared by the
    listeners of the socket it creates. *)
Record SocketClosure : Type := mkClosure {
  isReconnect : bool;
  opened : bool;
  existingSession : string
}.

(** The client, together with what it has handed to the browser: the
    sockets it created (a socket is named by its position), the sockets it
    asked to close, the pending [setTimeout] callbacks (all of them the
    reconnect callback, kept by their delay), the [setInterval] polls it
    started, and the events emitted so far, oldest first. *)
Record Client : Type := mkClient {
  socket : option nat;
  clientId : JsValue;
  sessionId : JsValue;          (* [sessionStorage["Comfy.SessionId"]]: a string once set *)
  sockets : list SocketClosure;
  closeRequested : list nat;
  timers : list Z;
  pollers : nat;
  eventBus : list Event
}.

Definition emit (e : Event) (c : Client) : Client :=
  mkClient (socket c) (clientId c) (sessionId c) (sockets c) (closeRequested c)
           (timers c) (pollers c) (eventBus c ++ [e]).

Definition set_socket (o : option nat) (c : Client) : Client :=
  mkClient o (clientId c) (sessionId c) (sockets c) (closeRequested c)
           (timers c) (pollers c) (eventBus c).

Definition set_sockets (l : list SocketClosure) (c : Client) : Client :=
  mkClient (socket c) (clientId c) (sessionId c) l (closeRequested c)
           (timers c) (pollers c) (eventBus c).

Definition set_timers (l : list Z) (c : Client) : Client :=
  mkClient (socket c) (clientId c) (sessionId c) (sockets c) (closeRequested c)
           l (pollers c) (eventBus c).

(** [this.clientId = sid] *)
Definition set_clientId (sid : JsValue) (c : Client) : Client :=
  mkClient (socket c) sid (sessionId c) (sockets c) (closeRequested c)
           (timers c) (pollers c) (eventBus c).

(** [this.clientId = sid; sessionStorage["Comfy.SessionId"] = this.clientId],
    for a [sid] that converts to the string [text]: the storage keeps
    strings. *)
Definition set_session (sid : JsValue) (text : string) (c : Client) : Client :=
  mkClient (socket c) sid (JStr text) (sockets c) (closeRequested c)
           (timers c) (pollers c) (eventBus c).

Definition request_close (h : nat) (c : Client) : Client :=
  mkClient (socket c) (clientId c) (sessionId c) (sockets c) (closeRequested c ++ [h])
           (timers c) (pollers c) (eventBus c).

Definition pollQueue (c : Client) : Client :=
  mkClient (socket c) (clientId c) (sessionId c) (sockets c) (closeRequested c)
           (timers c) (S (pollers c)) (eventBus c).

(** A fresh client: the field initialisers of the class. *)
Definition new_client : Client :=
  mkClient None JNull JUndefined [] [] [] 0 [].

(** [createSocket(isReconnect)] *)
Definition createSocket (isReconnect : bool) (c : Client) : Client :=
  match socket c with
  | Some _ => c
  | None =>
      let existingSession :=
        if js_truthy (sessionId c) then "?clientId=" ++ js_to_string (sessionId c) else "" in
      set_socket (Some (length (sockets c)))
        (set_sockets (sockets c ++ [mkClosure isReconnect false existingSession]) c)
  end.

Definition init (c : Client) : Client := createSocket false c.

(** The ["open"] listener of socket [h]. *)
Definition on_open (h : nat) (c : Client) : Client :=
  match sockets c !! h with
  | None => c
  | Some cl =>
      let c1 := set_sockets (<[h := mkClosure (isReconnect cl) true (existingSession cl)]> (sockets c)) c in
      if isReconnect cl then emit reconnected c1 else c1
  end.

(** The ["error"] listener of socket [h]. *)
Definition on_error (h : nat) (c : Client) : Client :=
  match sockets c !! h with
  | None => c
  | Some cl =>
      let c1 := match socket c with
                | Some cur => request_close cur c
                | None => c
                end in
      if negb (isReconnect cl) && negb (opened cl) then pollQueue c1 else c1
  end.

(** The delay of the reconnect timer. *)
Definition reconnect_delay : Z := 300.

(** The ["close"] listener of socket [h]. *)
Definition on_close (h : nat) (c : Client) : Client :=
  match sockets c !! h with
  | None => c
  | Some cl =>
      let c1 := set_timers (timers c ++ [reconnect_delay]) c in
      if opened cl then emit reconnecting (emit (status JNull) c1) else c1
  end.

(** The callback handed to [setTimeout] by the ["close"] listener, run
    when pending timer [i] fires. *)
Definition on_timeout (i : nat) (c : Client) : Client :=
  match timers c !! i with
  | None => c
  | Some _ =>
      let c1 := set_timers (take i (timers c) ++ drop (S i) (timers c)) c in
      createSocket true (set_socket None c1)
  end.

(** [new DataView(data).getUint32(off)]: big-endian; a [RangeError] when
    fewer than four bytes are left. *)
Definition getUint32 (data : list byte) (off : nat) : Completion N :=
  match drop off data with
  | b0 :: b1 :: b2 :: b3 :: _ =>
      Normal (((Byte.to_N b0 * 256 + Byte.to_N b1) * 256 + Byte.to_N b2) * 256
              + Byte.to_N b3)%N
  | _ => Throw "RangeError: Offset is outside the bounds of the DataView"
  end.

(** [data.slice(n)] *)
Definition slice (n : nat) (data : list byte) : list byte := drop n data.

(** [event.data] of a ["message"] event: an [ArrayBuffer], or a text whose
    [JSON.parse] gives [parsed] ([None] when it throws). *)
Inductive MessageData : Type :=
| Binary (data : list byte)
| Text (parsed : option JsValue).

Definition get (v : JsValue) (k : string) : Completion JsValue :=
  match js_get v k with
  | Some x => Normal x
  | None => Throw "TypeError: cannot read properties of null or undefined"
  end.

(** What was done before a throw stays done: a step of the listener
    returns the client along with its completion. *)
Definition attempt {A} (r : Completion A) (c : Client) (k : A -> Client * Completion unit)
  : Client * Completion unit :=
  match r with
  | Normal a => k a
  | Throw m => (c, Throw m)
  | OutOfFuel => (c, OutOfFuel)
  end.

(** The [case "status"] of the switch: the [emit] that ends it, and the
    whole case.  The client id is set before the storage converts it to a
    string, so it stays set when the conversion throws. *)
Definition emit_status (msg : JsValue) (c : Client) : Client * Completion unit :=
  attempt (d ← get msg "data"; st ← get d "status";
           ei ← get st "exec_info"; get ei "queue_remaining") c (fun q =>
  (emit (status (JObj [("execInfo", JObj [("queueRemaining", q)])])) c, Normal tt)).

Definition handle_status (msg : JsValue) (c : Client) : Client * Completion unit :=
  attempt (d ← get msg "data"; get d "sid") c (fun sid =>
  if js_truthy sid then
    attempt (js_String sid) (set_clientId sid c) (fun text =>
    emit_status msg (set_session sid text c))
  else emit_status msg c).

(** The [switch (msg.type)] of a JSON message. *)
Definition json_message (msg : JsValue) (c : Client) : Client * Completion unit :=
  attempt (get msg "type") c (fun type =>
  match type with
  | JStr "status" => handle_status msg c
  | JStr "progress" =>
      attempt (get msg "data") c (fun d => (emit (progress d) c, Normal tt))
  | JStr "executing" =>
      attempt (d ← get msg "data"; p ← get d "prompt_id"; n ← get d "node"; Normal (p, n)) c
        (fun pn => (emit (executing (fst pn) (snd pn)) c, Normal tt))
  | JStr "executed" =>
      attempt (d ← get msg "data"; p ← get d "prompt_id"; n ← get d "node";
               o ← get d "output"; Normal (p, n, o)) c
        (fun pno => (emit (executed (fst (fst pno)) (snd (fst pno)) (snd pno)) c, Normal tt))
  | JStr "execution_start" =>
      attempt (d ← get msg "data"; get d "prompt_id") c
        (fun p => (emit (execution_start p) c, Normal tt))
  | JStr "execution_cached" =>
      attempt (d ← get msg "data"; p ← get d "prompt_id"; n ← get d "nodes"; Normal (p, n)) c
        (fun pn => (emit (execution_cached (fst pn) (snd pn)) c, Normal tt))
  | JStr "execution_interrupted" =>
      attempt (get msg "data") c (fun d => (emit (execution_interrupted d) c, Normal tt))
  | JStr "execution_error" =>
      attempt (get msg "data") c (fun d => (emit (execution_error d) c, Normal tt))
  | _ => (c, Normal tt)                                  (* warn: unhandled *)
  end).

(** The body of the [try] block of the ["message"] listener. *)
Definition message_body (d : MessageData) (c : Client) : Client * Completion unit :=
  match d with
  | Binary data =>
      attempt (getUint32 data 0) c (fun eventType =>
      let buffer := slice 4 data in
      if (eventType =? 1)%N then
        (* [const view2 = new DataView(event.data)] *)
        attempt (getUint32 data 0) c (fun imageType =>
        let imageMime := if (imageType =? 2)%N then "image/png" else "image/jpeg" in
        let imageBlob := mkBlob (slice 4 buffer) imageMime in
        (emit (b_preview imageBlob) c, Normal tt))
      else (c, Throw ("Unknown binary websocket message of type " ++ pretty eventType)))
  | Text None => (c, Throw "SyntaxError")
  | Text (Some msg) => json_message msg c
  end.

(** The ["message"] listener: the [catch] logs the error and goes on. *)
Definition on_message (d : MessageData) (c : Client) : Client :=
  fst (message_body d c).

(** *** REST helpers *)

(** A settled promise. *)
Inductive Promise (A : Type) : Type :=
| Resolved (v : A)
| Rejected (reason : JsValue).
Arguments Resolved {A} v.
Arguments Rejected {A} reason.

(** [p.then(f)] and [p.catch(g)]; a callback that throws is one that
    returns a rejected promise. *)
Definition and_then {A B} (p : Promise A) (f : A -> Promise B) : Promise B :=
  match p with
  | Resolved v => f v
  | Rejected e => Rejected e
  end.

Definition catch {A} (p : Promise A) (g : JsValue -> Promise A) : Promise A :=
  match p with
  | Resolved v => Resolved v
  | Rejected e => g e
  end.

(** What the helpers read of a [Response]: its status and what
    [res.json()] settles to. *)
Record Response : Type := mkResponse {
  res_status : Z;
  res_json : Promise JsValue
}.

Record RequestInit : Type := mkInit {
  req_method : string;
  req_body : option string
}.

Definition GET : RequestInit := mkInit "GET" None.
Definition POST (body : option string) : RequestInit := mkInit "POST" body.

(** [ComfyPromptRequest] *)
Record ComfyPromptRequest : Type := mkRequest {
  client_id : JsValue;
  prompt : gmap string PromptEntry;
  extra_data : JsValue;
  front : option bool;
  number : option Z
}.

(** Property read inside a promise callback. *)
Definition read (v : JsValue) (k : string) : Promise JsValue :=
  match js_get v k with
  | Some x => Resolved x
  | None => Rejected (JStr "TypeError: cannot read properties of null or undefined")
  end.

(** The first statements of [queuePrompt]: the request object as it is
    handed to [JSON.stringify]. *)
Definition queuePrompt_body (c : Client) (body : ComfyPromptRequest) : ComfyPromptRequest :=
  let body1 := mkRequest (clientId c) (prompt body) (extra_data body) (front body) (number body) in
  match number body1 with
  | Some (-1)%Z =>
      mkRequest (client_id body1) (prompt body1) (extra_data body1) (Some true) (number body1)
  | _ => body1
  end.

Section Rest.
(** The browser and the network: [fetch], and [JSON.stringify] on a
    request, which gives the text or throws. *)
Variable fetch : string -> RequestInit -> Promise Response.
Variable JSON_stringify : ComfyPromptRequest -> string + JsValue.
Variable backendUrl : string.

Definition getExtensions : Promise JsValue :=
  and_then (fetch (backendUrl ++ "/extensions") GET) (fun resp => res_json resp).

Definition getEmbeddings : Promise JsValue :=
  and_then (fetch (backendUrl ++ "/embeddings") GET) (fun resp => res_json resp).

Definition getNodeDefs : Promise JsValue :=
  and_then (fetch (backendUrl ++ "/object_info") GET) (fun resp => res_json resp).

Definition queuePrompt (c : Client) (body : ComfyPromptRequest) : Promise JsValue :=
  let body := queuePrompt_body c body in
  match JSON_stringify body with
  | inr error =>
      match toString_method error with
      | Normal text => Rejected (JObj [("error", JStr text)])
      | Throw m => Rejected (JStr m)          (* the [catch] block throws *)
      | OutOfFuel => Rejected JUndefined
      end
  | inl postBody =>
      catch
        (and_then
           (and_then (fetch (backendUrl ++ "/prompt") (POST (Some postBody)))
              (fun res =>
                 if negb (res_status res =? 200)%Z then
                   match res_json res with
                   | Resolved payload => Rejected payload          (* throw *)
                   | Rejected e => Rejected e
                   end
                 else res_json res))
           (fun raw =>
              and_then (read raw "prompt_id") (fun prompt_id =>
              and_then (read raw "number") (fun number =>
              Resolved (JObj [("promptID", prompt_id); ("number", number)])))))
        (fun error => Resolved error)
  end.

Definition getQueue : Promise JsValue :=
  catch
    (and_then
       (and_then (fetch (backendUrl ++ "/queue") GET) (fun res => res_json res))
       (fun data =>
          and_then (read data "queue_running") (fun queue_running =>
          and_then (read data "queue_pending") (fun queue_pending =>
          Resolved (JObj [("running", queue_running); ("pending", queue_pending)])))))
    (fun error =>
       Resolved (JObj [("running", JArr []); ("pending", JArr []); ("error", error)])).

Definition getHistory : Promise JsValue :=
  catch
    (and_then
       (and_then (fetch (backendUrl ++ "/history") GET) (fun res => res_json res))
       (fun history => Resolved (JObj [("history", history)])))
    (fun error => Resolved (JObj [("history", JObj []); ("error", error)])).

Definition interrupt : Promise Response :=
  fetch (backendUrl ++ "/interrupt") (POST None).

Definition getSystemStats : Promise JsValue :=
  and_then (fetch (backendUrl ++ "/system_stats") GET) (fun resp => res_json resp).
End Rest.

End ComfyAPI.

(* ===================================================================== *)
(** * Vocabulary of the properties *)
(* ===================================================================== *)

#[global] Instance Completion_fmap : FMap Completion :=
  fun A B f c => match c with
                 | Normal a => Normal (f a)
                 | Throw m => Throw m
                 | OutOfFuel => OutOfFuel
                 end.

(** A node object that [getNodeById] can return. *)
Definition in_store (s : Store) (n : LGraphNode) : Prop :=
  ∃ g i, getNodeById s g i = Some n.

Definition set_tags (ts : option (list string)) (n : LGraphNode) : LGraphNode :=
  {| id := id n; graph := graph n; class := class n; mode := mode n; tags := ts;
     inputs := inputs n; outputs := outputs n; isBackendNode := isBackendNode n;
     comfyClass := comfyClass n; upstreamHook := upstreamHook n |}.

(** Putting other tags on the reroutes and on the graph-boundary nodes:
    [f g i] becomes the [properties.tags] of such a node [i] of graph [g];
    every other node keeps its tags. *)
Definition retag_node (f : GraphRef -> NodeID -> option (list string)) (n : LGraphNode)
  : LGraphNode :=
  if isReroute n || isGraphInputOutput n then set_tags (f (graph n) (id n)) n else n.

Definition retag_graph (f : GraphRef -> NodeID -> option (list string)) (g : GraphRef)
    (gr : LGraph) : LGraph :=
  mkGraph ((fun n => retag_node f (with_graph g n)) <$> _nodes gr) (links gr).

Definition retag_store (f : GraphRef -> NodeID -> option (list string)) (s : Store) : Store :=
  map_imap (fun g gr => Some (retag_graph f g gr)) s.

Definition retag_comfy (f : GraphRef -> NodeID -> option (list string)) (snap : JsValue)
    (graph : ComfyGraph) : ComfyGraph :=
  mkComfyGraph (retag_store f (heap graph)) (retag_node f <$> executionOrder graph) snap.

(** The same re-tagging on the values the locator handles. *)
Definition retag_upstream (f : GraphRef -> NodeID -> option (list string))
    (up : UpstreamResult) : UpstreamResult :=
  mkUpstream (up_graph up) (up_link up) (up_slot up) (retag_node f <$> up_node up).

Definition retag_loop (f : GraphRef -> NodeID -> option (list string))
    (st : UpstreamNodeLocator.LoopState) : UpstreamNodeLocator.LoopState :=
  UpstreamNodeLocator.mkLoop
    (retag_node f <$> UpstreamNodeLocator.parent st)
    (UpstreamNodeLocator.currentLink st)
    (UpstreamNodeLocator.currentInputSlot st)
    (retag_node f <$> UpstreamNodeLocator.currentNode st)
    (UpstreamNodeLocator.seen st).

Definition retag_located (f : GraphRef -> NodeID -> option (list string))
    (r : UpstreamNodeLocator.Located) : UpstreamNodeLocator.Located :=
  UpstreamNodeLocator.mkLocated
    (retag_node f <$> UpstreamNodeLocator.found r)
    (UpstreamNodeLocator.linkLeadingTo r)
    (UpstreamNodeLocator.inputSlot r)
    (retag_node f <$> UpstreamNodeLocator.lastNode r).

(** A network or parse failure of a [GET]: [fetch] rejects with [e], or the
    response arrives and [res.json()] rejects with [e]. *)
Definition request_fails (fetch : string -> ComfyAPI.RequestInit -> ComfyAPI.Promise ComfyAPI.Response)
    (url : string) (e : JsValue) : Prop :=
  fetch url ComfyAPI.GET = ComfyAPI.Rejected e
  ∨ ∃ res, fetch url ComfyAPI.GET = ComfyAPI.Resolved res
           ∧ ComfyAPI.res_json res = ComfyAPI.Rejected e.

(* ===================================================================== *)
(** * Sample graphs, frames and requests *)
(* ===================================================================== *)

Module Samples.

Definition slot (nm : string) (l : option LinkID) : InputSlot := mkInputSlot nm l None.

Definition backend (i : NodeID) (g : GraphRef) (m : NodeMode) (ts : option (list string))
    (ins : list InputSlot) : LGraphNode :=
  mkNode i g PlainNode m ts ins ["out"] (Some true) ("Class" ++ i) (Some None).

Definition frontend (i : NodeID) (g : GraphRef) (ins : list InputSlot) : LGraphNode :=
  mkNode i g PlainNode ALWAYS None ins ["out"] None "" None.

Definition reroute (i : NodeID) (g : GraphRef) (ts : option (list string)) (l : LinkID)
  : LGraphNode :=
  mkNode i g Reroute ALWAYS ts [slot "in" (Some l)] ["out"] None "" None.

Definition subgraph (i : NodeID) (g : GraphRef) (ts : option (list string)) : LGraphNode :=
  mkNode i g Subgraph ALWAYS ts [] [] None "" None.

Definition wire (i : LinkID) (o t : NodeID) (d : JsValue) : LinkID * LLink :=
  (i, mkLink i o 0 t 0 d).

(** [A -> R1 -> R2 -> B]: two backend nodes joined through two reroutes. *)
Definition chain_A (ts : option (list string)) : LGraphNode := backend "A" [] ALWAYS ts [].
Definition chain_R1 (ts : option (list string)) : LGraphNode := reroute "R1" [] ts "1".
Definition chain_R2 (ts : option (list string)) : LGraphNode := reroute "R2" [] ts "2".
Definition chain_B (ts : option (list string)) : LGraphNode :=
  backend "B" [] ALWAYS ts [slot "x" (Some "3")].

Definition chain_nodes (ab r1 r2 : option (list string)) : list LGraphNode :=
  [chain_A ab; chain_R1 r1; chain_R2 r2; chain_B ab].

Definition chain_store (ab r1 r2 : option (list string)) : Store :=
  <[ [] := mkGraph (chain_nodes ab r1 r2)
             (list_to_map [wire "1" "A" "R1" JUndefined; wire "2" "R1" "R2" JUndefined;
                           wire "3" "R2" "B" JUndefined]) ]> ∅.

Definition chain_graph (ab r1 r2 : option (list string)) : ComfyGraph :=
  mkComfyGraph (chain_store ab r1 r2) (chain_nodes ab r1 r2) JNull.

(** The tags [r1] on reroute [R1] and [r2] on every other reroute. *)
Definition chain_tags (r1 r2 : option (list string)) (g : GraphRef) (i : NodeID)
  : option (list string) :=
  if String.eqb i "R1" then r1 else r2.

Definition chain_prompt : SerializedPrompt :=
  mkPrompt JNull
    (list_to_map
       [("A", mkEntry ∅ "ClassA");
        ("B", mkEntry (list_to_map [("x", JArr [JStr "A"; JNum 0])]) "ClassB")]).

(** [F1] and [F2] are frontend-only nodes wired into a cycle; [B] reads
    from [F1]. *)
Definition cycle_B : LGraphNode := backend "B" [] ALWAYS None [slot "x" (Some "0")].
Definition cycle_F1 : LGraphNode := frontend "F1" [] [slot "in" (Some "1")].
Definition cycle_F2 : LGraphNode := frontend "F2" [] [slot "in" (Some "2")].

Definition cycle_store : Store :=
  <[ [] := mkGraph [cycle_F1; cycle_F2; cycle_B]
             (list_to_map [wire "0" "F1" "B" JUndefined; wire "1" "F2" "F1" JUndefined;
                           wire "2" "F1" "F2" JUndefined]) ]> ∅.

(** A backend node [B] inside subgraph [inner], itself inside subgraph
    [outer] of the root graph, with the given tags on each. *)
Definition nested_B (ts : option (list string)) : LGraphNode :=
  backend "B" ["inner"; "outer"] ALWAYS ts [].

Definition nested_store (outer_tags inner_tags node_tags : option (list string)) : Store :=
  <[ [] := mkGraph [subgraph "outer" [] outer_tags] ∅ ]>
  (<[ ["outer"] := mkGraph [subgraph "inner" ["outer"] inner_tags] ∅ ]>
  (<[ ["inner"; "outer"] := mkGraph [nested_B node_tags] ∅ ]> ∅)).

Definition nested_graph (outer_tags inner_tags node_tags : option (list string)) : ComfyGraph :=
  mkComfyGraph (nested_store outer_tags inner_tags node_tags)
    [subgraph "outer" [] outer_tags; subgraph "inner" ["outer"] inner_tags;
     nested_B node_tags] JNull.

(** A frontend node [F] feeds the pair [[512, 768]] into input [size] of
    backend node [B]. *)
Definition size_B : LGraphNode := backend "B" [] ALWAYS None [slot "size" (Some "1")].
Definition size_F : LGraphNode := frontend "F" [] [].

Definition size_store : Store :=
  <[ [] := mkGraph [size_F; size_B]
             (list_to_map [wire "1" "F" "B" (JArr [JNum 512; JNum 768])]) ]> ∅.

Definition size_graph : ComfyGraph := mkComfyGraph size_store [size_F; size_B] JNull.

(** The same two nodes, with [d] as the data on the link from [F] to [B]. *)
Definition pair_store (d : JsValue) : Store :=
  <[ [] := mkGraph [size_F; size_B] (list_to_map [wire "1" "F" "B" d]) ]> ∅.

Definition pair_graph (d : JsValue) : ComfyGraph :=
  mkComfyGraph (pair_store d) [size_F; size_B] JNull.

(** A pair whose first element is the name of a method every object
    inherits. *)
Definition constructor_pair : JsValue := JArr [JStr "constructor"; JNum 768].

(** A pair whose first element cannot be converted to a property key. *)
Definition unconvertible_pair : JsValue := JArr [JObj [("toString", JNum 1)]; JNum 768].

(** Backend node [A], bypassed, feeds backend node [B]. *)
Definition bypassed_A : LGraphNode := backend "A" [] BYPASS None [].
Definition bypassed_B : LGraphNode := backend "B" [] ALWAYS None [slot "x" (Some "1")].

Definition bypassed_store : Store :=
  <[ [] := mkGraph [bypassed_A; bypassed_B] (list_to_map [wire "1" "A" "B" JUndefined]) ]> ∅.

Definition bypassed_graph : ComfyGraph :=
  mkComfyGraph bypassed_store [bypassed_A; bypassed_B] JNull.

(** The frame [[type = 1][imgType = 2][0x89 'P' 'N' 'G']]. *)
Definition png_payload : list byte := [x89; x50; x4e; x47].
Definition png_frame : list byte :=
  [x00; x00; x00; x01; x00; x00; x00; x02] ++ png_payload.

(** A network that is down. *)
Definition network_down (_ : string) (_ : ComfyAPI.RequestInit)
  : ComfyAPI.Promise ComfyAPI.Response :=
  ComfyAPI.Rejected (JStr "TypeError: Failed to fetch").

(** A backend that answers every request with status 400 and an error
    payload. *)
Definition error_payload : JsValue :=
  JObj [("error", JObj [("type", JStr "prompt_no_outputs")]); ("node_errors", JObj [])].

Definition backend_refuses (_ : string) (_ : ComfyAPI.RequestInit)
  : ComfyAPI.Promise ComfyAPI.Response :=
  ComfyAPI.Resolved (ComfyAPI.mkResponse 400 (ComfyAPI.Resolved error_payload)).

Definition stringify_ok (_ : ComfyAPI.ComfyPromptRequest) : string + JsValue := inl "{}".

Definition request (front : option bool) (number : option Z) : ComfyAPI.ComfyPromptRequest :=
  ComfyAPI.mkRequest JUndefined ∅ (JObj []) front number.



End Samples.

(* ===================================================================== *)
(** * The rest of the compiler's and the client's vocabulary *)
(* ===================================================================== *)

(** The nodes [getUpstreamLink] leaves through a subgraph boundary: the
    two cases that call a helper which can throw. *)
Definition follows_boundary (n : LGraphNode) : bool :=
  match class n with
  | Subgraph | GraphInput _ => true
  | _ => false
  end.

(** A heap with no subgraph and no graph-input node. *)
Definition flat_heap (s : Store) : bool :=
  forallb (fun kg => forallb (fun n => negb (follows_boundary n)) (_nodes (snd kg)))
          (map_to_list s).

(** [node.properties.tags] holds [tag]. *)
Definition carries_tag (n : LGraphNode) (tag : string) : Prop :=
  ∃ l, tags n = Some l ∧ tag ∈ l.

(** What the loop of [locateUpstream] keeps true of its variables: the
    current parent is a node of the heap, and the current link is the link
    that leaves it. *)
Definition leads_to_parent (s : Store) (st : UpstreamNodeLocator.LoopState) : Prop :=
  ∀ p, UpstreamNodeLocator.parent st = Some p →
       in_store s p
       ∧ ∃ l, UpstreamNodeLocator.currentLink st = Some l ∧ origin_id l = id p.

(** Where a value of the literal pass comes from: the default of a slot
    that has no producer node, or the data of the slot's link when the
    producer is in [ALWAYS] mode and is not a backend node while the
    consumer is one, and the slot is not marked as not serialized. *)
Definition literal_source (s : Store) (node : LGraphNode) (i : nat) (inp : InputSlot)
    (v : JsValue) : Prop :=
  (getInputNode s node i = None
   ∧ ∃ c, slot_comfy inp = Some c ∧ defaultValue c = v ∧ v ≠ JNull ∧ v ≠ JUndefined)
  ∨ (∃ l m, getInputLink s node i = Some l ∧ getInputNode s node i = Some m
            ∧ mode m = ALWAYS ∧ backend_flag m = false ∧ backend_flag node = true
            ∧ (∀ c, slot_comfy inp = Some c → slot_serialize c = true)
            ∧ v = data l).

(** The value is shaped like a link reference: an array of length two. *)
Definition pair_shaped (v : JsValue) : bool :=
  match v with
  | JArr [_; _] => true
  | _ => false
  end.

Module Transport.

(** What the client reads of [window.location]. *)
Record Location : Type := mkLocation {
  protocol : string;
  loc_hostname : string;
  loc_port : string
}.

(** [getHostname()], for the client's [hostname] field. *)
Definition getHostname (hostname : option string) (location : Location) : string :=
  let hostname :=
    match hostname with
    | Some h => if String.eqb h "" then loc_hostname location else h
    | None => loc_hostname location
    end in
  if String.eqb hostname "localhost" then loc_hostname location else hostname.

(** [this.port || location.port], as it prints in a template string. *)
Definition port_text (port : option Z) (location : Location) : string :=
  match port with
  | Some p => if (p =? 0)%Z then loc_port location else pretty p
  | None => loc_port location
  end.

(** [getBackendUrl()] *)
Definition getBackendUrl (hostname : option string) (port : option Z) (location : Location)
  : string :=
  protocol location ++ "//" ++ getHostname hostname location ++ ":" ++ port_text port location.

(** The address [createSocket] opens. *)
Definition socketUrl (hostname : option string) (port : option Z) (location : Location)
    (existingSession : string) : string :=
  "ws" ++ (if String.eqb (protocol location) "https:" then "s" else "") ++ "://"
  ++ getHostname hostname location ++ ":" ++ port_text port location
  ++ "/ws" ++ existingSession.

End Transport.

Module Polling.

(** The callback [pollQueue] hands to [setInterval], run once. *)
Definition tick (fetch : string -> ComfyAPI.RequestInit -> ComfyAPI.Promise ComfyAPI.Response)
    (backendUrl : string) (c : ComfyAPI.Client) : ComfyAPI.Client :=
  match
    ComfyAPI.and_then (fetch (backendUrl ++ "/prompt") ComfyAPI.GET) (fun resp =>
    ComfyAPI.and_then (ComfyAPI.res_json resp) (fun status =>
    ComfyAPI.and_then (ComfyAPI.read status "exec_info") (fun exec_info =>
    ComfyAPI.read exec_info "queue_remaining")))
  with
  | ComfyAPI.Resolved q =>
      ComfyAPI.emit
        (ComfyAPI.status (JObj [("execInfo", JObj [("queueRemaining", q)])])) c
  | ComfyAPI.Rejected error =>
      match toString_method error with
      | Normal text => ComfyAPI.emit (ComfyAPI.status (JObj [("error", JStr text)])) c
      | _ => c                          (* the [catch] block throws: nothing is emitted *)
      end
  end.

End Polling.

Module EventLoop.

(** What the browser delivers to the client: an event of socket [h], or
    the firing of pending timer [i]. *)
Inductive BrowserEvent : Type :=
| Open (h : nat)
| Error (h : nat)
| Close (h : nat)
| Message (h : nat) (d : ComfyAPI.MessageData)
| Timeout (i : nat).

(** The listener the event runs. *)
Definition dispatch (c : ComfyAPI.Client) (e : BrowserEvent) : ComfyAPI.Client :=
  match e with
  | Open h => ComfyAPI.on_open h c
  | Error h => ComfyAPI.on_error h c
  | Close h => ComfyAPI.on_close h c
  | Message h d =>
      match ComfyAPI.sockets c !! h with
      | Some _ => ComfyAPI.on_message d c
      | None => c
      end
  | Timeout i => ComfyAPI.on_timeout i c
  end.

Definition run (trace : list BrowserEvent) (c : ComfyAPI.Client) : ComfyAPI.Client :=
  fold_left dispatch trace c.

(** The connection state is in order: the socket reference names a socket
    the client created, every pending timer has the reconnect delay, and
    every socket but the first was created as a reconnect attempt. *)
Definition connected (c : ComfyAPI.Client) : Prop :=
  (∃ h, ComfyAPI.socket c = Some h ∧ h < length (ComfyAPI.sockets c))
  ∧ (∀ i d, ComfyAPI.timers c !! i = Some d → d = ComfyAPI.reconnect_delay)
  ∧ (∀ h cl, ComfyAPI.sockets c !! h = Some cl → h ≠ 0 → ComfyAPI.isReconnect cl = true).

(** [c'] differs from [c] at most in the session id and in one more
    emitted event: sockets, timers and polls are as they were. *)
Definition same_connection (c c' : ComfyAPI.Client) : Prop :=
  ComfyAPI.socket c' = ComfyAPI.socket c
  ∧ ComfyAPI.sockets c' = ComfyAPI.sockets c
  ∧ ComfyAPI.closeRequested c' = ComfyAPI.closeRequested c
  ∧ ComfyAPI.timers c' = ComfyAPI.timers c
  ∧ ComfyAPI.pollers c' = ComfyAPI.pollers c
  ∧ (ComfyAPI.eventBus c' = ComfyAPI.eventBus c
     ∨ ∃ e, ComfyAPI.eventBus c' = (ComfyAPI.eventBus c ++ [e])%list).

(** The message types the listener handles. *)
Definition handled_types : list string :=
  ["status"; "progress"; "executing"; "executed"; "execution_start";
   "execution_cached"; "execution_interrupted"; "execution_error"].

(** No socket is a first attempt that has not opened yet. *)
Definition past_first_open (c : ComfyAPI.Client) : Prop :=
  ∀ h cl, ComfyAPI.sockets c !! h = Some cl →
          ComfyAPI.isReconnect cl || ComfyAPI.opened cl = true.

End EventLoop.

Module MoreSamples.

(** Backend node [K] with an unconnected input [steps] that has a default,
    an input [seed] fed by frontend node [F], and an input [model] fed by
    backend node [L]. *)
Definition sampler_K : LGraphNode :=
  mkNode "K" [] PlainNode ALWAYS None
    [mkInputSlot "steps" None (Some (mkComfySlot (JNum 20) true));
     mkInputSlot "seed" (Some "1") (Some (mkComfySlot JUndefined true));
     mkInputSlot "model" (Some "2") None]
    ["out"] (Some true) "KSampler" (Some None).

Definition sampler_F : LGraphNode := Samples.frontend "F" [] [].
Definition sampler_L : LGraphNode := Samples.backend "L" [] ALWAYS None [].

Definition sampler_store : Store :=
  <[ [] := mkGraph [sampler_F; sampler_L; sampler_K]
             (list_to_map [("1", mkLink "1" "F" 0 "K" 1 (JNum 42));
                           ("2", mkLink "2" "L" 0 "K" 2 JUndefined)]) ]> ∅.

Definition sampler_graph : ComfyGraph :=
  mkComfyGraph sampler_store [sampler_F; sampler_L; sampler_K] JNull.

Definition sampler_prompt : SerializedPrompt :=
  mkPrompt JNull
    (list_to_map
       [("L", mkEntry ∅ "ClassL");
        ("K", mkEntry (list_to_map [("steps", JNum 20); ("seed", JNum 42);
                                    ("model", JArr [JStr "L"; JNum 0])]) "KSampler")]).

(** A status message that carries session id [sid]. *)
Definition status_message (sid : string) (remaining : Z) : JsValue :=
  JObj [("type", JStr "status");
        ("data", JObj [("sid", JStr sid);
                       ("status", JObj [("exec_info",
                                         JObj [("queue_remaining", JNum remaining)])])])].

(** A backend that answers every request with status [st] and body [v]. *)
Definition answers (st : Z) (v : JsValue) (_ : string) (_ : ComfyAPI.RequestInit)
  : ComfyAPI.Promise ComfyAPI.Response :=
  ComfyAPI.Resolved (ComfyAPI.mkResponse st (ComfyAPI.Resolved v)).

Definition stringify_fails (_ : ComfyAPI.ComfyPromptRequest) : string + JsValue :=
  inr (JStr "TypeError: cyclic object value").

(** Backend node [K] with inputs named like members every object
    inherits: [__proto__], unconnected, with a default; [toString], fed by
    backend node [L]; and an ordinary [steps] with a default. *)
Definition odd_K : LGraphNode :=
  mkNode "K" [] PlainNode ALWAYS None
    [mkInputSlot "__proto__" None (Some (mkComfySlot (JNum 7) true));
     mkInputSlot "toString" (Some "2") None;
     mkInputSlot "steps" None (Some (mkComfySlot (JNum 20) true))]
    ["out"] (Some true) "KSampler" (Some None).

Definition odd_store : Store :=
  <[ [] := mkGraph [sampler_L; odd_K]
             (list_to_map [("2", mkLink "2" "L" 0 "K" 1 JUndefined)]) ]> ∅.

(** Backend node [T], tagged [t], reads from backend node [U], which has
    no tag. *)
Definition tagged_T : LGraphNode :=
  Samples.backend "T" [] ALWAYS (Some ["t"]) [Samples.slot "x" (Some "1")].
Definition tagged_U : LGraphNode := Samples.backend "U" [] ALWAYS None [].

Definition tagged_store : Store :=
  <[ [] := mkGraph [tagged_U; tagged_T] (list_to_map [Samples.wire "1" "U" "T" JUndefined]) ]> ∅.

Definition tagged_graph : ComfyGraph := mkComfyGraph tagged_store [tagged_U; tagged_T] JNull.

(** The prompt of [tagged_graph] under the tag [t], and without a filter. *)
Definition tagged_prompt_t : SerializedPrompt :=
  mkPrompt JNull (list_to_map [("T", mkEntry ∅ "ClassT")]).

Definition tagged_prompt_all : SerializedPrompt :=
  mkPrompt JNull
    (list_to_map
       [("U", mkEntry ∅ "ClassU");
        ("T", mkEntry (list_to_map [("x", JArr [JStr "U"; JNum 0])]) "ClassT")]).

End MoreSamples.


Module Network.

(** The network [fetch], with the HTTP status of every response replaced
    by [st]; the bodies and the failures are as they were. *)
Definition with_status (st : Z)
    (fetch : string -> ComfyAPI.RequestInit -> ComfyAPI.Promise ComfyAPI.Response)
    (url : string) (init : ComfyAPI.RequestInit) : ComfyAPI.Promise ComfyAPI.Response :=
  match fetch url init with
  | ComfyAPI.Resolved res => ComfyAPI.Resolved (ComfyAPI.mkResponse st (ComfyAPI.res_json res))
  | ComfyAPI.Rejected e => ComfyAPI.Rejected e
  end.

(** A network on which every request is rejected with [e]. *)
Definition rejects_with (e : JsValue) (_ : string) (_ : ComfyAPI.RequestInit)
  : ComfyAPI.Promise ComfyAPI.Response :=
  ComfyAPI.Rejected e.

(** A page served from [example.org] over https. *)
Definition example_page : Transport.Location :=
  Transport.mkLocation "https:" "example.org" "443".

(** The body the backend sends for an accepted prompt. *)
Definition accepted (prompt_id : string) (number : Z) : JsValue :=
  JObj [("prompt_id", JStr prompt_id); ("number", JNum number); ("node_errors", JObj [])].

End Network.
(* ===================================================================== *)
(** * Properties *)
(* ===================================================================== *)

(** The accessors are kept folded while the proofs simplify around them. *)
Arguments isActiveNode : simpl never.
Arguments isActiveBackendNode : simpl never.
Arguments getNodeById : simpl never.
Arguments getLink : simpl never.
Arguments getInputLink : simpl never.
Arguments getInputNode : simpl never.
Arguments _subgraph_node : simpl never.
Arguments getUpstreamLink : simpl never.

(** ** Facts about the heap of graphs *)


Lemma getNodeById_Some (s : Store) g i n :
  getNodeById s g i = Some n →
  ∃ gr n0, s !! g = Some gr ∧ n0 ∈ _nodes gr ∧ n = with_graph g n0 ∧ id n = i.
Proof.
  unfold getNodeById, graph_nodes. intros H.
  apply find_some in H as [Hin Hid].
  destruct (s !! g) as [gr|] eqn:Hg; [|by destruct Hin].
  apply list_elem_of_In, list_elem_of_fmap in Hin as (n0 & -> & Hn0).
  exists gr, n0. repeat split; try done.
  by apply String.eqb_eq in Hid.
Qed.

Lemma getNodeById_graph (s : Store) g i n :
  getNodeById s g i = Some n → graph n = g.
Proof. intros (gr & n0 & _ & _ & -> & _)%getNodeById_Some. done. Qed.

Lemma elem_of_link_ids (s : Store) g gr x :
  s !! g = Some gr → x ∈ UpstreamNodeLocator.graph_link_ids gr →
  x ∈ UpstreamNodeLocator.link_ids s.
Proof.
  intros Hg Hx. unfold UpstreamNodeLocator.link_ids.
  apply elem_of_union_list. exists (UpstreamNodeLocator.graph_link_ids gr). split; [|done].
  apply list_elem_of_fmap. exists (g, gr). split; [done|].
  by apply elem_of_map_to_list.
Qed.

Lemma getLink_link_ids (s : Store) g l lk :
  getLink s g l = Some lk → link_id lk ∈ UpstreamNodeLocator.link_ids s.
Proof.
  unfold getLink. destruct (s !! g) as [gr|] eqn:Hg; [|done]. intros Hl.
  eapply elem_of_link_ids; [done|].
  unfold UpstreamNodeLocator.graph_link_ids. apply elem_of_union. left.
  apply elem_of_list_to_set, list_elem_of_fmap. exists (l, lk). split; [done|].
  by apply elem_of_map_to_list.
Qed.

Lemma getInputLink_link_ids (s : Store) n i lk :
  getInputLink s n i = Some lk → link_id lk ∈ UpstreamNodeLocator.link_ids s.
Proof.
  unfold getInputLink. destruct (nth_error _ _) as [inp|]; [|done].
  destruct (slot_link inp); [|done]. apply getLink_link_ids.
Qed.

Lemma hook_link_ids_in_store (s : Store) n lk :
  in_store s n → upstreamHook n = Some (Some lk) →
  link_id lk ∈ UpstreamNodeLocator.link_ids s.
Proof.
  intros (g & i & (gr & n0 & Hg & Hn0 & -> & _)%getNodeById_Some) Hh.
  eapply elem_of_link_ids; [done|].
  unfold UpstreamNodeLocator.graph_link_ids. apply elem_of_union. right.
  apply elem_of_union_list. exists (UpstreamNodeLocator.hook_link_ids n0). split.
  - apply list_elem_of_fmap. by exists n0.
  - unfold UpstreamNodeLocator.hook_link_ids. simpl in Hh. rewrite Hh. set_solver.
Qed.

Lemma getUpstreamLink_link_ids (s : Store) p cl up lk :
  in_store s p → getUpstreamLink s p cl = Normal up → up_link up = Some lk →
  link_id lk ∈ UpstreamNodeLocator.link_ids s.
Proof.
  intros Hp Hup Hlk. unfold getUpstreamLink in Hup.
  assert (Hdefault :
    match upstreamHook p with
    | Some link =>
        Normal (mkUpstream (Some (graph p)) link (option_map target_slot link) (Some p))
    | None =>
        if Nat.eqb (length (inputs p)) 1 then
          match getInputLink s p 0 with
          | Some link => Normal (mkUpstream (Some (graph p)) (Some link) (Some 0) (Some p))
          | None => Normal no_upstream
          end
        else Normal no_upstream
    end = Normal up → link_id lk ∈ UpstreamNodeLocator.link_ids s).
  { destruct (upstreamHook p) as [[l|]|] eqn:Hh.
    - intros [= <-]. simpl in Hlk. injection Hlk as ->. by eapply hook_link_ids_in_store.
    - intros [= <-]. done.
    - destruct (Nat.eqb _ _); [|by intros [= <-]].
      destruct (getInputLink s p 0) as [l|] eqn:Hl; [|by intros [= <-]].
      intros [= <-]. simpl in Hlk. injection Hlk as ->. by eapply getInputLink_link_ids. }
  destruct (class p); try by apply Hdefault.
  - (* GraphInput *)
    unfold followGraphInput in Hup. destruct cl as [l|]; [|done].
    destruct (negb _); [done|]. destruct (_subgraph_node _ _) as [o|]; [|done].
    destruct (findIndex_name _ _) as [k|]; [|done].
    injection Hup as <-. simpl in Hlk. by eapply getInputLink_link_ids.
  - (* Subgraph *)
    unfold followSubgraph in Hup. destruct cl as [l|]; [|done].
    destruct (negb _); [done|]. destruct (getInnerGraphOutputByIndex _ _ _) as [o|]; [|done].
    injection Hup as <-. simpl in Hlk. by eapply getInputLink_link_ids.
Qed.

Lemma difference_insert_size (U S : gset LinkID) (x : LinkID) :
  x ∈ U → x ∉ S → size (U ∖ ({[x]} ∪ S)) < size (U ∖ S).
Proof.
  intros Hin Hnew. apply subset_size. split.
  - intros y. rewrite !elem_of_difference, elem_of_union. tauto.
  - intros Hc. specialize (Hc x).
    rewrite !elem_of_difference, elem_of_union, elem_of_singleton in Hc. tauto.
Qed.

Section LocatorTermination.
Import UpstreamNodeLocator.
Variable isTheTargetNode : LGraphNode -> option LLink -> bool.
Variable s : Store.
Variable tag : option string.

Lemma locate_loop_stops_on_null fuel cl sl nd sn :
  locate_loop isTheTargetNode s tag fuel (mkLoop None cl sl nd sn)
  = Normal (mkLoop None cl sl nd sn).
Proof. by destruct fuel. Qed.

Lemma locate_loop_enough_fuel fuel st :
  (∀ p, parent st = Some p → in_store s p) →
  size (link_ids s ∖ seen st) < fuel →
  locate_loop isTheTargetNode s tag fuel st ≠ OutOfFuel.
Proof.
  revert st. induction fuel as [|fuel IH]; intros st Hp Hsz; [lia|].
  simpl. destruct (shouldFollowParent _ _ _ _ _); [|done].
  destruct (parent st) as [p|] eqn:Hpar; [|done].
  destruct (getUpstreamLink s p (currentLink st)) as [up| |] eqn:Hup; simpl; try done.
  - destruct (up_link up) as [nextLink|] eqn:Hnl; [|done].
    destruct (decide _) as [Hseen|Hnew].
    { by rewrite locate_loop_stops_on_null. }
    assert (link_id nextLink ∈ link_ids s) as Hin
      by (eapply getUpstreamLink_link_ids; eauto).
    assert (size (link_ids s ∖ ({[link_id nextLink]} ∪ seen st)) < fuel) as Hlt.
    { pose proof (difference_insert_size (link_ids s) (seen st) (link_id nextLink) Hin Hnew).
      lia. }
    destruct (negb _).
    + by rewrite locate_loop_stops_on_null.
    + apply IH; [|done]. simpl. intros q Hq.
      destruct (up_graph up) as [ng|]; [|done]. by exists ng, (origin_id nextLink).
  - (* getUpstreamLink never runs out of fuel: it has no loop *)
    exfalso. clear -Hup. unfold getUpstreamLink, followSubgraph, followGraphInput in Hup.
    repeat (case_match; try done).
Qed.
Lemma locate_from_enough_fuel fuel fromNode inputIndex :
  size (link_ids s) < fuel →
  locate_from isTheTargetNode s tag fuel fromNode inputIndex ≠ OutOfFuel.
Proof.
  intros Hf. unfold locate_from.
  destruct (getInputNode s fromNode inputIndex) as [p|] eqn:Hp; [|done].
  pose proof (locate_loop_enough_fuel fuel
    (mkLoop (Some p) (getInputLink s fromNode inputIndex) (Some inputIndex)
       (Some fromNode) ∅)) as Hloop.
  destruct (locate_loop _ _ _ _ _) as [st| |]; simpl; try done.
  exfalso. apply Hloop; [| |done].
  - simpl. intros q [= <-]. unfold getInputNode in Hp.
    destruct (getInputLink s fromNode inputIndex) as [l|]; [|done].
    by exists (graph fromNode), (origin_id l).
  - simpl. by rewrite difference_empty_L.
Qed.

Lemma locateUpstream_enough_fuel fromNode inputIndex :
  locateUpstream isTheTargetNode s fromNode inputIndex tag ≠ OutOfFuel.
Proof. apply locate_from_enough_fuel. lia. Qed.
End LocatorTermination.

(** ** Activity of nodes *)

Lemma tag_set_nonempty (t : string) : t ≠ "" → tag_set (Some t) = Some t.
Proof.
  intros Ht. unfold tag_set. destruct (String.eqb t "") eqn:E; [|done].
  by apply String.eqb_eq in E.
Qed.

(** With [checkParents], a node has a tag exactly when it or one of the
    subgraph nodes that contain it carries the tag. *)
Lemma nodeHasTag_from_parents (s : Store) ts g t :
  nodeHasTag_from s ts g t true
  = has_tag ts t || existsb (fun a => has_tag (tags a) t) (parentSubgraphNodes s g).
Proof.
  revert ts. induction g as [|sid p IH]; intros ts;
    cbn [nodeHasTag_from parentSubgraphNodes negb];
    destruct (has_tag ts t); cbn [orb]; try done.
  destruct (_subgraph_node s (sid :: p)) as [sub|]; [|done].
  cbn [existsb]. by rewrite IH.
Qed.

Lemma isActiveNode_mode (s : Store) n tag :
  mode n ≠ ALWAYS → isActiveNode s (Some n) tag = false.
Proof.
  intros Hm. unfold isActiveNode.
  destruct (_ && _); [done|].
  destruct (mode n =? ALWAYS)%Z eqn:E; [|done].
  by apply Z.eqb_eq in E.
Qed.

Lemma isActiveNode_true_mode (s : Store) n tag :
  isActiveNode s (Some n) tag = true → mode n = ALWAYS.
Proof.
  intros H. destruct (decide (mode n = ALWAYS)) as [|Hne]; [done|].
  by rewrite isActiveNode_mode in H.
Qed.

Lemma isActiveNode_exempt (s : Store) n tag :
  isReroute n || isGraphInputOutput n = true →
  isActiveNode s (Some n) tag = (mode n =? ALWAYS)%Z.
Proof.
  intros H. unfold isActiveNode.
  destruct (isReroute n), (isGraphInputOutput n); simpl in *; try done;
    by destruct (mode n =? ALWAYS)%Z.
Qed.

Lemma isActiveNode_tagged (s : Store) n t :
  t ≠ "" → isReroute n = false → isGraphInputOutput n = false →
  isActiveNode s (Some n) (Some t) = nodeHasTag s n t true && (mode n =? ALWAYS)%Z.
Proof.
  intros Ht Hr Hio. unfold isActiveNode. rewrite Hr, Hio, tag_set_nonempty by done. simpl.
  by destruct (nodeHasTag s n t true), (mode n =? ALWAYS)%Z.
Qed.

Lemma isActiveBackendNode_true (s : Store) n tag :
  isActiveBackendNode s n tag = true →
  backend_flag n = true ∧ isActiveNode s (Some n) tag = true
  ∧ ∀ a, a ∈ iterateParentSubgraphNodes s n → isActiveNode s (Some a) tag = true.
Proof.
  unfold isActiveBackendNode.
  destruct (backend_flag n); [|done]. destruct (isActiveNode s (Some n) tag); [|done]. simpl.
  destruct (_is_subgraph (graph n)) eqn:Hsub; simpl.
  - destruct (existsb _ _) eqn:Hex; [done|]. intros _. repeat split; try done.
    intros a Ha. destruct (isActiveNode s (Some a) tag) eqn:E; [done|].
    apply not_true_iff_false in Hex. exfalso. apply Hex.
    apply existsb_exists. exists a. split; [by apply list_elem_of_In|]. by rewrite E.
  - intros _. repeat split; try done. unfold iterateParentSubgraphNodes.
    destruct (graph n); [|done]. simpl. intros a Ha. by apply elem_of_nil in Ha.
Qed.

Lemma iterateParentSubgraphNodes_is_subgraph (s : Store) n a :
  a ∈ iterateParentSubgraphNodes s n → _is_subgraph (graph n) = true.
Proof.
  unfold iterateParentSubgraphNodes. destruct (graph n); [|done].
  simpl. intros Ha. by apply elem_of_nil in Ha.
Qed.

Lemma isActiveBackendNode_inactive_parent (s : Store) n tag a :
  a ∈ iterateParentSubgraphNodes s n → isActiveNode s (Some a) tag = false →
  isActiveBackendNode s n tag = false.
Proof.
  intros Ha Hina. unfold isActiveBackendNode.
  destruct (backend_flag n); [|done]. destruct (isActiveNode s (Some n) tag); [|done]. simpl.
  rewrite (iterateParentSubgraphNodes_is_subgraph s n a Ha). simpl.
  assert (existsb (fun n0 => negb (isActiveNode s (Some n0) tag))
            (iterateParentSubgraphNodes s n) = true) as ->; [|done].
  apply existsb_exists. exists a. split; [by apply list_elem_of_In|]. by rewrite Hina.
Qed.

Lemma isActiveBackendNode_intro (s : Store) n tag :
  backend_flag n = true → isActiveNode s (Some n) tag = true →
  (∀ a, a ∈ iterateParentSubgraphNodes s n → isActiveNode s (Some a) tag = true) →
  isActiveBackendNode s n tag = true.
Proof.
  intros Hb Hact Hpar. unfold isActiveBackendNode. rewrite Hb, Hact. simpl.
  destruct (existsb _ _) eqn:Hex; [|by rewrite andb_false_r].
  apply existsb_exists in Hex as (a & Ha%list_elem_of_In & Hn).
  rewrite Hpar in Hn; done.
Qed.

Lemma parentSubgraphNodes_class (s : Store) g a :
  a ∈ parentSubgraphNodes s g → class a = Subgraph.
Proof.
  induction g as [|sid p IH]; simpl; [by intros ?%elem_of_nil|].
  unfold _subgraph_node.
  destruct (getNodeById s p sid) as [n|]; [|by intros ?%elem_of_nil].
  destruct (is_Subgraph n) eqn:Hc; [|by intros ?%elem_of_nil].
  intros [->|Hin]%elem_of_cons; [|by apply IH].
  unfold is_Subgraph in Hc. by destruct (class n).
Qed.

(** ** What the locator returns *)

Section LocatorResult.
Import UpstreamNodeLocator.
Variable isTheTargetNode : LGraphNode -> option LLink -> bool.
Variable s : Store.
Variable tag : option string.

Lemma locate_result_found st n :
  found (locate_result isTheTargetNode s tag st) = Some n →
  parent st = Some n ∧ isActiveNode s (Some n) tag = true
  ∧ isTheTargetNode n (currentLink st) = true
  ∧ linkLeadingTo (locate_result isTheTargetNode s tag st) = currentLink st
  ∧ is_Some (currentLink st).
Proof.
  unfold locate_result.
  destruct (parent st) as [p|] eqn:Hp.
  - destruct (isActiveNode s (Some p) tag) eqn:Ha; [|done].
    destruct (isTheTargetNode p (currentLink st)) eqn:Ht; [|done].
    destruct (currentLink st) as [l|] eqn:Hl; [|done]. simpl.
    intros [= ->]. by eauto.
  - by destruct (isActiveNode s None tag).
Qed.

Lemma locate_from_found fuel fromNode inputIndex r n :
  locate_from isTheTargetNode s tag fuel fromNode inputIndex = Normal r →
  found r = Some n →
  isActiveNode s (Some n) tag = true ∧ isTheTargetNode n (linkLeadingTo r) = true
  ∧ is_Some (linkLeadingTo r).
Proof.
  unfold locate_from. destruct (getInputNode s fromNode inputIndex) as [p|].
  - destruct (locate_loop _ _ _ _ _) as [st| |]; simpl; try done.
    intros [= <-] Hf. apply locate_result_found in Hf as (_ & Ha & Ht & -> & Hl).
    by eauto.
  - by intros [= <-].
Qed.
End LocatorResult.

(** ** The serializer loops *)

Section SerializerLoops.
Import ComfyPromptSerializer.
Variable s : Store.
Variable tag : option string.

Lemma serialize_node_skip out n :
  isActiveBackendNode s n tag = false →
  serialize_node s tag (Normal out) n = Normal out.
Proof. intros H. unfold serialize_node. simpl. by rewrite H. Qed.

Lemma fold_serialize_node_Throw l m :
  fold_left (serialize_node s tag) l (Throw m) = Throw m.
Proof. induction l as [|n l IH]; [done|]. simpl. apply IH. Qed.

Lemma fold_serialize_node_OutOfFuel l :
  fold_left (serialize_node s tag) l OutOfFuel = OutOfFuel.
Proof. induction l as [|n l IH]; [done|]. simpl. apply IH. Qed.

(** The keys of the mapping built by the first loop are the ids of the
    active backend nodes of the execution order. *)
Lemma fold_serialize_node_keys l acc out k :
  fold_left (serialize_node s tag) l (Normal acc) = Normal out →
  is_Some (out !! k) ↔
  is_Some (acc !! k) ∨ ∃ n, n ∈ l ∧ id n = k ∧ isActiveBackendNode s n tag = true.
Proof.
  revert acc. induction l as [|n l IH]; intros acc; simpl.
  - intros [= ->]. split; [by left|]. intros [H|(n & Hn & _)]; [done|].
    by apply elem_of_nil in Hn.
  - remember (serialize_node s tag (Normal acc) n) as r eqn:Hr.
    unfold serialize_node in Hr. simpl in Hr. subst r.
    destruct (isActiveBackendNode s n tag) eqn:Hact; simpl.
    + destruct (serializeBackendLinks s n tag) as [lk| |]; simpl.
      * intros H. rewrite (IH _ H). rewrite lookup_insert. split.
        -- intros [Hk|(n' & Hn' & Hid & Ha)].
           ++ case_decide as Heq.
              ** right. exists n. split; [by left|]. done.
              ** by left.
           ++ right. exists n'. split; [by right|]. done.
        -- intros [Hk|(n' & [->|Hn']%elem_of_cons & Hid & Ha)].
           ++ left. case_decide; [by eexists|done].
           ++ left. rewrite decide_True by done. by eexists.
           ++ right. by exists n'.
      * by rewrite fold_serialize_node_Throw.
      * by rewrite fold_serialize_node_OutOfFuel.
    + intros H. rewrite (IH _ H). split.
      * intros [Hk|(n' & Hn' & Hid & Ha)]; [by left|].
        right. exists n'. split; [by right|]. done.
      * intros [Hk|(n' & [->|Hn']%elem_of_cons & Hid & Ha)]; [by left|congruence|].
        right. by exists n'.
Qed.

Lemma prune_lookup out k :
  prune out !! k
  = (fun e => mkEntry (prune_inputs out (entry_inputs e)) (class_type e)) <$> out !! k.
Proof. unfold prune. apply lookup_fmap. Qed.

Lemma prune_is_Some out k : is_Some (prune out !! k) ↔ is_Some (out !! k).
Proof. rewrite prune_lookup. apply fmap_is_Some. Qed.

Lemma prune_inputs_lookup out ins name v :
  prune_inputs out ins !! name = Some v ↔
  ins !! name = Some v ∧ refers_to_removed out v = false.
Proof. unfold prune_inputs. by rewrite map_lookup_filter_Some. Qed.

Lemma prune_inputs_removed out ins name v :
  ins !! name = Some v → refers_to_removed out v = true →
  prune_inputs out ins !! name = None.
Proof.
  intros Hin Hr. destruct (prune_inputs out ins !! name) as [w|] eqn:E; [|done].
  apply prune_inputs_lookup in E as [E1 E2]. congruence.
Qed.
(** The serializer never runs out of fuel: it returns a prompt, or it
    throws what a boundary-following helper or the key conversion of the
    pruning test threw. *)
Lemma serializeBackendLinks_step_fuel n acc i :
  acc ≠ OutOfFuel → serializeBackendLinks_step s n tag acc i ≠ OutOfFuel.
Proof.
  intros Hacc. unfold serializeBackendLinks_step.
  destruct acc as [m| |]; simpl; try done.
  pose proof (locateUpstream_enough_fuel test s tag n i) as Hloc.
  destruct (UpstreamNodeLocator.locateUpstream test s n i tag) as [r| |]; simpl; try done.
  destruct (UpstreamNodeLocator.found r); [|done].
  destruct (nth_error (inputs n) i); [|done].
  destruct (UpstreamNodeLocator.linkLeadingTo r); [|done].
  by destruct (has_member _ _).
Qed.

Lemma serializeBackendLinks_fuel n : serializeBackendLinks s n tag ≠ OutOfFuel.
Proof.
  unfold serializeBackendLinks.
  assert (∀ l acc, acc ≠ OutOfFuel →
            fold_left (serializeBackendLinks_step s n tag) l acc ≠ OutOfFuel) as H.
  { intros l. induction l as [|i l IH]; intros acc Hacc; [done|]. simpl.
    apply IH. by apply serializeBackendLinks_step_fuel. }
  by apply H.
Qed.

Lemma serialize_node_fuel acc n :
  acc ≠ OutOfFuel → serialize_node s tag acc n ≠ OutOfFuel.
Proof.
  intros Hacc. unfold serialize_node. destruct acc as [out| |]; simpl; try done.
  destruct (negb _); [done|].
  pose proof (serializeBackendLinks_fuel n) as Hlk.
  by destruct (serializeBackendLinks s n tag).
Qed.

Lemma serialize_fold_fuel l acc :
  acc ≠ OutOfFuel → fold_left (serialize_node s tag) l acc ≠ OutOfFuel.
Proof.
  revert acc. induction l as [|n l IH]; intros acc Hacc; [done|]. simpl.
  apply IH. by apply serialize_node_fuel.
Qed.
End SerializerLoops.

Lemma serialize_terminates (graph : ComfyGraph) (tag : option string) :
  (∃ p, ComfyPromptSerializer.serialize graph tag = Normal p)
  ∨ (∃ m, ComfyPromptSerializer.serialize graph tag = Throw m).
Proof.
  unfold ComfyPromptSerializer.serialize.
  pose proof (serialize_fold_fuel (heap graph) tag (executionOrder graph) (Normal ∅)) as H.
  destruct (fold_left _ _ _) as [out|m|]; simpl.
  - destruct (ComfyPromptSerializer.pruning_throws out); [right|left]; by eexists.
  - right. by eexists.
  - exfalso. by apply H.
Qed.

(** ** Re-tagging reroutes *)


Section Retag.
Variable f : GraphRef -> NodeID -> option (list string).
Variable s : Store.

Lemma retag_node_fields n :
  id (retag_node f n) = id n ∧ graph (retag_node f n) = graph n ∧ class (retag_node f n) = class n ∧ mode (retag_node f n) = mode n
  ∧ inputs (retag_node f n) = inputs n ∧ outputs (retag_node f n) = outputs n
  ∧ isBackendNode (retag_node f n) = isBackendNode n ∧ comfyClass (retag_node f n) = comfyClass n
  ∧ upstreamHook (retag_node f n) = upstreamHook n.
Proof. unfold retag_node. by destruct (_ || _). Qed.

Lemma retag_node_id n : id (retag_node f n) = id n.
Proof. apply retag_node_fields. Qed.
Lemma retag_node_graph n : graph (retag_node f n) = graph n.
Proof. apply retag_node_fields. Qed.
Lemma retag_node_class n : class (retag_node f n) = class n.
Proof. apply retag_node_fields. Qed.
Lemma retag_node_mode n : mode (retag_node f n) = mode n.
Proof. apply retag_node_fields. Qed.
Lemma retag_node_inputs n : inputs (retag_node f n) = inputs n.
Proof. apply retag_node_fields. Qed.
Lemma retag_node_outputs n : outputs (retag_node f n) = outputs n.
Proof. apply retag_node_fields. Qed.
Lemma retag_node_hook n : upstreamHook (retag_node f n) = upstreamHook n.
Proof. apply retag_node_fields. Qed.
Lemma retag_node_comfyClass n : comfyClass (retag_node f n) = comfyClass n.
Proof. apply retag_node_fields. Qed.

Lemma retag_node_backend n : backend_flag (retag_node f n) = backend_flag n.
Proof. unfold backend_flag. by rewrite (proj1 (proj2 (proj2 (proj2 (proj2 (proj2 (proj2 (retag_node_fields n)))))))). Qed.

Lemma retag_node_isReroute n : isReroute (retag_node f n) = isReroute n.
Proof. unfold isReroute. by rewrite retag_node_class. Qed.

Lemma retag_node_isGraphInputOutput n : isGraphInputOutput (retag_node f n) = isGraphInputOutput n.
Proof. unfold isGraphInputOutput. by rewrite retag_node_class. Qed.

Lemma retag_node_not_exempt n :
  isReroute n || isGraphInputOutput n = false → retag_node f n = n.
Proof. intros H. unfold retag_node. by rewrite H. Qed.

Lemma retag_node_Subgraph n : class n = Subgraph → retag_node f n = n.
Proof.
  intros H. apply retag_node_not_exempt. unfold isReroute, isGraphInputOutput. by rewrite H.
Qed.

Lemma retag_with_graph g n : with_graph g (retag_node f (with_graph g n)) = retag_node f (with_graph g n).
Proof. unfold retag_node. by destruct (_ || _). Qed.

Lemma retag_graph_nodes g : graph_nodes (retag_store f s) g = retag_node f <$> graph_nodes s g.
Proof.
  unfold graph_nodes, retag_store. rewrite map_lookup_imap.
  destruct (s !! g) as [gr|]; simpl; [|done].
  rewrite <- !list_fmap_compose. apply list_fmap_ext. intros _ n _. simpl.
  apply retag_with_graph.
Qed.

Lemma find_retag (P : LGraphNode -> bool) l :
  (∀ n, P (retag_node f n) = P n) → List.find P (retag_node f <$> l) = retag_node f <$> List.find P l.
Proof.
  intros HP. induction l as [|n l IH]; [done|]. simpl. rewrite HP.
  by destruct (P n).
Qed.

Lemma retag_getNodeById g i : getNodeById (retag_store f s) g i = retag_node f <$> getNodeById s g i.
Proof.
  unfold getNodeById. rewrite retag_graph_nodes. apply find_retag.
  intros n. by rewrite retag_node_id.
Qed.

Lemma retag_getLink g l : getLink (retag_store f s) g l = getLink s g l.
Proof.
  unfold getLink, retag_store. rewrite map_lookup_imap. by destruct (s !! g).
Qed.

Lemma retag_getInputLink n i : getInputLink (retag_store f s) (retag_node f n) i = getInputLink s n i.
Proof.
  unfold getInputLink. rewrite retag_node_inputs, retag_node_graph.
  destruct (nth_error _ _) as [inp|]; [|done]. destruct (slot_link inp); [|done].
  apply retag_getLink.
Qed.

Lemma retag_getInputNode n i : getInputNode (retag_store f s) (retag_node f n) i = retag_node f <$> getInputNode s n i.
Proof.
  unfold getInputNode. rewrite retag_getInputLink, retag_node_graph.
  destruct (getInputLink s n i); [|done]. apply retag_getNodeById.
Qed.

Lemma retag_subgraph_node g : _subgraph_node (retag_store f s) g = _subgraph_node s g.
Proof.
  unfold _subgraph_node. destruct g as [|sid p]; [done|].
  rewrite retag_getNodeById. destruct (getNodeById s p sid) as [n|]; simpl; [|done].
  unfold is_Subgraph. rewrite retag_node_class.
  destruct (class n) eqn:Hc; try done. by rewrite retag_node_Subgraph.
Qed.

Lemma retag_parentSubgraphNodes g : parentSubgraphNodes (retag_store f s) g = parentSubgraphNodes s g.
Proof.
  induction g as [|sid p IH]; [done|]. cbn [parentSubgraphNodes].
  rewrite retag_subgraph_node. destruct (_subgraph_node s (sid :: p)); [|done].
  by rewrite IH.
Qed.

Lemma retag_nodeHasTag_from ts g t c :
  nodeHasTag_from (retag_store f s) ts g t c = nodeHasTag_from s ts g t c.
Proof.
  revert ts. induction g as [|sid p IH]; intros ts; [done|]. cbn [nodeHasTag_from].
  rewrite retag_subgraph_node. destruct (_subgraph_node s (sid :: p)); [|done].
  by rewrite IH.
Qed.

Lemma retag_isActiveNode n tag :
  isActiveNode (retag_store f s) (Some (retag_node f n)) tag = isActiveNode s (Some n) tag.
Proof.
  destruct (isReroute n || isGraphInputOutput n) eqn:Hex.
  - rewrite !isActiveNode_exempt, ?retag_node_mode; try done.
    by rewrite retag_node_isReroute, retag_node_isGraphInputOutput.
  - rewrite retag_node_not_exempt by done. unfold isActiveNode, nodeHasTag.
    destruct (tag_set tag); [|done]. by rewrite retag_nodeHasTag_from.
Qed.

Lemma retag_isActiveNode_opt o tag :
  isActiveNode (retag_store f s) (retag_node f <$> o) tag = isActiveNode s o tag.
Proof. destruct o; [apply retag_isActiveNode|done]. Qed.

Lemma existsb_ext_in {A} (p q : A -> bool) l :
  (∀ a, a ∈ l → p a = q a) → existsb p l = existsb q l.
Proof.
  induction l as [|a l IH]; [done|]. intros H. simpl.
  rewrite H by (by left). rewrite IH; [done|]. intros b Hb. apply H. by right.
Qed.

Lemma retag_isActiveBackendNode n tag :
  isActiveBackendNode (retag_store f s) (retag_node f n) tag = isActiveBackendNode s n tag.
Proof.
  unfold isActiveBackendNode, iterateParentSubgraphNodes.
  rewrite retag_node_backend, retag_isActiveNode, retag_node_graph, retag_parentSubgraphNodes.
  rewrite (existsb_ext_in _ (fun n0 => negb (isActiveNode s (Some n0) tag))); [done|].
  intros a Ha. rewrite <- (retag_node_Subgraph a) at 1 by (by eapply parentSubgraphNodes_class).
  by rewrite retag_isActiveNode.
Qed.

Lemma retag_getInnerGraphOutputByIndex n k :
  getInnerGraphOutputByIndex (retag_store f s) (retag_node f n) k = retag_node f <$> getInnerGraphOutputByIndex s n k.
Proof.
  unfold getInnerGraphOutputByIndex.
  rewrite retag_node_outputs, retag_node_id, retag_node_graph.
  destruct (nth_error _ _) as [nm|]; [|done].
  rewrite retag_graph_nodes. apply find_retag.
  intros m. unfold is_graph_output_named. by rewrite retag_node_class.
Qed.


Lemma retag_getUpstreamLink p cl :
  getUpstreamLink (retag_store f s) (retag_node f p) cl = retag_upstream f <$> getUpstreamLink s p cl.
Proof.
  unfold getUpstreamLink.
  rewrite retag_node_class, retag_node_hook, retag_node_inputs, retag_node_graph,
    retag_getInputLink.
  assert (Hdefault :
    match upstreamHook p with
    | Some link =>
        Normal (mkUpstream (Some (graph p)) link (option_map target_slot link) (Some (retag_node f p)))
    | None =>
        if Nat.eqb (length (inputs p)) 1 then
          match getInputLink s p 0 with
          | Some link =>
              Normal (mkUpstream (Some (graph p)) (Some link) (Some 0) (Some (retag_node f p)))
          | None => Normal no_upstream
          end
        else Normal no_upstream
    end
    = retag_upstream f <$>
      match upstreamHook p with
      | Some link =>
          Normal (mkUpstream (Some (graph p)) link (option_map target_slot link) (Some p))
      | None =>
          if Nat.eqb (length (inputs p)) 1 then
            match getInputLink s p 0 with
            | Some link =>
                Normal (mkUpstream (Some (graph p)) (Some link) (Some 0) (Some p))
            | None => Normal no_upstream
            end
          else Normal no_upstream
      end).
  { destruct (upstreamHook p); [done|]. destruct (Nat.eqb _ _); [|done].
    by destruct (getInputLink s p 0). }
  destruct (class p) eqn:Hc; try apply Hdefault.
  - unfold followGraphInput. destruct cl as [l|]; [|done].
    rewrite retag_node_id, retag_node_graph, retag_subgraph_node.
    destruct (negb _); [done|].
    destruct (_subgraph_node s (graph p)) as [o|] eqn:Ho; [|done].
    destruct (findIndex_name _ _) as [k|]; [|done]. simpl.
    unfold retag_upstream. simpl.
    assert (class o = Subgraph) as Hcls.
    { unfold _subgraph_node in Ho. destruct (graph p); [done|].
      destruct (getNodeById _ _ _) as [x|]; [|done].
      destruct (is_Subgraph x) eqn:Hx; [|done]. injection Ho as <-.
      unfold is_Subgraph in Hx. by destruct (class x). }
    assert (getInputLink (retag_store f s) o k = getInputLink s o k) as ->.
    { rewrite <- (retag_node_Subgraph o Hcls) at 1. apply retag_getInputLink. }
    by rewrite (retag_node_Subgraph o Hcls).
  - unfold followSubgraph. destruct cl as [l|]; [|done].
    rewrite retag_node_id. destruct (negb _); [done|].
    rewrite retag_getInnerGraphOutputByIndex.
    destruct (getInnerGraphOutputByIndex s p (origin_slot l)) as [o|]; [|done]. simpl.
    unfold retag_upstream. simpl. by rewrite retag_getInputLink, retag_node_graph.
Qed.

Lemma retag_link_ids : UpstreamNodeLocator.link_ids (retag_store f s) = UpstreamNodeLocator.link_ids s.
Proof.
  assert (Hgr : ∀ g gr, UpstreamNodeLocator.graph_link_ids (retag_graph f g gr)
                        = UpstreamNodeLocator.graph_link_ids gr).
  { intros g gr. unfold UpstreamNodeLocator.graph_link_ids, retag_graph. simpl.
    f_equal. f_equal. rewrite <- list_fmap_compose. apply list_fmap_ext.
    intros _ n _. simpl. unfold UpstreamNodeLocator.hook_link_ids.
    by rewrite retag_node_hook. }
  apply set_eq. intros x. unfold UpstreamNodeLocator.link_ids.
  rewrite !elem_of_union_list. split.
  - intros (X & HX & Hx). apply list_elem_of_fmap in HX as ([g gr'] & -> & Hin).
    apply elem_of_map_to_list in Hin. unfold retag_store in Hin.
    rewrite map_lookup_imap in Hin. destruct (s !! g) as [gr|] eqn:Hg; [|done].
    injection Hin as <-. simpl in Hx. rewrite Hgr in Hx.
    exists (UpstreamNodeLocator.graph_link_ids gr). split; [|done].
    apply list_elem_of_fmap. exists (g, gr). split; [done|]. by apply elem_of_map_to_list.
  - intros (X & HX & Hx). apply list_elem_of_fmap in HX as ([g gr] & -> & Hin).
    apply elem_of_map_to_list in Hin. simpl in Hx.
    exists (UpstreamNodeLocator.graph_link_ids (retag_graph f g gr)). split.
    + apply list_elem_of_fmap. exists (g, retag_graph f g gr). split; [done|].
      apply elem_of_map_to_list. unfold retag_store. rewrite map_lookup_imap, Hin. done.
    + by rewrite Hgr.
Qed.

Section RetagLocator.
Import UpstreamNodeLocator.
Variable isTheTargetNode : LGraphNode -> option LLink -> bool.
Variable tag : option string.
Hypothesis target_retag : ∀ n l, isTheTargetNode (retag_node f n) l = isTheTargetNode n l.


Lemma retag_shouldFollowParent o l :
  shouldFollowParent isTheTargetNode (retag_store f s) tag (retag_node f <$> o) l
  = shouldFollowParent isTheTargetNode s tag o l.
Proof.
  unfold shouldFollowParent. rewrite retag_isActiveNode_opt.
  destruct o; simpl; [|done]. by rewrite target_retag.
Qed.

Lemma retag_locate_loop fuel st :
  locate_loop isTheTargetNode (retag_store f s) tag fuel (retag_loop f st)
  = retag_loop f <$> locate_loop isTheTargetNode s tag fuel st.
Proof.
  revert st. induction fuel as [|fuel IH]; intros st.
  - simpl. rewrite retag_shouldFollowParent. by destruct (shouldFollowParent _ _ _ _ _).
  - cbn [locate_loop]. cbn [retag_loop parent currentLink seen].
    rewrite retag_shouldFollowParent.
    destruct (shouldFollowParent _ _ _ _ _); [|done].
    destruct (parent st) as [p|] eqn:Hp; [|done]. cbn [fmap option_fmap option_map].
    rewrite retag_getUpstreamLink.
    destruct (getUpstreamLink s p (currentLink st)) as [up| |]; try done.
    cbn [fmap Completion_fmap mbind Completion_bind cbind].
    cbn [retag_upstream up_link up_slot up_node up_graph].
    destruct (up_link up) as [nextLink|]; [|done].
    destruct (decide _).
    { exact (IH (mkLoop None (currentLink st) (up_slot up) (up_node up) (seen st))). }
    rewrite (retag_isActiveNode p).
    destruct (negb _).
    { exact (IH (mkLoop None (currentLink st) (up_slot up) (up_node up)
                        ({[link_id nextLink]} ∪ seen st))). }
    rewrite <- IH. f_equal. unfold retag_loop. simpl. f_equal.
    destruct (up_graph up) as [ng|]; [|done]. by rewrite retag_getNodeById.
Qed.

Lemma retag_locate_result st :
  locate_result isTheTargetNode (retag_store f s) tag (retag_loop f st)
  = retag_located f (locate_result isTheTargetNode s tag st).
Proof.
  unfold locate_result. cbn [retag_loop parent currentLink currentInputSlot currentNode].
  rewrite retag_isActiveNode_opt.
  destruct (parent st) as [p|]; simpl; [rewrite target_retag|].
  - by destruct (isActiveNode s (Some p) tag), (isTheTargetNode p (currentLink st)),
      (currentLink st).
  - by destruct (isActiveNode s None tag), (currentLink st).
Qed.

Lemma retag_locate_from fuel n i :
  locate_from isTheTargetNode (retag_store f s) tag fuel (retag_node f n) i
  = retag_located f <$> locate_from isTheTargetNode s tag fuel n i.
Proof.
  unfold locate_from. rewrite retag_getInputNode.
  destruct (getInputNode s n i) as [p|]; [|done].
  cbn [fmap option_fmap option_map]. rewrite retag_getInputLink.
  change (mkLoop (Some (retag_node f p)) (getInputLink s n i) (Some i) (Some (retag_node f n)) ∅)
    with (retag_loop f (mkLoop (Some p) (getInputLink s n i) (Some i) (Some n) ∅)).
  rewrite retag_locate_loop.
  destruct (locate_loop isTheTargetNode s tag fuel _) as [st| |]; try done.
  cbn [fmap Completion_fmap mbind Completion_bind cbind].
  by rewrite retag_locate_result.
Qed.

Lemma retag_locateUpstream n i :
  locateUpstream isTheTargetNode (retag_store f s) (retag_node f n) i tag
  = retag_located f <$> locateUpstream isTheTargetNode s n i tag.
Proof. unfold locateUpstream. rewrite retag_link_ids. apply retag_locate_from. Qed.
End RetagLocator.

Section RetagSerializer.
Import ComfyPromptSerializer.
Variable tag : option string.

Lemma retag_serializeInputValues_step n acc i :
  serializeInputValues_step (retag_store f s) (retag_node f n) acc i = serializeInputValues_step s n acc i.
Proof.
  unfold serializeInputValues_step.
  rewrite retag_node_inputs, retag_getInputLink, retag_getInputNode, retag_node_backend.
  destruct (nth_error _ _) as [inp|]; [|done].
  destruct (getInputNode s n i) as [m|]; simpl; [|done].
  by rewrite retag_node_mode, retag_node_backend.
Qed.

Lemma retag_serializeInputValues n :
  serializeInputValues (retag_store f s) (retag_node f n) = serializeInputValues s n.
Proof.
  unfold serializeInputValues, serializeInputValues_object. rewrite retag_node_inputs.
  generalize (seq 0 (length (inputs n))) empty_object.
  intros l. induction l as [|i l IH]; intros acc; [done|]. simpl.
  by rewrite retag_serializeInputValues_step.
Qed.

Lemma retag_serializeBackendLinks_step n acc i :
  serializeBackendLinks_step (retag_store f s) (retag_node f n) tag acc i = serializeBackendLinks_step s n tag acc i.
Proof.
  unfold serializeBackendLinks_step. destruct acc as [m| |]; try done. simpl.
  rewrite retag_locateUpstream by (intros; unfold test; apply retag_node_backend).
  destruct (UpstreamNodeLocator.locateUpstream test s n i tag) as [r| |]; try done.
  simpl. rewrite retag_node_inputs. by destruct (UpstreamNodeLocator.found r).
Qed.

Lemma retag_serializeBackendLinks n :
  serializeBackendLinks (retag_store f s) (retag_node f n) tag = serializeBackendLinks s n tag.
Proof.
  unfold serializeBackendLinks. rewrite retag_node_inputs.
  generalize (seq 0 (length (inputs n))) (Normal (∅ : gmap string JsValue)).
  intros l. induction l as [|i l IH]; intros acc; [done|]. simpl.
  by rewrite retag_serializeBackendLinks_step.
Qed.

Lemma retag_serialize_node acc n :
  serialize_node (retag_store f s) tag acc (retag_node f n) = serialize_node s tag acc n.
Proof.
  unfold serialize_node.
  by rewrite retag_isActiveBackendNode, retag_serializeInputValues,
    retag_serializeBackendLinks, retag_node_id, retag_node_comfyClass.
Qed.

Lemma retag_serialize_fold l acc :
  fold_left (serialize_node (retag_store f s) tag) (retag_node f <$> l) acc = fold_left (serialize_node s tag) l acc.
Proof.
  revert acc. induction l as [|n l IH]; intros acc; [done|]. simpl.
  by rewrite retag_serialize_node.
Qed.
End RetagSerializer.
End Retag.

(* ===================================================================== *)
(** * The graph compiler *)
(* ===================================================================== *)

Section SerializerEntries.
Import ComfyPromptSerializer.
Variable s : Store.
Variable tag : option string.

(** Every entry of the mapping built by the first loop was written for
    an active backend node of the execution order. *)
Lemma fold_serialize_node_value l acc out k e :
  fold_left (serialize_node s tag) l (Normal acc) = Normal out →
  out !! k = Some e →
  acc !! k = Some e
  ∨ ∃ n lk, n ∈ l ∧ id n = k ∧ isActiveBackendNode s n tag = true
            ∧ serializeBackendLinks s n tag = Normal lk
            ∧ e = mkEntry (lk ∪ serializeInputValues s n) (comfyClass n).
Proof.
  revert acc. induction l as [|n l IH]; intros acc; simpl.
  - intros [= ->]. by left.
  - remember (serialize_node s tag (Normal acc) n) as r eqn:Hr.
    unfold serialize_node in Hr. simpl in Hr. subst r.
    destruct (isActiveBackendNode s n tag) eqn:Hact; simpl.
    + destruct (serializeBackendLinks s n tag) as [lk| |] eqn:Hlk; simpl.
      * intros H Hk. destruct (IH _ H Hk) as [Hacc|(m & lk' & Hm & ?)].
        -- rewrite lookup_insert in Hacc. case_decide as Heq.
           ++ right. exists n, lk. injection Hacc as <-. repeat split; try done. by left.
           ++ by left.
        -- right. exists m, lk'. split; [by right|done].
      * by rewrite fold_serialize_node_Throw.
      * by rewrite fold_serialize_node_OutOfFuel.
    + intros H Hk. destruct (IH _ H Hk) as [Hacc|(m & lk' & Hm & ?)]; [by left|].
      right. exists m, lk'. split; [by right|done].
Qed.

Lemma serialize_output graph p :
  heap graph = s →
  serialize graph tag = Normal p →
  ∃ out, fold_left (serialize_node s tag) (executionOrder graph) (Normal ∅) = Normal out
         ∧ output p = prune out.
Proof.
  intros <-. unfold serialize.
  destruct (fold_left _ _ _) as [out| |]; simpl; try done.
  destruct (pruning_throws out); [done|].
  intros [= <-]. by exists out.
Qed.

(** What the pruning test says of a two-element array that stays. *)
Lemma refers_to_removed_pair (out : gmap string PromptEntry) a b :
  refers_to_removed out (JArr [a; b]) = false ↔
  is_Some (out !! toPropertyKey a) ∨ inherited (toPropertyKey a) = true.
Proof.
  unfold refers_to_removed, has_member. rewrite negb_false_iff.
  destruct (out !! toPropertyKey a) as [e|]; split; try done.
  - intros _. left. by eexists.
  - intros Hi. by right.
  - by intros [[? [=]]|Hi].
Qed.

(** The keys of the prompt are the ids of the active backend nodes of the
    execution order. *)
Lemma serialize_keys graph p k :
  heap graph = s →
  serialize graph tag = Normal p →
  is_Some (output p !! k) ↔
  ∃ n, n ∈ executionOrder graph ∧ id n = k ∧ isActiveBackendNode s n tag = true.
Proof.
  intros Hs (out & Hfold & ->)%serialize_output; [|done].
  rewrite prune_is_Some, (fold_serialize_node_keys s tag _ _ _ k Hfold).
  rewrite lookup_empty. split; [|by right].
  intros [[? [=]]|H]; done.
Qed.
End SerializerEntries.


(** C9 (code bug).  The pruning pass tests the shape of a value only, so a
    literal pair is pruned like a link reference: [size = [512, 768]] is
    lost.  But the test [!output[v[0]]] also finds the members a plain
    object inherits, so not every pair whose first element is no key is
    deleted: [size = ["constructor", 768]] stays.  A two-element array is
    deleted exactly when its first element, used as a property key, is
    neither a key of the mapping nor the name of a member of
    [Object.prototype]. *)
Theorem prune_keeps_inherited_name_pairs :
  (∀ (out : gmap string PromptEntry) nodeId e name a b,
     out !! nodeId = Some e →
     entry_inputs e !! name = Some (JArr [a; b]) →
     ∃ e', ComfyPromptSerializer.prune out !! nodeId = Some e'
           ∧ (entry_inputs e' !! name = None ↔
              out !! toPropertyKey a = None ∧ inherited (toPropertyKey a) = false)
           ∧ (entry_inputs e' !! name = Some (JArr [a; b]) ↔
              is_Some (out !! toPropertyKey a) ∨ inherited (toPropertyKey a) = true))
  ∧ (∀ graph tag p n name a b lk,
       ComfyPromptSerializer.serialize graph tag = Normal p →
       n ∈ executionOrder graph →
       (∀ m, m ∈ executionOrder graph → id m = id n → m = n) →
       isActiveBackendNode (heap graph) n tag = true →
       ComfyPromptSerializer.serializeInputValues (heap graph) n !! name = Some (JArr [a; b]) →
       ComfyPromptSerializer.serializeBackendLinks (heap graph) n tag = Normal lk →
       lk !! name = None →
       (∀ m, m ∈ executionOrder graph → isActiveBackendNode (heap graph) m tag = true →
             id m ≠ toPropertyKey a) →
       ∃ e, output p !! id n = Some e
            ∧ entry_inputs e !! name
              = if inherited (toPropertyKey a) then Some (JArr [a; b]) else None)
  ∧ (ComfyPromptSerializer.serializeInputValues Samples.size_store Samples.size_B !! "size"
     = Some (JArr [JNum 512; JNum 768])
     ∧ ∃ p e, ComfyPromptSerializer.serialize Samples.size_graph None = Normal p
              ∧ output p !! "B" = Some e ∧ entry_inputs e !! "size" = None)
  ∧ (ComfyPromptSerializer.serializeInputValues
       (Samples.pair_store Samples.constructor_pair) Samples.size_B !! "size"
     = Some (JArr [JStr "constructor"; JNum 768])
     ∧ ∃ p e, ComfyPromptSerializer.serialize (Samples.pair_graph Samples.constructor_pair) None
              = Normal p
              ∧ output p !! "constructor" = None
              ∧ output p !! "B" = Some e
              ∧ entry_inputs e !! "size" = Some (JArr [JStr "constructor"; JNum 768])).
Proof.
  assert (Hprune : ∀ (out : gmap string PromptEntry) nodeId e name a b,
     out !! nodeId = Some e →
     entry_inputs e !! name = Some (JArr [a; b]) →
     ∃ e', ComfyPromptSerializer.prune out !! nodeId = Some e'
           ∧ (entry_inputs e' !! name = None ↔
              out !! toPropertyKey a = None ∧ inherited (toPropertyKey a) = false)
           ∧ (entry_inputs e' !! name = Some (JArr [a; b]) ↔
              is_Some (out !! toPropertyKey a) ∨ inherited (toPropertyKey a) = true)).
  { intros out nodeId e name a b He Hin.
    eexists. rewrite prune_lookup, He. split; [done|]. simpl.
    assert (prune_inputs_kept :
              ComfyPromptSerializer.prune_inputs out (entry_inputs e) !! name
                = Some (JArr [a; b]) ↔
              is_Some (out !! toPropertyKey a) ∨ inherited (toPropertyKey a) = true).
    { rewrite prune_inputs_lookup, refers_to_removed_pair.
      split; [by intros [_ Hk]|by intros Hk]. }
    split; [|exact prune_inputs_kept].
    destruct (ComfyPromptSerializer.prune_inputs out (entry_inputs e) !! name) as [w|] eqn:E.
    - apply prune_inputs_lookup in E as [E1 E2].
      assert (w = JArr [a; b]) as -> by congruence.
      apply refers_to_removed_pair in E2. split; [done|]. intros [Hn Hi].
      destruct E2 as [[? Hs]|Hs]; congruence.
    - split; [|done]. intros _.
      assert (¬ (is_Some (out !! toPropertyKey a) ∨ inherited (toPropertyKey a) = true))
        as Hno by (rewrite <- prune_inputs_kept; discriminate).
      destruct (out !! toPropertyKey a) as [x|] eqn:Hx.
      + exfalso. apply Hno. left. by eexists.
      + split; [done|]. destruct (inherited (toPropertyKey a)) eqn:Hi; [|done].
        exfalso. apply Hno. by right. }
  split; [exact Hprune|]. split; [|split].
  - intros graph tag p n name a b lk Hser Hn Huniq Hact Hlit Hlk Hnone Hkey.
    pose proof (serialize_output (heap graph) tag graph p eq_refl Hser) as (out & Hfold & Hp).
    assert (is_Some (out !! id n)) as [e0 He0].
    { apply (fold_serialize_node_keys _ _ _ _ _ _ Hfold). right. by exists n. }
    destruct (fold_serialize_node_value _ _ _ _ _ _ _ Hfold He0)
      as [Hemp|(m & lk' & Hm & Hid & _ & Hlk' & ->)]; [by rewrite lookup_empty in Hemp|].
    apply Huniq in Hid as ->; [|done].
    rewrite Hlk in Hlk'. injection Hlk' as <-.
    assert (out !! toPropertyKey a = None) as Hout.
    { destruct (out !! toPropertyKey a) as [x|] eqn:Hx; [|done]. exfalso.
      assert (is_Some (out !! toPropertyKey a)) as Hs by (by eexists).
      apply (fold_serialize_node_keys _ _ _ _ _ _ Hfold) in Hs
        as [[? Hemp]|(m & Hm' & Hidm & Hactm)]; [by rewrite lookup_empty in Hemp|].
      by eapply Hkey. }
    rewrite Hp.
    destruct (Hprune out (id n) _ name a b He0) as (e' & He' & Hnone' & Hkept).
    { simpl. rewrite lookup_union_r by done. done. }
    exists e'. split; [done|].
    destruct (inherited (toPropertyKey a)) eqn:Hi.
    + apply Hkept. by right.
    + by apply Hnone'.
  - split; [vm_compute; reflexivity|].
    exists (mkPrompt JNull (list_to_map [("B", mkEntry ∅ "ClassB")])), (mkEntry ∅ "ClassB").
    repeat split; vm_compute; reflexivity.
  - split; [vm_compute; reflexivity|].
    exists (mkPrompt JNull
              (list_to_map [("B", mkEntry (list_to_map [("size", Samples.constructor_pair)])
                                    "ClassB")])),
      (mkEntry (list_to_map [("size", Samples.constructor_pair)]) "ClassB").
    repeat split; vm_compute; reflexivity.
Qed.

(** C10.  A node whose mode is not [ALWAYS] - bypassed as well as muted -
    is inactive: it is not an active backend node, the serializer's loop
    passes it by, its id is no key of the prompt unless another node of the
    execution order has the same id, the locator never returns it as the
    node found, and the literal pass of a consumer connected to it leaves
    that input alone. *)
Theorem non_always_node_is_inactive (s : Store) (n : LGraphNode) (tag : option string) :
  mode n ≠ ALWAYS →
  isActiveNode s (Some n) tag = false
  ∧ isActiveBackendNode s n tag = false
  ∧ (∀ out, ComfyPromptSerializer.serialize_node s tag (Normal out) n = Normal out)
  ∧ (∀ graph p,
       heap graph = s →
       ComfyPromptSerializer.serialize graph tag = Normal p →
       (∀ m, m ∈ executionOrder graph → id m = id n → mode m ≠ ALWAYS) →
       output p !! id n = None)
  ∧ (∀ isTheTargetNode fromNode inputIndex r,
       UpstreamNodeLocator.locateUpstream isTheTargetNode s fromNode inputIndex tag = Normal r →
       UpstreamNodeLocator.found r ≠ Some n)
  ∧ (∀ consumer i acc,
       getInputNode s consumer i = Some n →
       ComfyPromptSerializer.serializeInputValues_step s consumer acc i = acc).
Proof.
  intros Hmode.
  assert (isActiveNode s (Some n) tag = false) as Hina by (by apply isActiveNode_mode).
  assert (isActiveBackendNode s n tag = false) as Hinb.
  { destruct (isActiveBackendNode s n tag) eqn:E; [|done].
    apply isActiveBackendNode_true in E as (_ & E & _). congruence. }
  repeat split; try done.
  - intros out. by apply serialize_node_skip.
  - intros graph p Hs Hser Hall.
    destruct (output p !! id n) as [e|] eqn:E; [|done]. exfalso.
    assert (is_Some (output p !! id n)) as Hsome by (by eexists).
    apply (serialize_keys s tag graph p (id n) Hs Hser) in Hsome as (m & Hm & Hid & Hact).
    apply isActiveBackendNode_true in Hact as (_ & Hact & _).
    apply isActiveNode_true_mode in Hact. by apply (Hall m).
  - intros isT fromNode i r Hloc Hfound.
    apply (locate_from_found isT s tag _ _ _ _ n Hloc) in Hfound as (Hact & _). congruence.
  - intros consumer i acc Hin. unfold ComfyPromptSerializer.serializeInputValues_step.
    destruct (nth_error (inputs consumer) i); [|done]. rewrite Hin.
    destruct (mode n =? ALWAYS)%Z eqn:E; [|done]. by apply Z.eqb_eq in E.
Qed.

Lemma non_always_node_is_inactive_witness :
  isActiveNode Samples.bypassed_store (Some Samples.bypassed_A) None = false
  ∧ output (mkPrompt JNull (list_to_map [("B", mkEntry ∅ "ClassB")])) !! "A" = None.
Proof.
  assert (mode Samples.bypassed_A ≠ ALWAYS) as Hm by (vm_compute; discriminate).
  pose proof (non_always_node_is_inactive Samples.bypassed_store Samples.bypassed_A None Hm)
    as (H1 & _ & _ & H4 & _).
  split; [exact H1|].
  apply (H4 Samples.bypassed_graph (mkPrompt JNull (list_to_map [("B", mkEntry ∅ "ClassB")])));
    [reflexivity|vm_compute; reflexivity|].
  intros m Hm' Hid. unfold Samples.bypassed_graph, executionOrder in Hm'.
  apply elem_of_cons in Hm' as [->|Hm']; [exact Hm|].
  apply elem_of_cons in Hm' as [->|Hm']; [discriminate Hid|].
  by apply elem_of_nil in Hm'.
Defined.

(** C5 (as stated, refuted).  Backend node [B] carries no tag and lies in
    subgraph [inner], which carries tag [t]; [inner] lies in subgraph
    [outer], which carries no tag.  Every node is in [ALWAYS] mode.  An
    ancestor of [B] carries the tag, and yet [B] is not an active backend
    node under the filter [t] and is missing from the prompt. *)
Lemma tagged_inner_subgraph_in_untagged_outer :
  let s := Samples.nested_store None (Some ["t"]) None in
  let n := Samples.nested_B None in
  backend_flag n = true
  ∧ mode n = ALWAYS
  ∧ has_tag (tags n) "t" = false
  ∧ (∃ a, a ∈ iterateParentSubgraphNodes s n ∧ has_tag (tags a) "t" = true)
  ∧ (∀ a, a ∈ iterateParentSubgraphNodes s n → mode a = ALWAYS)
  ∧ isActiveBackendNode s n (Some "t") = false
  ∧ ∃ p, ComfyPromptSerializer.serialize (Samples.nested_graph None (Some ["t"]) None) (Some "t")
         = Normal p
         ∧ output p !! "B" = None.
Proof.
  intros s n. repeat split; try (vm_compute; reflexivity).
  - exists (Samples.subgraph "inner" ["outer"] (Some ["t"])). split; [|reflexivity].
    by left.
  - intros a Ha. vm_compute in Ha.
    apply elem_of_cons in Ha as [->|Ha]; [reflexivity|].
    apply elem_of_cons in Ha as [->|Ha]; [reflexivity|].
    by apply elem_of_nil in Ha.
  - exists (mkPrompt JNull ∅). split; vm_compute; reflexivity.
Qed.

(** C5 (amended).  Under a tag filter [t], a backend node in [ALWAYS] mode
    that lacks the tag is an active backend node, and so a key of the
    prompt, when some ancestor subgraph node carries the tag and no
    ancestor subgraph node is inactive; and a backend node is excluded
    whenever some ancestor subgraph node is inactive, whatever its own tags
    and mode.  An ancestor subgraph node is active exactly when it is in
    [ALWAYS] mode and it, or one of its own ancestors, carries the tag. *)
Theorem tag_inheritance_through_subgraphs (s : Store) (n : LGraphNode) (t : string) :
  t ≠ "" →
  backend_flag n = true →
  (mode n = ALWAYS →
   (∃ a, a ∈ iterateParentSubgraphNodes s n ∧ has_tag (tags a) t = true) →
   (∀ a, a ∈ iterateParentSubgraphNodes s n → isActiveNode s (Some a) (Some t) = true) →
   isActiveBackendNode s n (Some t) = true)
  ∧ (∀ a, a ∈ iterateParentSubgraphNodes s n →
          isActiveNode s (Some a) (Some t) = false →
          isActiveBackendNode s n (Some t) = false)
  ∧ (∀ a, a ∈ iterateParentSubgraphNodes s n →
          isActiveNode s (Some a) (Some t) = nodeHasTag s a t true && (mode a =? ALWAYS)%Z)
  ∧ (∀ graph p,
       heap graph = s →
       ComfyPromptSerializer.serialize graph (Some t) = Normal p →
       n ∈ executionOrder graph →
       isActiveBackendNode s n (Some t) = true →
       is_Some (output p !! id n))
  ∧ (∀ graph p,
       heap graph = s →
       ComfyPromptSerializer.serialize graph (Some t) = Normal p →
       (∀ m, m ∈ executionOrder graph → id m = id n →
             isActiveBackendNode s m (Some t) = false) →
       output p !! id n = None).
Proof.
  intros Ht Hb. repeat split.
  - intros Hmode (a & Ha & Htag) Hpar.
    apply isActiveBackendNode_intro; try done.
    unfold isActiveNode. rewrite tag_set_nonempty by done.
    assert (nodeHasTag s n t true = true) as ->.
    { unfold nodeHasTag. rewrite nodeHasTag_from_parents.
      apply orb_true_iff. right. apply existsb_exists. exists a.
      split; [by apply list_elem_of_In|done]. }
    rewrite andb_false_r. by rewrite Hmode.
  - intros a Ha Hina. by eapply isActiveBackendNode_inactive_parent.
  - intros a Ha. pose proof (parentSubgraphNodes_class _ _ _ Ha) as Hc.
    apply isActiveNode_tagged; [done| |]; unfold isReroute, isGraphInputOutput; by rewrite Hc.
  - intros graph p Hs Hser Hin Hact.
    apply (serialize_keys s (Some t) graph p (id n) Hs Hser). by exists n.
  - intros graph p Hs Hser Hall.
    destruct (output p !! id n) as [e|] eqn:E; [|done]. exfalso.
    assert (is_Some (output p !! id n)) as Hsome by (by eexists).
    apply (serialize_keys s (Some t) graph p (id n) Hs Hser) in Hsome as (m & Hm & Hid & Hact).
    rewrite (Hall m Hm Hid) in Hact. done.
Qed.

Lemma tag_inheritance_through_subgraphs_witness :
  isActiveBackendNode (Samples.nested_store (Some ["t"]) None None) (Samples.nested_B None)
    (Some "t") = true
  ∧ isActiveBackendNode (Samples.nested_store None None (Some ["t"]))
      (Samples.nested_B (Some ["t"])) (Some "t") = false.
Proof.
  split.
  - refine (proj1 (tag_inheritance_through_subgraphs
              (Samples.nested_store (Some ["t"]) None None) (Samples.nested_B None) "t" _ _)
              _ _ _).
    + discriminate.
    + reflexivity.
    + reflexivity.
    + exists (Samples.subgraph "outer" [] (Some ["t"])). split; [|reflexivity].
      vm_compute. right. left.
    + intros a Ha. vm_compute in Ha.
      apply elem_of_cons in Ha as [->|Ha]; [vm_compute; reflexivity|].
      apply elem_of_cons in Ha as [->|Ha]; [vm_compute; reflexivity|].
      by apply elem_of_nil in Ha.
  - refine (proj1 (proj2 (tag_inheritance_through_subgraphs
              (Samples.nested_store None None (Some ["t"])) (Samples.nested_B (Some ["t"]))
              "t" _ _))
              (Samples.subgraph "inner" ["outer"] None) _ _).
    + discriminate.
    + reflexivity.
    + vm_compute. left.
    + vm_compute. reflexivity.
Defined.

(** Whatever tags are put on the reroutes and boundary nodes of a graph,
    the first loop of [serialize] builds the same mapping. *)
Lemma serialize_retag_output (f : GraphRef -> NodeID -> option (list string))
    (snap : JsValue) (graph : ComfyGraph) (tag : option string) :
  output <$> ComfyPromptSerializer.serialize (retag_comfy f snap graph) tag
  = output <$> ComfyPromptSerializer.serialize graph tag.
Proof.
  unfold ComfyPromptSerializer.serialize, retag_comfy. simpl.
  rewrite retag_serialize_fold.
  destruct (fold_left _ _ _) as [out| |]; [|done|done]. simpl.
  by destruct (ComfyPromptSerializer.pruning_throws out).
Qed.

(** The chain [A -> R1 -> R2 -> B], with any tags on the two reroutes, is
    the untagged chain re-tagged, and serializes to the same prompt. *)
Lemma chain_graph_retag (ab r1 r2 : option (list string)) :
  retag_comfy (Samples.chain_tags r1 r2) JNull (Samples.chain_graph ab None None)
  = Samples.chain_graph ab r1 r2.
Proof. vm_compute. reflexivity. Qed.

Lemma reroute_chain_link_entry (r1 r2 : option (list string)) :
  output <$> ComfyPromptSerializer.serialize (Samples.chain_graph (Some ["t"]) r1 r2) (Some "t")
  = Normal (output Samples.chain_prompt).
Proof.
  rewrite <- chain_graph_retag, serialize_retag_output.
  vm_compute. reflexivity.
Qed.

(** C6.  The tag filter never decides the activity of a reroute or of a
    graph input or output node: such a node is active exactly when its
    mode is [ALWAYS].  Consequently, whatever tags are put on the reroutes
    and boundary nodes of a graph, [serialize] produces the same [output]:
    the same keys and the same inputs, link references included. *)
Theorem reroute_tags_do_not_matter (f : GraphRef -> NodeID -> option (list string))
    (snap : JsValue) (graph : ComfyGraph) (tag : option string) :
  (∀ s n, isReroute n || isGraphInputOutput n = true →
          isActiveNode s (Some n) tag = (mode n =? ALWAYS)%Z)
  ∧ output <$> ComfyPromptSerializer.serialize (retag_comfy f snap graph) tag
    = output <$> ComfyPromptSerializer.serialize graph tag.
Proof.
  split.
  - intros s n. apply isActiveNode_exempt.
  - apply serialize_retag_output.
Qed.

Lemma reroute_tags_do_not_matter_witness :
  isActiveNode (Samples.chain_store (Some ["t"]) (Some ["u"]) None)
    (Some (Samples.chain_R1 (Some ["u"]))) (Some "t") = true
  ∧ output <$> ComfyPromptSerializer.serialize
                 (retag_comfy (Samples.chain_tags (Some ["u"]) (Some ["v"])) JNull
                    (Samples.chain_graph (Some ["t"]) None None)) (Some "t")
    = Normal (output Samples.chain_prompt).
Proof.
  pose proof (reroute_tags_do_not_matter (Samples.chain_tags (Some ["u"]) (Some ["v"])) JNull
                (Samples.chain_graph (Some ["t"]) None None) (Some "t")) as [H1 H2].
  split.
  - rewrite H1; reflexivity.
  - rewrite H2. vm_compute. reflexivity.
Defined.

(** C4.  [locateUpstream] always terminates: the loop needs at most one
    more iteration than there are link ids in the heap, on any heap, cyclic
    or not, and it ends normally or by the throw of a boundary-following
    helper.  In an iteration that obtains an upstream link, a link id that
    is already in the seen-set ends the traversal with no node found, and a
    new link id is recorded in the seen-set before the traversal goes
    on. *)
Theorem locateUpstream_terminates (isTheTargetNode : LGraphNode -> option LLink -> bool)
    (s : Store) (fromNode : LGraphNode) (inputIndex : nat) (tag : option string) :
  (∀ fuel, size (UpstreamNodeLocator.link_ids s) < fuel →
           UpstreamNodeLocator.locate_from isTheTargetNode s tag fuel fromNode inputIndex
           ≠ OutOfFuel)
  ∧ ((∃ r, UpstreamNodeLocator.locateUpstream isTheTargetNode s fromNode inputIndex tag
           = Normal r)
     ∨ (∃ m, UpstreamNodeLocator.locateUpstream isTheTargetNode s fromNode inputIndex tag
             = Throw m))
  ∧ (∀ fuel st p up nextLink,
       UpstreamNodeLocator.parent st = Some p →
       UpstreamNodeLocator.shouldFollowParent isTheTargetNode s tag
         (UpstreamNodeLocator.parent st) (UpstreamNodeLocator.currentLink st) = true →
       getUpstreamLink s p (UpstreamNodeLocator.currentLink st) = Normal up →
       up_link up = Some nextLink →
       (link_id nextLink ∈ UpstreamNodeLocator.seen st →
        ∃ st', UpstreamNodeLocator.locate_loop isTheTargetNode s tag (S fuel) st = Normal st'
               ∧ UpstreamNodeLocator.parent st' = None
               ∧ UpstreamNodeLocator.found
                   (UpstreamNodeLocator.locate_result isTheTargetNode s tag st') = None)
       ∧ (link_id nextLink ∉ UpstreamNodeLocator.seen st →
          UpstreamNodeLocator.locate_loop isTheTargetNode s tag (S fuel) st
          = UpstreamNodeLocator.locate_loop isTheTargetNode s tag fuel
              (UpstreamNodeLocator.mkLoop
                 match up_graph up with
                 | Some nextGraph => getNodeById s nextGraph (origin_id nextLink)
                 | None => None
                 end
                 (Some nextLink) (up_slot up) (up_node up)
                 ({[link_id nextLink]} ∪ UpstreamNodeLocator.seen st)))).
Proof.
  assert (Hfuel : ∀ fuel, size (UpstreamNodeLocator.link_ids s) < fuel →
           UpstreamNodeLocator.locate_from isTheTargetNode s tag fuel fromNode inputIndex
           ≠ OutOfFuel).
  { intros fuel Hf. by apply locate_from_enough_fuel. }
  split; [exact Hfuel|]. split.
  - specialize (Hfuel (S (size (UpstreamNodeLocator.link_ids s))) ltac:(lia)).
    unfold UpstreamNodeLocator.locateUpstream.
    destruct (UpstreamNodeLocator.locate_from _ _ _ _ _ _) as [r|m|]; [left|right|done];
      by eexists.
  - intros fuel st p up nextLink Hp Hfollow Hup Hnl. split.
    + intros Hseen. eexists. cbn [UpstreamNodeLocator.locate_loop].
      rewrite Hfollow, Hp, Hup. simpl. rewrite Hnl.
      rewrite decide_True by done. rewrite locate_loop_stops_on_null.
      split; [done|]. split; [done|].
      unfold UpstreamNodeLocator.locate_result. simpl.
      by destruct (isActiveNode s None tag).
    + intros Hnew. cbn [UpstreamNodeLocator.locate_loop].
      rewrite Hfollow. rewrite Hp in *. rewrite Hup. simpl. rewrite Hnl.
      rewrite decide_False by done.
      unfold UpstreamNodeLocator.shouldFollowParent in Hfollow.
      apply andb_true_iff in Hfollow as [-> _]. done.
Qed.

(** A cycle among frontend-only nodes: the traversal from [B] goes round
    [F1 -> F2 -> F1] once and ends with no node found. *)
Lemma locateUpstream_cycle :
  ∃ r, UpstreamNodeLocator.locateUpstream ComfyPromptSerializer.test Samples.cycle_store
         Samples.cycle_B 0 None = Normal r
       ∧ UpstreamNodeLocator.found r = None.
Proof. eexists. split; vm_compute; reflexivity. Qed.

(* ===================================================================== *)
(** * The event client *)
(* ===================================================================== *)

Section EventClient.
Import ComfyAPI.

(** Whatever the bytes after the tag say, a binary frame whose tag is 1
    is emitted as one [b_preview] whose blob holds the bytes after the
    first eight: the second [DataView] is built on [event.data], not on
    [buffer], so [imageType] is the event type read again. *)
Lemma binary_preview_frame (data : list byte) (c : Client) :
  getUint32 data 0 = Normal 1%N →
  on_message (Binary data) c = emit (b_preview (mkBlob (drop 8 data) "image/jpeg")) c.
Proof.
  intros H. unfold on_message, message_body, attempt, slice. rewrite H.
  change (1 =? 1)%N with true. change (1 =? 2)%N with false. cbv iota beta.
  by rewrite drop_drop.
Qed.

Lemma binary_unknown_frame (data : list byte) (c : Client) (ty : N) :
  getUint32 data 0 = Normal ty → ty ≠ 1%N → on_message (Binary data) c = c.
Proof.
  intros H Hty. unfold on_message, message_body, attempt. rewrite H.
  destruct (ty =? 1)%N eqn:E; [|done]. by apply N.eqb_eq in E.
Qed.
End EventClient.

(** C2 (the code departs from the claim).  The claim: a binary frame with
    event type 1 and image format 2 is emitted as one [b_preview] whose
    blob has mime type [image/png].  On the frame
    [00 00 00 01 | 00 00 00 02 | 89 50 4E 47] the listener emits exactly one
    [b_preview], with the bytes after the first eight as payload, but with
    mime type [image/jpeg]. *)
Theorem png_preview_frame_is_labelled_jpeg :
  ComfyAPI.getUint32 Samples.png_frame 0 = Normal 1%N
  ∧ ComfyAPI.getUint32 Samples.png_frame 4 = Normal 2%N
  ∧ ComfyAPI.eventBus
      (ComfyAPI.on_message (ComfyAPI.Binary Samples.png_frame) ComfyAPI.new_client)
    = [ComfyAPI.b_preview (ComfyAPI.mkBlob Samples.png_payload "image/jpeg")].
Proof. repeat split; reflexivity. Qed.

(** C3 (as stated, refuted).  With the network down, [getSystemStats] does
    not resolve to an error-carrying result: the promise it returns is
    rejected with the raw failure. *)
Lemma system_stats_failure_propagates :
  request_fails Samples.network_down ("http://127.0.0.1:8188" ++ "/system_stats")
    (JStr "TypeError: Failed to fetch")
  ∧ ¬ ∃ v, ComfyAPI.getSystemStats Samples.network_down "http://127.0.0.1:8188"
           = ComfyAPI.Resolved v.
Proof.
  split.
  - by left.
  - intros [v Hv]. discriminate Hv.
Qed.

(** C3 (amended).  On a network or parse failure [getQueue] and
    [getHistory] resolve to a result that carries the failure in its
    [error] field, and they never reject; [getSystemStats], [getNodeDefs],
    [getExtensions] and [getEmbeddings] install no handler and reject with
    the raw failure; [queuePrompt], once the request is stringified, always
    resolves, and when the HTTP status is not 200 it resolves to the
    backend's parsed error payload. *)
Theorem rest_helpers_failure_handling
    (fetch : string -> ComfyAPI.RequestInit -> ComfyAPI.Promise ComfyAPI.Response)
    (JSON_stringify : ComfyAPI.ComfyPromptRequest -> string + JsValue)
    (url : string) (e : JsValue) :
  (request_fails fetch (url ++ "/queue") e →
   ComfyAPI.getQueue fetch url
   = ComfyAPI.Resolved (JObj [("running", JArr []); ("pending", JArr []); ("error", e)]))
  ∧ (request_fails fetch (url ++ "/history") e →
     ComfyAPI.getHistory fetch url
     = ComfyAPI.Resolved (JObj [("history", JObj []); ("error", e)]))
  ∧ (∃ v, ComfyAPI.getQueue fetch url = ComfyAPI.Resolved v)
  ∧ (∃ v, ComfyAPI.getHistory fetch url = ComfyAPI.Resolved v)
  ∧ (request_fails fetch (url ++ "/system_stats") e →
     ComfyAPI.getSystemStats fetch url = ComfyAPI.Rejected e)
  ∧ (request_fails fetch (url ++ "/object_info") e →
     ComfyAPI.getNodeDefs fetch url = ComfyAPI.Rejected e)
  ∧ (request_fails fetch (url ++ "/extensions") e →
     ComfyAPI.getExtensions fetch url = ComfyAPI.Rejected e)
  ∧ (request_fails fetch (url ++ "/embeddings") e →
     ComfyAPI.getEmbeddings fetch url = ComfyAPI.Rejected e)
  ∧ (∀ c body text res payload,
       JSON_stringify (ComfyAPI.queuePrompt_body c body) = inl text →
       fetch (url ++ "/prompt") (ComfyAPI.POST (Some text)) = ComfyAPI.Resolved res →
       ComfyAPI.res_status res ≠ 200%Z →
       ComfyAPI.res_json res = ComfyAPI.Resolved payload →
       ComfyAPI.queuePrompt fetch JSON_stringify url c body = ComfyAPI.Resolved payload)
  ∧ (∀ c body text,
       JSON_stringify (ComfyAPI.queuePrompt_body c body) = inl text →
       ∃ v, ComfyAPI.queuePrompt fetch JSON_stringify url c body = ComfyAPI.Resolved v).
Proof.
  repeat split.
  - unfold ComfyAPI.getQueue. intros [H|(res & H & Hj)]; rewrite H; simpl; [done|].
    by rewrite Hj.
  - unfold ComfyAPI.getHistory. intros [H|(res & H & Hj)]; rewrite H; simpl; [done|].
    by rewrite Hj.
  - unfold ComfyAPI.getQueue. destruct (fetch _ _) as [res|]; simpl; [|by eexists].
    destruct (ComfyAPI.res_json res) as [d|]; simpl; [|by eexists].
    unfold ComfyAPI.read.
    destruct (js_get d "queue_running"); simpl; [|by eexists].
    destruct (js_get d "queue_pending"); simpl; by eexists.
  - unfold ComfyAPI.getHistory. destruct (fetch _ _) as [res|]; simpl; [|by eexists].
    destruct (ComfyAPI.res_json res) as [d|]; simpl; by eexists.
  - unfold ComfyAPI.getSystemStats. intros [H|(res & H & Hj)]; rewrite H; simpl; done.
  - unfold ComfyAPI.getNodeDefs. intros [H|(res & H & Hj)]; rewrite H; simpl; done.
  - unfold ComfyAPI.getExtensions. intros [H|(res & H & Hj)]; rewrite H; simpl; done.
  - unfold ComfyAPI.getEmbeddings. intros [H|(res & H & Hj)]; rewrite H; simpl; done.
  - intros c body text res payload Hs Hf Hst Hj. unfold ComfyAPI.queuePrompt.
    rewrite Hs, Hf. simpl. rewrite Hj.
    destruct (ComfyAPI.res_status res =? 200)%Z eqn:E; [|done].
    by apply Z.eqb_eq in E.
  - intros c body text Hs. unfold ComfyAPI.queuePrompt. rewrite Hs.
    destruct (ComfyAPI.catch _ _) eqn:E; [by eexists|].
    exfalso. unfold ComfyAPI.catch in E. by destruct (ComfyAPI.and_then _ _).
Qed.

Lemma rest_helpers_failure_handling_witness :
  ComfyAPI.getQueue Samples.network_down "http://127.0.0.1:8188"
  = ComfyAPI.Resolved
      (JObj [("running", JArr []); ("pending", JArr []);
             ("error", JStr "TypeError: Failed to fetch")])
  ∧ ComfyAPI.getNodeDefs Samples.network_down "http://127.0.0.1:8188"
    = ComfyAPI.Rejected (JStr "TypeError: Failed to fetch")
  ∧ ComfyAPI.queuePrompt Samples.backend_refuses Samples.stringify_ok "http://127.0.0.1:8188"
      ComfyAPI.new_client (Samples.request None None)
    = ComfyAPI.Resolved Samples.error_payload.
Proof.
  pose proof (rest_helpers_failure_handling Samples.network_down Samples.stringify_ok
                "http://127.0.0.1:8188" (JStr "TypeError: Failed to fetch"))
    as (Hq & _ & _ & _ & _ & Hn & _).
  pose proof (rest_helpers_failure_handling Samples.backend_refuses Samples.stringify_ok
                "http://127.0.0.1:8188" JNull)
    as (_ & _ & _ & _ & _ & _ & _ & _ & Hp & _).
  split; [apply Hq; by left|]. split; [apply Hn; by left|].
  eapply Hp; [reflexivity|reflexivity| |reflexivity]. simpl. lia.
Defined.

(** C7.  When a socket that has been open closes, the client emits
    [status(null)] and then [reconnecting], and schedules exactly one
    reconnect timer with the fixed delay; when that timer fires, the socket
    reference is cleared and a new socket is created as a reconnect
    attempt, whatever the reference was; when the new socket opens, the
    client emits [reconnected].  The events of the whole episode are
    [status(null)], [reconnecting], [reconnected], in that order. *)
Theorem close_after_open_reconnects (c : ComfyAPI.Client) (h : nat)
    (cl : ComfyAPI.SocketClosure) :
  ComfyAPI.sockets c !! h = Some cl →
  ComfyAPI.opened cl = true →
  let c1 := ComfyAPI.on_close h c in
  let c2 := ComfyAPI.on_timeout (length (ComfyAPI.timers c)) c1 in
  let h' := length (ComfyAPI.sockets c) in
  let c3 := ComfyAPI.on_open h' c2 in
  ComfyAPI.eventBus c1 = (ComfyAPI.eventBus c ++ [ComfyAPI.status JNull; ComfyAPI.reconnecting])%list
  ∧ ComfyAPI.timers c1 = (ComfyAPI.timers c ++ [ComfyAPI.reconnect_delay])%list
  ∧ ComfyAPI.socket c1 = ComfyAPI.socket c
  ∧ ComfyAPI.sockets c1 = ComfyAPI.sockets c
  ∧ ComfyAPI.timers c2 = ComfyAPI.timers c
  ∧ ComfyAPI.socket c2 = Some h'
  ∧ (∃ q, ComfyAPI.sockets c2 = (ComfyAPI.sockets c ++ [ComfyAPI.mkClosure true false q])%list)
  ∧ ComfyAPI.eventBus c2 = ComfyAPI.eventBus c1
  ∧ ComfyAPI.eventBus c3
    = (ComfyAPI.eventBus c
       ++ [ComfyAPI.status JNull; ComfyAPI.reconnecting; ComfyAPI.reconnected])%list.
Proof.
  intros Hh Hop c1 c2 h' c3.
  assert (c1 = ComfyAPI.emit ComfyAPI.reconnecting
                 (ComfyAPI.emit (ComfyAPI.status JNull)
                    (ComfyAPI.set_timers (ComfyAPI.timers c ++ [ComfyAPI.reconnect_delay])%list c)))
    as Hc1.
  { unfold c1, ComfyAPI.on_close. by rewrite Hh, Hop. }
  assert (ComfyAPI.timers c1 = (ComfyAPI.timers c ++ [ComfyAPI.reconnect_delay])%list) as Ht1
    by (by rewrite Hc1).
  assert (ComfyAPI.eventBus c1
          = (ComfyAPI.eventBus c ++ [ComfyAPI.status JNull; ComfyAPI.reconnecting])%list)
    as He1.
  { rewrite Hc1. simpl. by rewrite <- app_assoc. }
  assert (ComfyAPI.sockets c1 = ComfyAPI.sockets c) as Hs1 by (by rewrite Hc1).
  assert (ComfyAPI.socket c1 = ComfyAPI.socket c) as Hk1 by (by rewrite Hc1).
  set (q := if js_truthy (ComfyAPI.sessionId c1)
            then "?clientId=" ++ js_to_string (ComfyAPI.sessionId c1) else "").
  assert (ComfyAPI.timers c1 !! length (ComfyAPI.timers c) = Some ComfyAPI.reconnect_delay) as Hl.
  { rewrite Ht1. by apply list_lookup_middle. }
  assert (ComfyAPI.timers c2 = ComfyAPI.timers c
          ∧ ComfyAPI.socket c2 = Some h'
          ∧ ComfyAPI.sockets c2 = (ComfyAPI.sockets c ++ [ComfyAPI.mkClosure true false q])%list
          ∧ ComfyAPI.eventBus c2 = ComfyAPI.eventBus c1) as (Ht2 & Hk2 & Hs2 & He2).
  { unfold c2, ComfyAPI.on_timeout. rewrite Hl. unfold ComfyAPI.createSocket. simpl.
    rewrite Ht1, take_app_length, Hs1.
    rewrite drop_app_ge by lia.
    replace (S (length (ComfyAPI.timers c)) - length (ComfyAPI.timers c)) with 1 by lia.
    simpl. by rewrite app_nil_r. }
  repeat split; try done.
  - by exists q.
  - unfold c3, ComfyAPI.on_open. rewrite Hs2.
    rewrite list_lookup_middle by done. simpl. rewrite He2, He1.
    by rewrite <- app_assoc.
Qed.

Lemma close_after_open_reconnects_witness :
  ComfyAPI.eventBus
    (ComfyAPI.on_open 1
       (ComfyAPI.on_timeout 0
          (ComfyAPI.on_close 0 (ComfyAPI.on_open 0 (ComfyAPI.init ComfyAPI.new_client)))))
  = [ComfyAPI.status JNull; ComfyAPI.reconnecting; ComfyAPI.reconnected].
Proof.
  exact (proj2 (proj2 (proj2 (proj2 (proj2 (proj2 (proj2 (proj2
    (close_after_open_reconnects
       (ComfyAPI.on_open 0 (ComfyAPI.init ComfyAPI.new_client)) 0
       (ComfyAPI.mkClosure false true "") eq_refl eq_refl))))))))).
Defined.




(* ===================================================================== *)
(** * Further properties of the graph compiler *)
(* ===================================================================== *)

Lemma has_tag_carries (n : LGraphNode) (t : string) :
  has_tag (tags n) t = true ↔ carries_tag n t.
Proof.
  unfold has_tag, carries_tag. destruct (tags n) as [l|]; split.
  - intros (x & Hx & Heq%String.eqb_eq)%existsb_exists. subst x.
    exists l. split; [done|]. by apply list_elem_of_In.
  - intros (l' & [= <-] & Hin). apply existsb_exists. exists t.
    split; [by apply list_elem_of_In|]. apply String.eqb_refl.
  - done.
  - by intros (l' & [=] & _).
Qed.

(** X1.  [nodeHasTag(node, tag, true)] holds exactly when the node itself
    or one of the subgraph nodes that enclose it carries the tag in its
    [properties.tags]; without [checkParents] only the node's own tags
    count. *)
Theorem nodeHasTag_own_or_enclosing (s : Store) (n : LGraphNode) (t : string) :
  (nodeHasTag s n t true = true ↔
   carries_tag n t ∨ ∃ a, a ∈ iterateParentSubgraphNodes s n ∧ carries_tag a t)
  ∧ (nodeHasTag s n t false = true ↔ carries_tag n t).
Proof.
  split.
  - unfold nodeHasTag. rewrite nodeHasTag_from_parents, orb_true_iff, has_tag_carries.
    split; (intros [H|H]; [by left|right]).
    + apply existsb_exists in H as (a & Ha & Ht). exists a.
      split; [by apply list_elem_of_In|by apply has_tag_carries].
    + destruct H as (a & Ha & Ht). apply existsb_exists. exists a.
      split; [by apply list_elem_of_In|by apply has_tag_carries].
  - rewrite <- has_tag_carries. unfold nodeHasTag.
    destruct (graph n); simpl; by destruct (has_tag (tags n) t).
Qed.

Section TagSet.
Import UpstreamNodeLocator ComfyPromptSerializer.
Variable s : Store.
Variables t1 t2 : option string.
Hypothesis same_filter : tag_set t1 = tag_set t2.

Lemma tag_set_isActiveNode o : isActiveNode s o t1 = isActiveNode s o t2.
Proof. unfold isActiveNode. by rewrite same_filter. Qed.

Lemma tag_set_isActiveBackendNode n : isActiveBackendNode s n t1 = isActiveBackendNode s n t2.
Proof.
  unfold isActiveBackendNode. rewrite tag_set_isActiveNode.
  rewrite (existsb_ext_in _ (fun n0 => negb (isActiveNode s (Some n0) t2))); [done|].
  intros a _. by rewrite tag_set_isActiveNode.
Qed.

Lemma tag_set_locate_loop isT fuel st :
  locate_loop isT s t1 fuel st = locate_loop isT s t2 fuel st.
Proof.
  revert st. induction fuel as [|fuel IH]; intros st; cbn [locate_loop];
    unfold shouldFollowParent; rewrite tag_set_isActiveNode; [done|].
  destruct (_ && _); [|done]. destruct (parent st) as [p|] eqn:Hp; [|done].
  destruct (getUpstreamLink s p (currentLink st)) as [up| |]; try done.
  cbn [mbind Completion_bind cbind]. rewrite <- Hp.
  destruct (up_link up); [|done]. rewrite ?tag_set_isActiveNode.
  destruct (decide _); [apply IH|]. destruct (negb _); apply IH.
Qed.

Lemma tag_set_locateUpstream isT fromNode i :
  locateUpstream isT s fromNode i t1 = locateUpstream isT s fromNode i t2.
Proof.
  unfold locateUpstream, locate_from. destruct (getInputNode s fromNode i); [|done].
  rewrite tag_set_locate_loop. destruct (locate_loop _ _ _ _ _) as [st| |]; try done.
  cbn [mbind Completion_bind cbind]. unfold locate_result.
  by rewrite tag_set_isActiveNode.
Qed.

Lemma tag_set_serializeBackendLinks n :
  serializeBackendLinks s n t1 = serializeBackendLinks s n t2.
Proof.
  unfold serializeBackendLinks.
  generalize (seq 0 (length (inputs n))) (Normal (∅ : gmap string JsValue)).
  intros l. induction l as [|i l IH]; intros acc; [done|]. simpl.
  rewrite <- IH. f_equal. unfold serializeBackendLinks_step.
  by rewrite tag_set_locateUpstream.
Qed.

Lemma tag_set_serialize_fold l acc :
  fold_left (serialize_node s t1) l acc = fold_left (serialize_node s t2) l acc.
Proof.
  revert acc. induction l as [|n l IH]; intros acc; [done|]. simpl.
  rewrite <- IH. f_equal. unfold serialize_node.
  by rewrite tag_set_isActiveBackendNode, tag_set_serializeBackendLinks.
Qed.
End TagSet.

(** X2.  An empty string as the tag filters nothing: activity, the
    locator and the whole of [serialize] behave as with [null]. *)
Theorem empty_tag_filters_nothing (graph : ComfyGraph) :
  ComfyPromptSerializer.serialize graph (Some "") = ComfyPromptSerializer.serialize graph None
  ∧ (∀ s o, isActiveNode s o (Some "") = isActiveNode s o None)
  ∧ (∀ s n, isActiveBackendNode s n (Some "") = isActiveBackendNode s n None)
  ∧ (∀ isTheTargetNode s fromNode inputIndex,
       UpstreamNodeLocator.locateUpstream isTheTargetNode s fromNode inputIndex (Some "")
       = UpstreamNodeLocator.locateUpstream isTheTargetNode s fromNode inputIndex None).
Proof.
  split; [|split; [|split]].
  - unfold ComfyPromptSerializer.serialize.
    by rewrite (tag_set_serialize_fold (heap graph) (Some "") None).
  - intros s o. by apply tag_set_isActiveNode.
  - intros s n. by apply tag_set_isActiveBackendNode.
  - intros isT s fromNode i. by apply tag_set_locateUpstream.
Qed.

Lemma isActiveNode_no_filter (s : Store) (n : LGraphNode) :
  isActiveNode s (Some n) None = (mode n =? ALWAYS)%Z.
Proof.
  unfold isActiveNode. simpl. rewrite andb_false_r. by destruct (mode n =? ALWAYS)%Z.
Qed.

Lemma isActiveNode_drop_filter (s : Store) o tag :
  isActiveNode s o tag = true → isActiveNode s o None = true.
Proof.
  destruct o as [n|]; [|done]. intros H%isActiveNode_true_mode.
  rewrite isActiveNode_no_filter. by apply Z.eqb_eq.
Qed.

Lemma isActiveBackendNode_drop_filter (s : Store) n tag :
  isActiveBackendNode s n tag = true → isActiveBackendNode s n None = true.
Proof.
  intros (Hb & Ha & Hp)%isActiveBackendNode_true.
  apply isActiveBackendNode_intro; [done|by eapply isActiveNode_drop_filter|].
  intros a Hin. eapply isActiveNode_drop_filter. by apply Hp.
Qed.

(** X3.  A tag filter only removes: a node that is active, or an active
    backend node, under a tag is so without any filter, and every key of
    the prompt serialized under a tag is a key of the prompt serialized
    without one. *)
Theorem tag_filter_only_removes (graph : ComfyGraph) (tag : option string)
    (p p0 : SerializedPrompt) :
  ComfyPromptSerializer.serialize graph tag = Normal p →
  ComfyPromptSerializer.serialize graph None = Normal p0 →
  (∀ k, is_Some (output p !! k) → is_Some (output p0 !! k))
  ∧ (∀ o, isActiveNode (heap graph) o tag = true → isActiveNode (heap graph) o None = true)
  ∧ (∀ n, isActiveBackendNode (heap graph) n tag = true →
          isActiveBackendNode (heap graph) n None = true).
Proof.
  intros Hp Hp0. repeat split.
  - intros k Hk.
    apply (serialize_keys (heap graph) tag graph p k eq_refl Hp) in Hk as (n & Hn & Hid & Ha).
    apply (serialize_keys (heap graph) None graph p0 k eq_refl Hp0). exists n.
    repeat split; try done. by eapply isActiveBackendNode_drop_filter.
  - intros o. apply isActiveNode_drop_filter.
  - intros n. apply isActiveBackendNode_drop_filter.
Qed.

Lemma tag_filter_only_removes_witness :
  ComfyPromptSerializer.serialize MoreSamples.tagged_graph (Some "t")
  = Normal MoreSamples.tagged_prompt_t
  ∧ ComfyPromptSerializer.serialize MoreSamples.tagged_graph None
    = Normal MoreSamples.tagged_prompt_all
  ∧ is_Some (output MoreSamples.tagged_prompt_t !! "T")
  ∧ is_Some (output MoreSamples.tagged_prompt_all !! "T").
Proof.
  assert (ComfyPromptSerializer.serialize MoreSamples.tagged_graph (Some "t")
          = Normal MoreSamples.tagged_prompt_t) as Ht by (vm_compute; reflexivity).
  assert (ComfyPromptSerializer.serialize MoreSamples.tagged_graph None
          = Normal MoreSamples.tagged_prompt_all) as Hall by (vm_compute; reflexivity).
  assert (is_Some (output MoreSamples.tagged_prompt_t !! "T")) as Hkey
    by (exists (mkEntry ∅ "ClassT"); vm_compute; reflexivity).
  split; [exact Ht|]. split; [exact Hall|]. split; [exact Hkey|].
  exact (proj1 (tag_filter_only_removes MoreSamples.tagged_graph (Some "t")
                  MoreSamples.tagged_prompt_t MoreSamples.tagged_prompt_all Ht Hall)
           "T" Hkey).
Defined.

Section LocatorOrigin.
Import UpstreamNodeLocator.
Variable isTheTargetNode : LGraphNode -> option LLink -> bool.
Variable s : Store.
Variable tag : option string.

Lemma locate_loop_leads fuel st st' :
  leads_to_parent s st →
  locate_loop isTheTargetNode s tag fuel st = Normal st' →
  leads_to_parent s st'.
Proof.
  revert st. induction fuel as [|fuel IH]; intros st Hinv; cbn [locate_loop];
    destruct (shouldFollowParent _ _ _ _ _); try done; try (by intros [= <-]).
  destruct (parent st) as [p|] eqn:Hp; [|by intros [= <-]].
  destruct (getUpstreamLink s p (currentLink st)) as [up| |]; try done.
  cbn [mbind Completion_bind cbind].
  destruct (up_link up) as [nextLink|].
  - destruct (decide _).
    { rewrite locate_loop_stops_on_null. intros [= <-]. by intros q [=]. }
    destruct (negb _).
    { rewrite locate_loop_stops_on_null. intros [= <-]. by intros q [=]. }
    apply IH. intros q Hq. simpl in Hq.
    destruct (up_graph up) as [ng|]; [|done].
    split; [by exists ng, (origin_id nextLink)|].
    exists nextLink. split; [done|].
    apply getNodeById_Some in Hq as (_ & _ & _ & _ & _ & Hid). done.
  - intros [= <-]. intros q Hq. simpl in *. injection Hq as <-.
    by apply Hinv.
Qed.

Lemma locate_from_origin fuel fromNode inputIndex r n :
  locate_from isTheTargetNode s tag fuel fromNode inputIndex = Normal r →
  found r = Some n →
  in_store s n ∧ ∃ l, linkLeadingTo r = Some l ∧ origin_id l = id n.
Proof.
  unfold locate_from. destruct (getInputNode s fromNode inputIndex) as [p|] eqn:Hp;
    [|by intros [= <-]].
  destruct (locate_loop _ _ _ _ _) as [st| |] eqn:Hloop; try done.
  cbn [mbind Completion_bind cbind]. intros [= <-] Hf.
  apply locate_result_found in Hf as (Hpar & _ & _ & -> & _).
  eapply locate_loop_leads in Hloop; [by apply Hloop|].
  intros q [= <-]. simpl. unfold getInputNode in Hp.
  destruct (getInputLink s fromNode inputIndex) as [l|]; [|done].
  split; [by exists (graph fromNode), (origin_id l)|].
  exists l. split; [done|].
  apply getNodeById_Some in Hp as (_ & _ & _ & _ & _ & Hid). done.
Qed.
End LocatorOrigin.

(** X4.  The node [locateUpstream] reports as found is a node of the heap
    that is active and satisfies the target test, and the link it reports
    is the link that leaves that node: its [origin_id] is the id of the
    found node.  So the link reference the serializer writes names the
    backend node the locator found. *)
Theorem located_node_is_link_origin (isTheTargetNode : LGraphNode -> option LLink -> bool)
    (s : Store) (fromNode : LGraphNode) (inputIndex : nat) (tag : option string)
    (r : UpstreamNodeLocator.Located) (n : LGraphNode) :
  UpstreamNodeLocator.locateUpstream isTheTargetNode s fromNode inputIndex tag = Normal r →
  UpstreamNodeLocator.found r = Some n →
  in_store s n
  ∧ isActiveNode s (Some n) tag = true
  ∧ ∃ l, UpstreamNodeLocator.linkLeadingTo r = Some l
         ∧ origin_id l = id n
         ∧ isTheTargetNode n (Some l) = true.
Proof.
  intros Hloc Hf.
  pose proof (locate_from_origin _ _ _ _ _ _ _ _ Hloc Hf) as (Hin & l & Hl & Hid).
  pose proof (locate_from_found _ _ _ _ _ _ _ _ Hloc Hf) as (Ha & Ht & _).
  repeat split; try done. exists l. rewrite Hl in Ht. done.
Qed.

Lemma located_node_is_link_origin_witness :
  ∃ l, Some (mkLink "1" "A" 0 "R1" 0 JUndefined) = Some l ∧ origin_id l = "A".
Proof.
  pose proof (located_node_is_link_origin ComfyPromptSerializer.test
    (Samples.chain_store None None None) (Samples.chain_B None) 0 None
    (UpstreamNodeLocator.mkLocated (Some (Samples.chain_A None))
       (Some (mkLink "1" "A" 0 "R1" 0 JUndefined)) (Some 0)
       (Some (Samples.chain_R1 None)))
    (Samples.chain_A None)) as H.
  destruct H as (_ & _ & l & Hl & Hid & _); [vm_compute; reflexivity|reflexivity|].
  exists l. split; [exact Hl|exact Hid].
Defined.

(** X5.  Where no hop is needed, [locateUpstream] answers from the input
    slot alone: a slot with no producer node gives the all-[null] result;
    a direct parent that is active and satisfies the target test is
    returned with the slot's own link, the slot index and the starting
    node; a direct parent that is inactive is not returned, though the
    slot's link still is. *)
Theorem locateUpstream_without_hop (isTheTargetNode : LGraphNode -> option LLink -> bool)
    (s : Store) (fromNode : LGraphNode) (inputIndex : nat) (tag : option string) :
  (getInputNode s fromNode inputIndex = None →
   UpstreamNodeLocator.locateUpstream isTheTargetNode s fromNode inputIndex tag
   = Normal (UpstreamNodeLocator.mkLocated None None None None))
  ∧ (∀ p, getInputNode s fromNode inputIndex = Some p →
          isActiveNode s (Some p) tag = true →
          isTheTargetNode p (getInputLink s fromNode inputIndex) = true →
          is_Some (getInputLink s fromNode inputIndex)
          ∧ UpstreamNodeLocator.locateUpstream isTheTargetNode s fromNode inputIndex tag
            = Normal (UpstreamNodeLocator.mkLocated (Some p)
                        (getInputLink s fromNode inputIndex) (Some inputIndex)
                        (Some fromNode)))
  ∧ (∀ p, getInputNode s fromNode inputIndex = Some p →
          isActiveNode s (Some p) tag = false →
          UpstreamNodeLocator.locateUpstream isTheTargetNode s fromNode inputIndex tag
          = Normal (UpstreamNodeLocator.mkLocated None
                      (getInputLink s fromNode inputIndex) (Some inputIndex)
                      (Some fromNode))).
Proof.
  unfold UpstreamNodeLocator.locateUpstream, UpstreamNodeLocator.locate_from.
  split; [|split].
  - by intros ->.
  - intros p Hp Ha Ht.
    assert (is_Some (getInputLink s fromNode inputIndex)) as [l Hl].
    { unfold getInputNode in Hp. destruct (getInputLink s fromNode inputIndex); [by eexists|done]. }
    split; [by eexists|]. rewrite Hp. cbn [UpstreamNodeLocator.locate_loop].
    unfold UpstreamNodeLocator.shouldFollowParent. simpl. rewrite Ha, Ht. simpl.
    unfold UpstreamNodeLocator.locate_result. simpl. by rewrite Ha, Ht, Hl.
  - intros p Hp Ha. rewrite Hp. cbn [UpstreamNodeLocator.locate_loop].
    unfold UpstreamNodeLocator.shouldFollowParent. simpl. rewrite Ha. simpl.
    unfold UpstreamNodeLocator.locate_result. simpl. by rewrite Ha.
Qed.

Section FlatHeap.
Import UpstreamNodeLocator ComfyPromptSerializer.
Variable s : Store.
Variable tag : option string.
Hypothesis flat : flat_heap s = true.

Lemma flat_heap_in_store p : in_store s p → follows_boundary p = false.
Proof.
  intros (g & i & (gr & n0 & Hg & Hn0 & -> & _)%getNodeById_Some).
  pose proof flat as Hf. unfold flat_heap in Hf. rewrite forallb_forall in Hf.
  assert (In (g, gr) (map_to_list s)) as Hin
    by (apply list_elem_of_In; by apply elem_of_map_to_list).
  specialize (Hf _ Hin). simpl in Hf. rewrite forallb_forall in Hf.
  assert (In n0 (_nodes gr)) as Hin0 by (by apply list_elem_of_In).
  specialize (Hf _ Hin0).
  unfold follows_boundary in *. simpl. by destruct (class n0).
Qed.

Lemma getUpstreamLink_no_boundary p cl :
  follows_boundary p = false → ∃ up, getUpstreamLink s p cl = Normal up.
Proof.
  unfold follows_boundary, getUpstreamLink. intros Hc.
  destruct (class p); try done;
    (destruct (upstreamHook p); [by eexists|];
     destruct (Nat.eqb _ _); [|by eexists];
     destruct (getInputLink s p 0); by eexists).
Qed.

Lemma locate_loop_flat isT fuel st m :
  (∀ p, parent st = Some p → in_store s p) →
  locate_loop isT s tag fuel st ≠ Throw m.
Proof.
  revert st. induction fuel as [|fuel IH]; intros st Hp; cbn [locate_loop];
    destruct (shouldFollowParent _ _ _ _ _); try done.
  destruct (parent st) as [p|] eqn:Hpar; [|done].
  destruct (getUpstreamLink_no_boundary p (currentLink st)) as [up ->].
  { apply flat_heap_in_store. by apply Hp. }
  cbn [mbind Completion_bind cbind].
  destruct (up_link up) as [nextLink|]; [|done].
  destruct (decide _); [by rewrite locate_loop_stops_on_null|].
  destruct (negb _); [by rewrite locate_loop_stops_on_null|].
  apply IH. simpl. intros q Hq. destruct (up_graph up) as [ng|]; [|done].
  by exists ng, (origin_id nextLink).
Qed.

Lemma locateUpstream_flat isT fromNode i :
  ∃ r, locateUpstream isT s fromNode i tag = Normal r.
Proof.
  pose proof (locateUpstream_enough_fuel isT s tag fromNode i) as Hfuel.
  unfold locateUpstream, locate_from in *.
  destruct (getInputNode s fromNode i) as [p|] eqn:Hp; [|by eexists].
  pose proof (locate_loop_flat isT (S (size (link_ids s)))
    (mkLoop (Some p) (getInputLink s fromNode i) (Some i) (Some fromNode) ∅)) as Hthrow.
  destruct (locate_loop _ _ _ _ _) as [st|m|]; [by eexists| |done].
  exfalso. apply (Hthrow m); [|done]. simpl. intros q [= <-].
  unfold getInputNode in Hp. destruct (getInputLink s fromNode i) as [l|]; [|done].
  by exists (graph fromNode), (origin_id l).
Qed.

Lemma serializeBackendLinks_step_flat n acc i :
  i < length (inputs n) →
  ∃ acc', serializeBackendLinks_step s n tag (Normal acc) i = Normal acc'.
Proof.
  intros Hi. unfold serializeBackendLinks_step. cbn [mbind Completion_bind cbind].
  destruct (locateUpstream_flat test n i) as [r Hr]. rewrite Hr.
  cbn [mbind Completion_bind cbind].
  destruct (found r) as [b|] eqn:Hf; [|by eexists].
  destruct (locate_from_found _ _ _ _ _ _ _ _ Hr Hf) as (_ & _ & [l Hl]). rewrite Hl.
  destruct (nth_error (inputs n) i) as [inp|] eqn:Hn.
  - destruct (has_member acc (slot_name inp)); by eexists.
  - apply nth_error_None in Hn. lia.
Qed.

Lemma serializeBackendLinks_flat n : ∃ lk, serializeBackendLinks s n tag = Normal lk.
Proof.
  unfold serializeBackendLinks.
  assert (∀ l acc, Forall (fun i => i < length (inputs n)) l →
            ∃ lk, fold_left (serializeBackendLinks_step s n tag) l (Normal acc) = Normal lk) as H.
  { intros l. induction l as [|i l IH]; intros acc Hl; [by eexists|]. cbn [fold_left].
    apply Forall_cons in Hl as [Hi Hl].
    destruct (serializeBackendLinks_step_flat n acc i Hi) as [acc' ->]. by apply IH. }
  apply H. apply Forall_forall. intros i Hi. apply elem_of_seq in Hi. lia.
Qed.

Lemma serialize_node_flat acc n :
  ∃ out, serialize_node s tag (Normal acc) n = Normal out.
Proof.
  unfold serialize_node. cbn [mbind Completion_bind cbind].
  destruct (negb _); [by eexists|].
  destruct (serializeBackendLinks_flat n) as [lk ->]. by eexists.
Qed.

Lemma serialize_fold_flat l acc :
  ∃ out, fold_left (serialize_node s tag) l (Normal acc) = Normal out.
Proof.
  revert acc. induction l as [|n l IH]; intros acc; [by eexists|]. cbn [fold_left].
  destruct (serialize_node_flat acc n) as [out ->]. apply IH.
Qed.
End FlatHeap.

Section PruningTest.
Import ComfyPromptSerializer.

Lemma link_reference_convertible l : unconvertible_key (link_reference l) = false.
Proof. reflexivity. Qed.

(** The link pass records link references only, and their first element
    is a string. *)
Lemma links_values_convertible s n tag lk name v :
  serializeBackendLinks s n tag = Normal lk →
  lk !! name = Some v → unconvertible_key v = false.
Proof.
  unfold serializeBackendLinks.
  assert (∀ l m, fold_left (serializeBackendLinks_step s n tag) l (Throw m) = Throw m)
    as Hthrow by (intros l m; induction l as [|i l IH]; [done|apply IH]).
  assert (∀ l, fold_left (serializeBackendLinks_step s n tag) l OutOfFuel = OutOfFuel)
    as Hfuel by (intros l; induction l as [|i l IH]; [done|apply IH]).
  assert (∀ l acc,
            (∀ k w, acc !! k = Some w → unconvertible_key w = false) →
            fold_left (serializeBackendLinks_step s n tag) l (Normal acc) = Normal lk →
            ∀ k w, lk !! k = Some w → unconvertible_key w = false) as H.
  { intros l. induction l as [|i l IH]; intros acc Hacc; cbn [fold_left].
    - by intros [= <-].
    - destruct (serializeBackendLinks_step s n tag (Normal acc) i) as [acc'|m|] eqn:Hstep;
        [|by rewrite Hthrow|by rewrite Hfuel].
      apply IH. unfold serializeBackendLinks_step in Hstep.
      cbn [mbind Completion_bind cbind] in Hstep.
      destruct (UpstreamNodeLocator.locateUpstream test s n i tag) as [r| |]; try done.
      cbn [mbind Completion_bind cbind] in Hstep.
      destruct (UpstreamNodeLocator.found r); [|by injection Hstep as <-].
      destruct (nth_error (inputs n) i) as [inp|]; [|done].
      destruct (UpstreamNodeLocator.linkLeadingTo r) as [lt|]; [|done].
      destruct (has_member acc (slot_name inp)); injection Hstep as <-; [done|].
      intros k w [[_ <-]|[_ Hk]]%lookup_insert_Some; [reflexivity|by eapply Hacc]. }
  intros Hfold Hv. eapply H; [|exact Hfold|exact Hv]. intros k w Hk.
  by rewrite lookup_empty in Hk.
Qed.

Lemma pruning_throws_false (out : gmap string PromptEntry) :
  (∀ k e name v, out !! k = Some e → entry_inputs e !! name = Some v →
                 unconvertible_key v = false) →
  pruning_throws out = false.
Proof.
  intros Hall. apply not_true_is_false. unfold pruning_throws. intros Hex.
  apply existsb_exists in Hex as ([k e] & Hin & Hex). simpl in Hex.
  apply existsb_exists in Hex as ([name v] & Hin' & Hu). simpl in Hu.
  apply list_elem_of_In, elem_of_map_to_list in Hin.
  apply list_elem_of_In, elem_of_map_to_list in Hin'.
  rewrite (Hall k e name v Hin Hin') in Hu. discriminate.
Qed.

(** When the first loop completes, [serialize] returns a prompt or throws
    the error of the key conversion, and it returns a prompt when no value
    of the literal pass is a pair with an unconvertible first element. *)
Lemma serialize_after_first_loop graph tag out :
  fold_left (serialize_node (heap graph) tag) (executionOrder graph) (Normal ∅) = Normal out →
  ((∃ p, serialize graph tag = Normal p) ∨ serialize graph tag = Throw cannot_convert)
  ∧ ((∀ n name v, n ∈ executionOrder graph →
                  serializeInputValues (heap graph) n !! name = Some v →
                  unconvertible_key v = false) →
     ∃ p, serialize graph tag = Normal p).
Proof.
  intros Hfold. unfold serialize. rewrite Hfold. cbn [mbind Completion_bind cbind]. split.
  - destruct (pruning_throws out); [by right|left; by eexists].
  - intros Hlit. rewrite pruning_throws_false; [by eexists|].
    intros k e name v Hk Hv.
    destruct (fold_serialize_node_value _ _ _ _ _ _ _ Hfold Hk)
      as [Hemp|(n & lk & Hn & _ & _ & Hlk & ->)]; [by rewrite lookup_empty in Hemp|].
    simpl in Hv. apply lookup_union_Some_raw in Hv as [Hv|[_ Hv]].
    + by eapply links_values_convertible.
    + by eapply Hlit.
Qed.
End PruningTest.

(** X6.  On a heap without subgraph and graph-input nodes the two
    boundary-following helpers are never reached: the locator always
    returns a result and the first loop of [serialize] always completes.
    What is left to throw is the pruning test, when it converts the first
    element of a pair to a property key: [serialize] returns a prompt or
    throws that [TypeError], and it returns a prompt whenever no value of
    the literal pass is a pair with an unconvertible first element.  The
    link data [[{toString: 1}, 768]] makes it throw. *)
Theorem flat_graph_always_serializes (graph : ComfyGraph) (tag : option string) :
  flat_heap (heap graph) = true →
  (∀ isTheTargetNode fromNode inputIndex,
     ∃ r, UpstreamNodeLocator.locateUpstream isTheTargetNode (heap graph) fromNode
            inputIndex tag = Normal r)
  ∧ (∃ out, fold_left (ComfyPromptSerializer.serialize_node (heap graph) tag)
              (executionOrder graph) (Normal ∅) = Normal out)
  ∧ ((∃ p, ComfyPromptSerializer.serialize graph tag = Normal p)
     ∨ ComfyPromptSerializer.serialize graph tag = Throw cannot_convert)
  ∧ ((∀ n name v, n ∈ executionOrder graph →
                  ComfyPromptSerializer.serializeInputValues (heap graph) n !! name = Some v →
                  ComfyPromptSerializer.unconvertible_key v = false) →
     ∃ p, ComfyPromptSerializer.serialize graph tag = Normal p)
  ∧ (flat_heap (heap (Samples.pair_graph Samples.unconvertible_pair)) = true
     ∧ ComfyPromptSerializer.serialize (Samples.pair_graph Samples.unconvertible_pair) None
       = Throw cannot_convert).
Proof.
  intros Hflat.
  destruct (serialize_fold_flat (heap graph) tag Hflat (executionOrder graph) ∅) as [out Hout].
  destruct (serialize_after_first_loop graph tag out Hout) as [Hor Hlit].
  split; [|split; [|split; [|split]]].
  - intros isT fromNode i. by apply locateUpstream_flat.
  - by exists out.
  - exact Hor.
  - exact Hlit.
  - split; vm_compute; reflexivity.
Qed.

Lemma flat_graph_always_serializes_witness :
  ∃ p, ComfyPromptSerializer.serialize MoreSamples.sampler_graph None = Normal p.
Proof.
  refine (proj1 (proj2 (proj2 (proj2
            (flat_graph_always_serializes MoreSamples.sampler_graph None _)))) _).
  - vm_compute. reflexivity.
  - intros n name v Hn Hv. apply elem_of_map_to_list in Hv.
    unfold MoreSamples.sampler_graph, executionOrder in Hn.
    repeat (apply elem_of_cons in Hn as [->|Hn]);
      try (by apply elem_of_nil in Hn);
      vm_compute in Hv;
      match type of Hv with list_elem_of ?x ?l => change (x ∈ l) in Hv end;
      repeat (apply elem_of_cons in Hv as [[= -> ->]|Hv]; [reflexivity|]);
      by apply elem_of_nil in Hv.
Defined.

(** X7.  Whenever [getUpstreamLink] returns a link it returns the graph and
    the node with it; and unless the node's own [getUpstreamLink] method
    chose the link, the link returned is the one attached to the returned
    input slot of the returned node, in the returned graph. *)
Theorem getUpstreamLink_returns_input_link (s : Store) (parent : LGraphNode)
    (currentLink : option LLink) (up : UpstreamResult) (l : LLink) :
  getUpstreamLink s parent currentLink = Normal up →
  up_link up = Some l →
  (∃ n, up_node up = Some n ∧ up_graph up = Some (graph n))
  ∧ (follows_boundary parent = true ∨ upstreamHook parent = None →
     ∃ n slot, up_node up = Some n ∧ up_slot up = Some slot
               ∧ getInputLink s n slot = Some l).
Proof.
  unfold getUpstreamLink, follows_boundary. intros Hup Hl.
  assert (Hdefault :
    match upstreamHook parent with
    | Some link =>
        Normal (mkUpstream (Some (graph parent)) link (option_map target_slot link)
                  (Some parent))
    | None =>
        if Nat.eqb (length (inputs parent)) 1 then
          match getInputLink s parent 0 with
          | Some link =>
              Normal (mkUpstream (Some (graph parent)) (Some link) (Some 0) (Some parent))
          | None => Normal no_upstream
          end
        else Normal no_upstream
    end = Normal up →
    (∃ n, up_node up = Some n ∧ up_graph up = Some (graph n))
    ∧ (upstreamHook parent = None →
       ∃ n slot, up_node up = Some n ∧ up_slot up = Some slot
                 ∧ getInputLink s n slot = Some l)).
  { destruct (upstreamHook parent) as [hl|].
    - intros [= <-]. split; [by eexists|done].
    - destruct (Nat.eqb _ _); [|intros [= <-]; done].
      destruct (getInputLink s parent 0) as [l0|] eqn:Hl0; [|intros [= <-]; done].
      intros [= <-]. simpl in Hl. injection Hl as ->. split; [by eexists|].
      intros _. by exists parent, 0. }
  destruct (class parent) eqn:Hc;
    try (destruct (Hdefault Hup) as [H1 H2]; split; [exact H1|];
         intros [?|Hh]; [done|by apply H2]).
  - unfold followGraphInput in Hup. destruct currentLink as [cl|]; [|done].
    destruct (negb _); [done|]. destruct (_subgraph_node s (graph parent)) as [o|]; [|done].
    destruct (findIndex_name _ _) as [k|]; [|done]. injection Hup as <-. simpl in *.
    split; [by eexists|]. intros _. by exists o, k.
  - unfold followSubgraph in Hup. destruct currentLink as [cl|]; [|done].
    destruct (negb _); [done|].
    destruct (getInnerGraphOutputByIndex s parent (origin_slot cl)) as [o|]; [|done].
    injection Hup as <-. simpl in *. split; [by eexists|]. intros _. by exists o, 0.
Qed.

Lemma getUpstreamLink_returns_input_link_witness :
  ∃ n slot, Some (Samples.chain_R2 None) = Some n ∧ Some 0 = Some slot
            ∧ getInputLink (Samples.chain_store None None None) n slot
              = Some (mkLink "2" "R1" 0 "R2" 0 JUndefined).
Proof.
  refine (proj2 (getUpstreamLink_returns_input_link (Samples.chain_store None None None)
            (Samples.chain_R2 None) None
            (mkUpstream (Some []) (Some (mkLink "2" "R1" 0 "R2" 0 JUndefined)) (Some 0)
               (Some (Samples.chain_R2 None)))
            (mkLink "2" "R1" 0 "R2" 0 JUndefined) _ _) _).
  - vm_compute. reflexivity.
  - reflexivity.
  - right. reflexivity.
Defined.

(* ===================================================================== *)
(** * Further properties of the serializer passes *)
(* ===================================================================== *)

Lemma nth_error_lookup {A} (l : list A) (i : nat) : nth_error l i = l !! i.
Proof. revert i. induction l as [|x l IH]; intros [|i]; simpl; try done. Qed.

Lemma slot_names_differ (n : LGraphNode) i j inp inpj :
  NoDup (slot_name <$> inputs n) →
  nth_error (inputs n) i = Some inp → nth_error (inputs n) j = Some inpj →
  j ≠ i → slot_name inpj ≠ slot_name inp.
Proof.
  intros Hnd Hi Hj Hne Heq. apply Hne.
  rewrite nth_error_lookup in Hi, Hj.
  apply (NoDup_lookup _ j i (slot_name inp) Hnd); rewrite list_lookup_fmap.
  - by rewrite Hj, <- Heq.
  - by rewrite Hi.
Qed.

Lemma seq_split_at (len i : nat) :
  i < len → seq 0 len = (seq 0 i ++ i :: seq (S i) (len - S i))%list.
Proof.
  intros Hi. replace len with (i + S (len - S i)) at 1 by lia.
  rewrite seq_app. simpl. done.
Qed.

Section PlainObjects.

Lemma js_assign_lookup o k v k' w :
  own (js_assign o k v) !! k' = Some w → own o !! k' = Some w ∨ (k' = k ∧ w = v).
Proof.
  unfold js_assign. destruct (own o !! k) eqn:Hk.
  - simpl. intros [[<- <-]|[_ H]]%lookup_insert_Some; [by right|by left].
  - destruct (String.eqb k "__proto__" && reaches_proto_setter (proto o)).
    + destruct v; simpl; by left.
    + simpl. intros [[<- <-]|[_ H]]%lookup_insert_Some; [by right|by left].
Qed.

Lemma js_assign_other o k v k' : k' ≠ k → own (js_assign o k v) !! k' = own o !! k'.
Proof.
  intros Hne. unfold js_assign. destruct (own o !! k).
  - simpl. by rewrite lookup_insert_ne.
  - destruct (String.eqb k "__proto__" && reaches_proto_setter (proto o)).
    + by destruct v.
    + simpl. by rewrite lookup_insert_ne.
Qed.

(** Assigning to a name other than [__proto__] creates or overwrites the
    property and leaves the prototype alone. *)
Lemma js_assign_ordinary o k v :
  k ≠ "__proto__" →
  own (js_assign o k v) !! k = Some v ∧ proto (js_assign o k v) = proto o.
Proof.
  intros Hne. unfold js_assign. apply String.eqb_neq in Hne. rewrite Hne. simpl.
  destruct (own o !! k); simpl; by rewrite lookup_insert_eq.
Qed.

(** Assigning to [__proto__] on an object that still inherits from
    [Object.prototype] runs the setter: the object gets no property. *)
Lemma js_assign_proto o v :
  own o !! "__proto__" = None → proto o = ObjectPrototype →
  own (js_assign o "__proto__" v) !! "__proto__" = None.
Proof.
  intros Hown Hp. unfold js_assign. rewrite Hown, Hp. simpl. by destruct v.
Qed.
End PlainObjects.

Section LiteralPass.
Import ComfyPromptSerializer.
Variable s : Store.
Variable n : LGraphNode.

(** What one round of the loop does to the object, whatever the object
    is: nothing, or one assignment to the name of the slot. *)
Lemma literal_step_cases i :
  (∀ acc, serializeInputValues_step s n acc i = acc)
  ∨ ∃ inp v, nth_error (inputs n) i = Some inp ∧ literal_source s n i inp v
             ∧ ∀ acc, serializeInputValues_step s n acc i = js_assign acc (slot_name inp) v.
Proof.
  unfold serializeInputValues_step.
  destruct (nth_error (inputs n) i) as [inp|]; [|by left].
  destruct (getInputNode s n i) as [m|] eqn:Hm.
  - destruct (mode m =? ALWAYS)%Z eqn:Hmode; simpl; [|by left].
    apply Z.eqb_eq in Hmode.
    destruct (getInputLink s n i) as [l|] eqn:Hl.
    + destruct (_ && _ && _) eqn:Hc; [|by left].
      apply andb_true_iff in Hc as [[Hser Hb]%andb_true_iff Hnb].
      apply negb_true_iff in Hnb.
      right. exists inp, (data l). repeat split; try done.
      right. exists l, m. repeat split; try done.
      intros c Hcfg. by rewrite Hcfg in Hser.
    + unfold getInputNode in Hm. by rewrite Hl in Hm.
  - simpl.
    assert ((∀ acc, match slot_comfy inp with
                    | Some c =>
                        match defaultValue c with
                        | JNull | JUndefined => acc
                        | dv => js_assign acc (slot_name inp) dv
                        end
                    | None => acc
                    end = acc)
            ∨ ∃ inp0 v, Some inp = Some inp0 ∧ literal_source s n i inp0 v
                        ∧ ∀ acc, match slot_comfy inp with
                                 | Some c =>
                                     match defaultValue c with
                                     | JNull | JUndefined => acc
                                     | dv => js_assign acc (slot_name inp) dv
                                     end
                                 | None => acc
                                 end = js_assign acc (slot_name inp0) v)
      as Hdefault.
    { destruct (slot_comfy inp) as [c|] eqn:Hcfg; [|by left].
      destruct (defaultValue c) eqn:Hd; try (by left);
        (right; exists inp; eexists; repeat split; try done;
         left; split; [done|]; exists c; by repeat split). }
    destruct (getInputLink s n i); exact Hdefault.
Qed.

Lemma literal_step_lookup acc i k v :
  own (serializeInputValues_step s n acc i) !! k = Some v →
  own acc !! k = Some v
  ∨ ∃ inp, nth_error (inputs n) i = Some inp ∧ slot_name inp = k ∧ literal_source s n i inp v.
Proof.
  destruct (literal_step_cases i) as [->|(inp & w & Hi & Hsrc & ->)]; [by left|].
  intros [H|[-> ->]]%js_assign_lookup; [by left|].
  right. by exists inp.
Qed.

Lemma literal_step_other acc j k :
  (∀ inp, nth_error (inputs n) j = Some inp → slot_name inp ≠ k) →
  own (serializeInputValues_step s n acc j) !! k = own acc !! k.
Proof.
  intros Hne.
  destruct (literal_step_cases j) as [->|(inp & w & Hj & _ & ->)]; [done|].
  apply js_assign_other. intros ->. by eapply Hne.
Qed.

Lemma literal_step_proto acc j :
  (∀ inp, nth_error (inputs n) j = Some inp → slot_name inp ≠ "__proto__") →
  proto (serializeInputValues_step s n acc j) = proto acc.
Proof.
  intros Hne.
  destruct (literal_step_cases j) as [->|(inp & w & Hj & _ & ->)]; [done|].
  apply js_assign_ordinary. by eapply Hne.
Qed.

Lemma literal_fold_other l acc k :
  (∀ j inp, j ∈ l → nth_error (inputs n) j = Some inp → slot_name inp ≠ k) →
  own (fold_left (serializeInputValues_step s n) l acc) !! k = own acc !! k.
Proof.
  revert acc. induction l as [|j l IH]; intros acc Hne; [done|]. cbn [fold_left].
  rewrite IH.
  - apply literal_step_other. intros inp. apply Hne. by left.
  - intros j' inp Hj'. apply Hne. by right.
Qed.

Lemma literal_fold_proto l acc :
  (∀ j inp, j ∈ l → nth_error (inputs n) j = Some inp → slot_name inp ≠ "__proto__") →
  proto (fold_left (serializeInputValues_step s n) l acc) = proto acc.
Proof.
  revert acc. induction l as [|j l IH]; intros acc Hne; [done|]. cbn [fold_left].
  rewrite IH.
  - apply literal_step_proto. intros inp. apply Hne. by left.
  - intros j' inp Hj'. apply Hne. by right.
Qed.

Lemma literal_fold_lookup l acc k v :
  own (fold_left (serializeInputValues_step s n) l acc) !! k = Some v →
  own acc !! k = Some v
  ∨ ∃ i inp, i ∈ l ∧ nth_error (inputs n) i = Some inp ∧ slot_name inp = k
             ∧ literal_source s n i inp v.
Proof.
  revert acc. induction l as [|j l IH]; intros acc; [by left|]. cbn [fold_left].
  intros [H|(i & inp & Hi & ?)]%IH.
  - apply literal_step_lookup in H as [H|(inp & ?)]; [by left|].
    right. exists j, inp. split; [by left|done].
  - right. exists i, inp. split; [by right|done].
Qed.

(** With distinct slot names, the entry for the name of slot [i] is what
    the loop body for slot [i] writes into an empty object. *)
Lemma literal_of_slot i inp :
  NoDup (slot_name <$> inputs n) →
  nth_error (inputs n) i = Some inp →
  serializeInputValues s n !! slot_name inp
  = own (serializeInputValues_step s n empty_object i) !! slot_name inp.
Proof.
  intros Hnd Hi. unfold serializeInputValues, serializeInputValues_object.
  assert (i < length (inputs n)) as Hlt by (apply nth_error_Some; congruence).
  rewrite (seq_split_at _ _ Hlt), fold_left_app. cbn [fold_left].
  rewrite literal_fold_other.
  2:{ intros j inpj Hj Hnj. apply elem_of_seq in Hj.
      eapply slot_names_differ; eauto. lia. }
  set (acc1 := fold_left _ (seq 0 i) empty_object).
  assert (own acc1 !! slot_name inp = None) as Hnone.
  { unfold acc1. rewrite literal_fold_other; [done|].
    intros j inpj Hj Hnj. apply elem_of_seq in Hj.
    eapply slot_names_differ; eauto. lia. }
  assert (slot_name inp = "__proto__" → proto acc1 = ObjectPrototype) as Hproto.
  { intros Hname. unfold acc1. rewrite literal_fold_proto; [done|].
    intros j inpj Hj Hnj. apply elem_of_seq in Hj. rewrite <- Hname.
    eapply slot_names_differ; eauto. lia. }
  destruct (literal_step_cases i) as [Hsame|(inp1 & w & Hi1 & _ & Hstep)].
  - by rewrite !Hsame, Hnone.
  - rewrite !Hstep. rewrite Hi in Hi1. injection Hi1 as <-.
    destruct (decide (slot_name inp = "__proto__")) as [Hname|Hname].
    + rewrite Hname in *. rewrite !js_assign_proto; auto.
    + by rewrite !(proj1 (js_assign_ordinary _ _ _ Hname)).
Qed.
End LiteralPass.

(** X8.  Every value the literal pass records sits under the name of an
    input slot of the node, and is either the default of a slot that has
    no producer node (never [null] or [undefined]), or the data on the
    link of a slot whose producer is in [ALWAYS] mode and is not a backend
    node, recorded for a backend consumer only.  A link between two
    backend nodes is never recorded as a literal. *)
Theorem serializeInputValues_sources (s : Store) (n : LGraphNode) (k : string) (v : JsValue) :
  ComfyPromptSerializer.serializeInputValues s n !! k = Some v →
  ∃ i inp, nth_error (inputs n) i = Some inp ∧ slot_name inp = k
           ∧ literal_source s n i inp v.
Proof.
  unfold ComfyPromptSerializer.serializeInputValues,
    ComfyPromptSerializer.serializeInputValues_object.
  intros [H|(i & inp & _ & ?)]%literal_fold_lookup;
    [simpl in H; by rewrite lookup_empty in H|].
  by exists i, inp.
Qed.

Lemma serializeInputValues_sources_witness :
  ∃ i inp, nth_error (inputs MoreSamples.sampler_K) i = Some inp ∧ slot_name inp = "seed"
           ∧ literal_source MoreSamples.sampler_store MoreSamples.sampler_K i inp (JNum 42).
Proof.
  apply (serializeInputValues_sources MoreSamples.sampler_store MoreSamples.sampler_K
           "seed" (JNum 42)).
  vm_compute. reflexivity.
Defined.

(** X9.  When the input slots of a node have distinct names, the literal
    pass decides each slot on its own.  A slot named [__proto__] gets
    nothing: the assignment runs the setter of [Object.prototype] instead of
    creating a property.  For any other name: a slot with no producer node
    gets its default, if it has one that is neither [null] nor [undefined],
    and nothing otherwise; a slot whose producer is not in [ALWAYS] mode
    gets nothing, not even the default; a slot fed by a backend node gets
    nothing; and a slot of a backend node fed by an active non-backend
    node gets the data of its link. *)
Theorem serializeInputValues_per_slot (s : Store) (n : LGraphNode) (i : nat)
    (inp : InputSlot) :
  NoDup (slot_name <$> inputs n) →
  nth_error (inputs n) i = Some inp →
  let value := ComfyPromptSerializer.serializeInputValues s n !! slot_name inp in
  (slot_name inp = "__proto__" → value = None)
  ∧ (getInputNode s n i = None → slot_name inp ≠ "__proto__" →
     value = match slot_comfy inp with
             | Some c => match defaultValue c with
                         | JNull | JUndefined => None
                         | dv => Some dv
                         end
             | None => None
             end)
  ∧ (∀ m, getInputNode s n i = Some m → mode m ≠ ALWAYS → value = None)
  ∧ (∀ m, getInputNode s n i = Some m → backend_flag m = true → value = None)
  ∧ (∀ m l, getInputNode s n i = Some m → getInputLink s n i = Some l →
            mode m = ALWAYS → backend_flag m = false → backend_flag n = true →
            (∀ c, slot_comfy inp = Some c → slot_serialize c = true) →
            slot_name inp ≠ "__proto__" →
            value = Some (data l)).
Proof.
  intros Hnd Hi value. unfold value. rewrite (literal_of_slot s n i inp Hnd Hi).
  split; [|split; [|split; [|split]]].
  - intros Hname.
    destruct (literal_step_cases s n i) as [->|(inp1 & w & Hi1 & _ & ->)]; [done|].
    rewrite Hi in Hi1. injection Hi1 as <-. rewrite Hname. by apply js_assign_proto.
  - unfold ComfyPromptSerializer.serializeInputValues_step. rewrite Hi.
    intros -> Hname. simpl.
    assert (own match slot_comfy inp with
                | Some c =>
                    match defaultValue c with
                    | JNull | JUndefined => empty_object
                    | dv => js_assign empty_object (slot_name inp) dv
                    end
                | None => empty_object
                end !! slot_name inp
            = match slot_comfy inp with
              | Some c => match defaultValue c with
                          | JNull | JUndefined => None
                          | dv => Some dv
                          end
              | None => None
              end) as Hd.
    { destruct (slot_comfy inp) as [c|]; [|done].
      destruct (defaultValue c); try done;
        by rewrite (proj1 (js_assign_ordinary _ _ _ Hname)). }
    destruct (getInputLink s n i); exact Hd.
  - unfold ComfyPromptSerializer.serializeInputValues_step. rewrite Hi.
    intros m -> Hmode.
    destruct (mode m =? ALWAYS)%Z eqn:E; [by apply Z.eqb_eq in E|done].
  - unfold ComfyPromptSerializer.serializeInputValues_step. rewrite Hi.
    intros m Hm Hb. rewrite Hm.
    destruct (negb (mode m =? ALWAYS)%Z); [done|].
    assert (is_Some (getInputLink s n i)) as [l ->].
    { unfold getInputNode in Hm. destruct (getInputLink s n i); [by eexists|done]. }
    rewrite Hb. simpl. by rewrite andb_false_r.
  - unfold ComfyPromptSerializer.serializeInputValues_step. rewrite Hi.
    intros m l -> -> Hmode Hnb Hb Hser Hname. rewrite Hmode, Hnb, Hb. simpl.
    destruct (slot_comfy inp) as [c|] eqn:Hc.
    + rewrite (Hser c eq_refl). simpl. by rewrite (proj1 (js_assign_ordinary _ _ _ Hname)).
    + simpl. by rewrite (proj1 (js_assign_ordinary _ _ _ Hname)).
Qed.

Lemma serializeInputValues_per_slot_witness :
  ComfyPromptSerializer.serializeInputValues MoreSamples.sampler_store MoreSamples.sampler_K
    !! "steps" = Some (JNum 20)
  ∧ ComfyPromptSerializer.serializeInputValues MoreSamples.sampler_store MoreSamples.sampler_K
      !! "model" = None
  ∧ ComfyPromptSerializer.serializeInputValues MoreSamples.odd_store MoreSamples.odd_K
      !! "__proto__" = None.
Proof.
  assert (NoDup (slot_name <$> inputs MoreSamples.sampler_K)) as Hnd.
  { vm_compute. repeat constructor; vm_compute; intros H;
      repeat (apply elem_of_cons in H as [H|H]; [discriminate H|]);
      by apply elem_of_nil in H. }
  assert (NoDup (slot_name <$> inputs MoreSamples.odd_K)) as Hodd.
  { vm_compute. repeat constructor; vm_compute; intros H;
      repeat (apply elem_of_cons in H as [H|H]; [discriminate H|]);
      by apply elem_of_nil in H. }
  split; [|split].
  - refine (proj1 (proj2 (serializeInputValues_per_slot MoreSamples.sampler_store
              MoreSamples.sampler_K 0
              (mkInputSlot "steps" None (Some (mkComfySlot (JNum 20) true))) Hnd _)) _ _);
      [reflexivity|reflexivity|discriminate].
  - refine (proj1 (proj2 (proj2 (proj2 (serializeInputValues_per_slot
              MoreSamples.sampler_store
              MoreSamples.sampler_K 2 (mkInputSlot "model" (Some "2") None) Hnd _))))
              MoreSamples.sampler_L _ _); reflexivity.
  - refine (proj1 (serializeInputValues_per_slot MoreSamples.odd_store MoreSamples.odd_K 0
              (mkInputSlot "__proto__" None (Some (mkComfySlot (JNum 7) true))) Hodd _) _);
      reflexivity.
Defined.

Section LinkPass.
Import ComfyPromptSerializer.
Variable s : Store.
Variable n : LGraphNode.
Variable tag : option string.

Lemma links_fold_Throw l m :
  fold_left (serializeBackendLinks_step s n tag) l (Throw m) = Throw m.
Proof. induction l as [|i l IH]; [done|]. apply IH. Qed.

Lemma links_fold_OutOfFuel l :
  fold_left (serializeBackendLinks_step s n tag) l OutOfFuel = OutOfFuel.
Proof. induction l as [|i l IH]; [done|]. apply IH. Qed.

(** What one round of the loop does to the object, when it does not
    throw. *)
Lemma links_step_Normal acc i acc' :
  serializeBackendLinks_step s n tag (Normal acc) i = Normal acc' →
  ∃ r, UpstreamNodeLocator.locateUpstream test s n i tag = Normal r
       ∧ match UpstreamNodeLocator.found r with
         | None => acc' = acc
         | Some b =>
             ∃ inp l, nth_error (inputs n) i = Some inp
                      ∧ UpstreamNodeLocator.linkLeadingTo r = Some l
                      ∧ acc' = if has_member acc (slot_name inp) then acc
                               else <[slot_name inp := link_reference l]> acc
         end.
Proof.
  unfold serializeBackendLinks_step. cbn [mbind Completion_bind cbind].
  destruct (UpstreamNodeLocator.locateUpstream test s n i tag) as [r| |]; try done.
  cbn [mbind Completion_bind cbind]. intros H. exists r. split; [done|].
  destruct (UpstreamNodeLocator.found r) as [b|]; [|by injection H as <-].
  destruct (nth_error (inputs n) i) as [inp|]; [|done].
  destruct (UpstreamNodeLocator.linkLeadingTo r) as [l|]; [|done].
  exists inp, l. repeat split; try done.
  destruct (has_member acc (slot_name inp)); by injection H as <-.
Qed.

Lemma links_fold_cons i l acc lk :
  fold_left (serializeBackendLinks_step s n tag) (i :: l) (Normal acc) = Normal lk →
  ∃ acc', serializeBackendLinks_step s n tag (Normal acc) i = Normal acc'
          ∧ fold_left (serializeBackendLinks_step s n tag) l (Normal acc') = Normal lk.
Proof.
  cbn [fold_left].
  destruct (serializeBackendLinks_step s n tag (Normal acc) i) as [acc'|m|].
  - intros H. by exists acc'.
  - by rewrite links_fold_Throw.
  - by rewrite links_fold_OutOfFuel.
Qed.

Lemma links_fold_lookup l acc lk k v :
  fold_left (serializeBackendLinks_step s n tag) l (Normal acc) = Normal lk →
  lk !! k = Some v →
  acc !! k = Some v
  ∨ ∃ i inp r b lnk,
      i ∈ l ∧ nth_error (inputs n) i = Some inp ∧ slot_name inp = k
      ∧ UpstreamNodeLocator.locateUpstream test s n i tag = Normal r
      ∧ UpstreamNodeLocator.found r = Some b
      ∧ UpstreamNodeLocator.linkLeadingTo r = Some lnk
      ∧ v = link_reference lnk.
Proof.
  revert acc. induction l as [|i l IH]; intros acc.
  - intros [= <-]. by left.
  - intros (acc' & Hstep & Hfold)%links_fold_cons Hk.
    destruct (IH _ Hfold Hk) as [Hacc'|(j & inp & r & b & lnk & Hj & ?)].
    + apply links_step_Normal in Hstep as (r & Hr & Hcase).
      destruct (UpstreamNodeLocator.found r) as [b|] eqn:Hf; [|subst acc'; by left].
      destruct Hcase as (inp & lnk & Hinp & Hl & ->).
      destruct (has_member acc (slot_name inp)) eqn:Hprev; [by left|].
      rewrite lookup_insert in Hacc'. case_decide as Heq; [|by left].
      injection Hacc' as <-. right. exists i, inp, r, b, lnk.
      repeat split; try done. by left.
    + right. exists j, inp, r, b, lnk. split; [by right|done].
Qed.

Lemma links_fold_other l acc lk k :
  fold_left (serializeBackendLinks_step s n tag) l (Normal acc) = Normal lk →
  (∀ j inp, j ∈ l → nth_error (inputs n) j = Some inp → slot_name inp ≠ k) →
  lk !! k = acc !! k.
Proof.
  revert acc. induction l as [|i l IH]; intros acc.
  - by intros [= <-].
  - intros (acc' & Hstep & Hfold)%links_fold_cons Hne.
    rewrite (IH _ Hfold) by (intros j inp Hj; apply Hne; by right).
    apply links_step_Normal in Hstep as (r & Hr & Hcase).
    destruct (UpstreamNodeLocator.found r); [|by subst].
    destruct Hcase as (inp & lnk & Hinp & Hl & ->).
    destruct (has_member acc (slot_name inp)); [done|].
    apply lookup_insert_ne. eapply Hne; [by left|done].
Qed.

Lemma links_fold_app l1 l2 acc lk :
  fold_left (serializeBackendLinks_step s n tag) (l1 ++ l2) (Normal acc) = Normal lk →
  ∃ acc', fold_left (serializeBackendLinks_step s n tag) l1 (Normal acc) = Normal acc'
          ∧ fold_left (serializeBackendLinks_step s n tag) l2 (Normal acc') = Normal lk.
Proof.
  rewrite fold_left_app.
  destruct (fold_left _ l1 (Normal acc)) as [acc'|m|].
  - intros H. by exists acc'.
  - by rewrite links_fold_Throw.
  - by rewrite links_fold_OutOfFuel.
Qed.
End LinkPass.

(** X10.  Every value the link pass records sits under the name of an input
    slot of the node and is the reference [[String(origin_id), origin_slot]]
    of the link the locator returned for that slot; the node named by the
    reference is a backend node of the heap that is active under the
    tag. *)
Theorem serializeBackendLinks_references (s : Store) (n : LGraphNode) (tag : option string)
    (lk : gmap string JsValue) (k : string) (v : JsValue) :
  ComfyPromptSerializer.serializeBackendLinks s n tag = Normal lk →
  lk !! k = Some v →
  ∃ i inp b l,
    nth_error (inputs n) i = Some inp ∧ slot_name inp = k
    ∧ v = JArr [JStr (id b); JNum (Z.of_nat (origin_slot l))]
    ∧ origin_id l = id b
    ∧ in_store s b ∧ backend_flag b = true ∧ isActiveNode s (Some b) tag = true
    ∧ ∃ r, UpstreamNodeLocator.locateUpstream ComfyPromptSerializer.test s n i tag = Normal r
           ∧ UpstreamNodeLocator.found r = Some b
           ∧ UpstreamNodeLocator.linkLeadingTo r = Some l.
Proof.
  unfold ComfyPromptSerializer.serializeBackendLinks. intros Hfold Hk.
  destruct (links_fold_lookup _ _ _ _ _ _ _ _ Hfold Hk)
    as [Hemp|(i & inp & r & b & l & _ & Hinp & Hname & Hr & Hf & Hl & ->)];
    [by rewrite lookup_empty in Hemp|].
  pose proof (locate_from_origin _ _ _ _ _ _ _ _ Hr Hf) as (Hin & l' & Hl' & Hid).
  pose proof (locate_from_found _ _ _ _ _ _ _ _ Hr Hf) as (Ha & Ht & _).
  rewrite Hl in Hl'. injection Hl' as <-.
  exists i, inp, b, l. repeat split; try done.
  - unfold ComfyPromptSerializer.link_reference. by rewrite Hid.
  - by exists r.
Qed.

Lemma serializeBackendLinks_references_witness :
  ∃ i inp b l,
    nth_error (inputs MoreSamples.sampler_K) i = Some inp ∧ slot_name inp = "model"
    ∧ JArr [JStr "L"; JNum 0] = JArr [JStr (id b); JNum (Z.of_nat (origin_slot l))]
    ∧ origin_id l = id b
    ∧ in_store MoreSamples.sampler_store b ∧ backend_flag b = true
    ∧ isActiveNode MoreSamples.sampler_store (Some b) None = true
    ∧ ∃ r, UpstreamNodeLocator.locateUpstream ComfyPromptSerializer.test
             MoreSamples.sampler_store MoreSamples.sampler_K i None = Normal r
           ∧ UpstreamNodeLocator.found r = Some b
           ∧ UpstreamNodeLocator.linkLeadingTo r = Some l.
Proof.
  apply (serializeBackendLinks_references MoreSamples.sampler_store MoreSamples.sampler_K
           None (list_to_map [("model", JArr [JStr "L"; JNum 0])])).
  - vm_compute. reflexivity.
  - vm_compute. reflexivity.
Defined.

(** X11.  When the input slots of a node have distinct names and the link
    pass does not throw, it decides each slot on its own.  A slot named
    like a member of [Object.prototype] gets nothing: the test
    [name in inputs] finds the inherited member.  For any other name the
    pass records exactly what the locator finds for that slot: the
    reference of the returned link when a backend node is found, and
    nothing when none is. *)
Theorem serializeBackendLinks_per_slot (s : Store) (n : LGraphNode) (tag : option string)
    (lk : gmap string JsValue) (i : nat) (inp : InputSlot) :
  NoDup (slot_name <$> inputs n) →
  ComfyPromptSerializer.serializeBackendLinks s n tag = Normal lk →
  nth_error (inputs n) i = Some inp →
  ∃ r, UpstreamNodeLocator.locateUpstream ComfyPromptSerializer.test s n i tag = Normal r
       ∧ lk !! slot_name inp
         = if inherited (slot_name inp) then None
           else match UpstreamNodeLocator.found r with
                | Some _ => ComfyPromptSerializer.link_reference
                              <$> UpstreamNodeLocator.linkLeadingTo r
                | None => None
                end.
Proof.
  intros Hnd Hfold Hi. unfold ComfyPromptSerializer.serializeBackendLinks in Hfold.
  assert (i < length (inputs n)) as Hlt by (apply nth_error_Some; congruence).
  rewrite (seq_split_at _ _ Hlt) in Hfold.
  apply links_fold_app in Hfold as (acc1 & H1 & Hfold).
  apply links_fold_cons in Hfold as (acc2 & Hstep & H2).
  assert (acc1 !! slot_name inp = None) as Hnone.
  { rewrite (links_fold_other _ _ _ _ _ _ _ H1); [done|].
    intros j inpj Hj Hnj. apply elem_of_seq in Hj.
    eapply slot_names_differ; eauto. lia. }
  rewrite (links_fold_other _ _ _ _ _ _ _ H2).
  2:{ intros j inpj Hj Hnj. apply elem_of_seq in Hj.
      eapply slot_names_differ; eauto. lia. }
  apply links_step_Normal in Hstep as (r & Hr & Hcase). exists r. split; [done|].
  destruct (UpstreamNodeLocator.found r) as [b|].
  - destruct Hcase as (inp' & l & Hinp' & Hl & ->). rewrite Hi in Hinp'.
    injection Hinp' as <-. unfold has_member. rewrite Hnone.
    destruct (inherited (slot_name inp)); [done|].
    rewrite Hl. simpl. by rewrite lookup_insert_eq.
  - subst acc2. rewrite Hnone. by destruct (inherited (slot_name inp)).
Qed.

Lemma serializeBackendLinks_per_slot_witness :
  (∃ r, UpstreamNodeLocator.locateUpstream ComfyPromptSerializer.test
          MoreSamples.sampler_store MoreSamples.sampler_K 2 None = Normal r
        ∧ (list_to_map [("model", JArr [JStr "L"; JNum 0])] : gmap string JsValue) !! "model"
          = if inherited "model" then None
            else match UpstreamNodeLocator.found r with
                 | Some _ => ComfyPromptSerializer.link_reference
                               <$> UpstreamNodeLocator.linkLeadingTo r
                 | None => None
                 end)
  ∧ (∃ r, UpstreamNodeLocator.locateUpstream ComfyPromptSerializer.test
            MoreSamples.odd_store MoreSamples.odd_K 1 None = Normal r
          ∧ (∅ : gmap string JsValue) !! "toString"
            = if inherited "toString" then None
              else match UpstreamNodeLocator.found r with
                   | Some _ => ComfyPromptSerializer.link_reference
                                 <$> UpstreamNodeLocator.linkLeadingTo r
                   | None => None
                   end).
Proof.
  split.
  - apply (serializeBackendLinks_per_slot MoreSamples.sampler_store MoreSamples.sampler_K None
             (list_to_map [("model", JArr [JStr "L"; JNum 0])]) 2
             (mkInputSlot "model" (Some "2") None)).
    + vm_compute. repeat constructor; vm_compute; intros H;
        repeat (apply elem_of_cons in H as [H|H]; [discriminate H|]);
        by apply elem_of_nil in H.
    + vm_compute. reflexivity.
    + reflexivity.
  - apply (serializeBackendLinks_per_slot MoreSamples.odd_store MoreSamples.odd_K None
             ∅ 1 (mkInputSlot "toString" (Some "2") None)).
    + vm_compute. repeat constructor; vm_compute; intros H;
        repeat (apply elem_of_cons in H as [H|H]; [discriminate H|]);
        by apply elem_of_nil in H.
    + vm_compute. reflexivity.
    + reflexivity.
Defined.

(** X12.  The keys of the prompt are exactly the ids of the nodes of the
    execution order that are active backend nodes under the tag. *)
Theorem prompt_keys_are_active_backend_nodes (graph : ComfyGraph) (tag : option string)
    (p : SerializedPrompt) (k : string) :
  ComfyPromptSerializer.serialize graph tag = Normal p →
  is_Some (output p !! k) ↔
  ∃ n, n ∈ executionOrder graph ∧ id n = k ∧ isActiveBackendNode (heap graph) n tag = true.
Proof. intros Hp. by apply (serialize_keys (heap graph) tag graph p k). Qed.

Lemma prompt_keys_are_active_backend_nodes_witness :
  is_Some (output MoreSamples.sampler_prompt !! "K") ↔
  ∃ n, n ∈ executionOrder MoreSamples.sampler_graph ∧ id n = "K"
       ∧ isActiveBackendNode (heap MoreSamples.sampler_graph) n None = true.
Proof.
  apply (prompt_keys_are_active_backend_nodes MoreSamples.sampler_graph None
           MoreSamples.sampler_prompt "K").
  vm_compute. reflexivity.
Defined.

Lemma refers_to_removed_prune (out : gmap string PromptEntry) (v : JsValue) :
  ComfyPromptSerializer.refers_to_removed (ComfyPromptSerializer.prune out) v
  = ComfyPromptSerializer.refers_to_removed out v.
Proof.
  unfold ComfyPromptSerializer.refers_to_removed.
  destruct v as [| | | | |[|a [|b [|c l]]]|]; try done.
  unfold has_member. rewrite prune_lookup. by destruct (out !! toPropertyKey a).
Qed.

(** X13.  Every entry of the prompt was written for an active backend node
    of the execution order with that id: its [class_type] is the node's
    [comfyClass], every input name is the name of an input slot of the
    node, and every input value is what the link pass recorded under that
    name or, only when the link pass recorded nothing there, what the
    literal pass recorded. *)
Theorem prompt_entry_origin (graph : ComfyGraph) (tag : option string)
    (p : SerializedPrompt) (k : string) (e : PromptEntry) :
  ComfyPromptSerializer.serialize graph tag = Normal p →
  output p !! k = Some e →
  ∃ n lk,
    n ∈ executionOrder graph ∧ id n = k
    ∧ isActiveBackendNode (heap graph) n tag = true
    ∧ ComfyPromptSerializer.serializeBackendLinks (heap graph) n tag = Normal lk
    ∧ class_type e = comfyClass n
    ∧ ∀ name v, entry_inputs e !! name = Some v →
        (∃ inp, inp ∈ inputs n ∧ slot_name inp = name)
        ∧ (lk !! name = Some v
           ∨ (lk !! name = None
              ∧ ComfyPromptSerializer.serializeInputValues (heap graph) n !! name = Some v)).
Proof.
  intros Hser He.
  pose proof (serialize_output (heap graph) tag graph p eq_refl Hser) as (out & Hfold & Hp).
  rewrite Hp, prune_lookup in He.
  destruct (out !! k) as [e0|] eqn:He0; [|done]. injection He as <-.
  destruct (fold_serialize_node_value _ _ _ _ _ _ _ Hfold He0)
    as [Hemp|(n & lk & Hn & Hid & Ha & Hlk & ->)]; [by rewrite lookup_empty in Hemp|].
  exists n, lk. repeat split; try done; simpl in *;
    apply prune_inputs_lookup in H as [H _];
    apply lookup_union_Some_raw in H as [H|[Hnone H]].
  - unfold ComfyPromptSerializer.serializeBackendLinks in Hlk.
    destruct (links_fold_lookup _ _ _ _ _ _ _ _ Hlk H)
      as [Hemp|(i & inp & _ & _ & _ & _ & Hinp & Hname & _)];
      [by rewrite lookup_empty in Hemp|].
    exists inp. split; [|done]. apply list_elem_of_In. by eapply nth_error_In.
  - unfold ComfyPromptSerializer.serializeInputValues,
      ComfyPromptSerializer.serializeInputValues_object in H.
    apply literal_fold_lookup in H
      as [Hemp|(i & inp & _ & Hinp & Hname & _)];
      [simpl in Hemp; by rewrite lookup_empty in Hemp|].
    exists inp. split; [|done]. apply list_elem_of_In. by eapply nth_error_In.
  - by left.
  - by right.
Qed.

Lemma prompt_entry_origin_witness :
  ∃ n lk,
    n ∈ executionOrder MoreSamples.sampler_graph ∧ id n = "K"
    ∧ isActiveBackendNode (heap MoreSamples.sampler_graph) n None = true
    ∧ ComfyPromptSerializer.serializeBackendLinks (heap MoreSamples.sampler_graph) n None
      = Normal lk
    ∧ class_type (mkEntry (list_to_map [("steps", JNum 20); ("seed", JNum 42);
                                        ("model", JArr [JStr "L"; JNum 0])]) "KSampler")
      = comfyClass n
    ∧ ∀ name v,
        entry_inputs (mkEntry (list_to_map [("steps", JNum 20); ("seed", JNum 42);
                                            ("model", JArr [JStr "L"; JNum 0])]) "KSampler")
          !! name = Some v →
        (∃ inp, inp ∈ inputs n ∧ slot_name inp = name)
        ∧ (lk !! name = Some v
           ∨ (lk !! name = None
              ∧ ComfyPromptSerializer.serializeInputValues (heap MoreSamples.sampler_graph) n
                !! name = Some v)).
Proof.
  apply (prompt_entry_origin MoreSamples.sampler_graph None MoreSamples.sampler_prompt "K").
  - vm_compute. reflexivity.
  - vm_compute. reflexivity.
Defined.

(** X14.  For a node that is the only one of the execution order with its
    id and is an active backend node, the entry of the prompt is determined:
    its [class_type] is the node's [comfyClass], and its inputs are the
    link-pass values laid over the literal-pass values, less the
    two-element arrays the pruning test removes: those whose first element
    is neither a key of the prompt nor the name of a member of
    [Object.prototype]. *)
Theorem prompt_entry_of_node (graph : ComfyGraph) (tag : option string)
    (p : SerializedPrompt) (n : LGraphNode) :
  ComfyPromptSerializer.serialize graph tag = Normal p →
  n ∈ executionOrder graph →
  (∀ m, m ∈ executionOrder graph → id m = id n → m = n) →
  isActiveBackendNode (heap graph) n tag = true →
  ∃ e lk,
    output p !! id n = Some e
    ∧ ComfyPromptSerializer.serializeBackendLinks (heap graph) n tag = Normal lk
    ∧ class_type e = comfyClass n
    ∧ (∀ name v,
         entry_inputs e !! name = Some v ↔
         (lk ∪ ComfyPromptSerializer.serializeInputValues (heap graph) n) !! name = Some v
         ∧ ComfyPromptSerializer.refers_to_removed (output p) v = false)
    ∧ (∀ name a b,
         (lk ∪ ComfyPromptSerializer.serializeInputValues (heap graph) n) !! name
         = Some (JArr [a; b]) →
         (entry_inputs e !! name = Some (JArr [a; b]) ↔
          is_Some (output p !! toPropertyKey a) ∨ inherited (toPropertyKey a) = true)).
Proof.
  intros Hser Hn Huniq Hact.
  assert (∀ (e : PromptEntry) (m : gmap string JsValue),
            (∀ name v, entry_inputs e !! name = Some v ↔
                       m !! name = Some v
                       ∧ ComfyPromptSerializer.refers_to_removed (output p) v = false) →
            ∀ name a b, m !! name = Some (JArr [a; b]) →
              (entry_inputs e !! name = Some (JArr [a; b]) ↔
               is_Some (output p !! toPropertyKey a) ∨ inherited (toPropertyKey a) = true))
    as Hpairs.
  { intros e m Hiff name a b Hm. rewrite Hiff, refers_to_removed_pair.
    split; [by intros [_ Hk]|by intros Hk]. }
  pose proof (serialize_output (heap graph) tag graph p eq_refl Hser) as (out & Hfold & Hp).
  assert (is_Some (out !! id n)) as [e0 He0].
  { apply (fold_serialize_node_keys _ _ _ _ _ _ Hfold). right. by exists n. }
  destruct (fold_serialize_node_value _ _ _ _ _ _ _ Hfold He0)
    as [Hemp|(m & lk & Hm & Hid & _ & Hlk & ->)]; [by rewrite lookup_empty in Hemp|].
  apply Huniq in Hid as ->; [|done].
  assert (∀ name v,
            ComfyPromptSerializer.prune_inputs out
              (lk ∪ ComfyPromptSerializer.serializeInputValues (heap graph) n) !! name = Some v ↔
            (lk ∪ ComfyPromptSerializer.serializeInputValues (heap graph) n) !! name = Some v
            ∧ ComfyPromptSerializer.refers_to_removed (output p) v = false) as Hiff.
  { intros name v. rewrite Hp, refers_to_removed_prune. apply prune_inputs_lookup. }
  pose proof (Hpairs (mkEntry _ (comfyClass n)) _ Hiff) as Hpair.
  assert (output p !! id n
          = Some (mkEntry (ComfyPromptSerializer.prune_inputs out
                             (lk ∪ ComfyPromptSerializer.serializeInputValues (heap graph) n))
                    (comfyClass n))) as Hout.
  { rewrite Hp, prune_lookup. unfold NodeID in *. by rewrite He0. }
  eexists _, lk. split; [exact Hout|]. split; [done|]. split; [done|].
  split; [exact Hiff|exact Hpair].
Qed.

Lemma prompt_entry_of_node_witness :
  ∃ e lk,
    output MoreSamples.sampler_prompt !! id MoreSamples.sampler_K = Some e
    ∧ ComfyPromptSerializer.serializeBackendLinks (heap MoreSamples.sampler_graph)
        MoreSamples.sampler_K None = Normal lk
    ∧ class_type e = comfyClass MoreSamples.sampler_K
    ∧ (∀ name v,
         entry_inputs e !! name = Some v ↔
         (lk ∪ ComfyPromptSerializer.serializeInputValues (heap MoreSamples.sampler_graph)
                 MoreSamples.sampler_K) !! name = Some v
         ∧ ComfyPromptSerializer.refers_to_removed (output MoreSamples.sampler_prompt) v
           = false)
    ∧ (∀ name a b,
         (lk ∪ ComfyPromptSerializer.serializeInputValues (heap MoreSamples.sampler_graph)
                 MoreSamples.sampler_K) !! name = Some (JArr [a; b]) →
         (entry_inputs e !! name = Some (JArr [a; b]) ↔
          is_Some (output MoreSamples.sampler_prompt !! toPropertyKey a)
          ∨ inherited (toPropertyKey a) = true)).
Proof.
  apply (prompt_entry_of_node MoreSamples.sampler_graph None MoreSamples.sampler_prompt
           MoreSamples.sampler_K).
  - vm_compute. reflexivity.
  - unfold MoreSamples.sampler_graph, executionOrder. right. right. left.
  - intros m Hm Hid. unfold MoreSamples.sampler_graph, executionOrder in Hm.
    apply elem_of_cons in Hm as [->|Hm]; [discriminate Hid|].
    apply elem_of_cons in Hm as [->|Hm]; [discriminate Hid|].
    apply elem_of_cons in Hm as [->|Hm]; [reflexivity|].
    by apply elem_of_nil in Hm.
  - vm_compute. reflexivity.
Defined.

(** X15.  The pruning pass removes inputs only, and only two-element
    arrays: it keeps every key and every [class_type], keeps every input
    value of another shape, and running it a second time changes
    nothing. *)
Theorem prune_once_is_enough (out : gmap string PromptEntry) :
  ComfyPromptSerializer.prune (ComfyPromptSerializer.prune out) = ComfyPromptSerializer.prune out
  ∧ dom (ComfyPromptSerializer.prune out) = dom out
  ∧ ∀ k e, out !! k = Some e →
      ∃ e', ComfyPromptSerializer.prune out !! k = Some e'
            ∧ class_type e' = class_type e
            ∧ (∀ name v, entry_inputs e' !! name = Some v → entry_inputs e !! name = Some v)
            ∧ (∀ name v, entry_inputs e !! name = Some v → pair_shaped v = false →
                         entry_inputs e' !! name = Some v).
Proof.
  split; [|split].
  - apply map_eq. intros k. rewrite !prune_lookup.
    destruct (out !! k) as [e|]; [|done]. simpl. f_equal. f_equal.
    apply map_eq. intros name. apply option_eq. intros v.
    rewrite !prune_inputs_lookup, refers_to_removed_prune. tauto.
  - unfold ComfyPromptSerializer.prune. apply dom_fmap_L.
  - intros k e He. eexists. rewrite prune_lookup, He. simpl. repeat split.
    + intros name v H. by apply prune_inputs_lookup in H as [H _].
    + intros name v H Hshape. apply prune_inputs_lookup. split; [done|].
      unfold ComfyPromptSerializer.refers_to_removed, pair_shaped in *.
      by destruct v as [| | | | |[|a [|b [|c l]]]|].
Qed.

(* ===================================================================== *)
(** * Further properties of the event client *)
(* ===================================================================== *)

(** X16.  [createSocket] does nothing while the client holds a socket, so
    calling it again after it has created one - [init] twice, say - leaves
    the one socket. *)
Theorem createSocket_is_idempotent (b1 b2 : bool) (c : ComfyAPI.Client) :
  ComfyAPI.createSocket b1 (ComfyAPI.createSocket b2 c) = ComfyAPI.createSocket b2 c
  ∧ (is_Some (ComfyAPI.socket c) → ComfyAPI.createSocket b1 c = c)
  ∧ is_Some (ComfyAPI.socket (ComfyAPI.createSocket b1 c))
  ∧ ComfyAPI.init (ComfyAPI.init c) = ComfyAPI.init c.
Proof.
  unfold ComfyAPI.init, ComfyAPI.createSocket.
  destruct (ComfyAPI.socket c) as [h|] eqn:Hs; simpl; rewrite ?Hs; repeat split; try done;
    try (by eexists); by intros [? [=]].
Qed.

Section MessageListener.
Import ComfyAPI EventLoop.

Lemma same_connection_refl c : same_connection c c.
Proof. unfold same_connection. repeat split; by left. Qed.

Lemma same_connection_emit c e : same_connection c (emit e c).
Proof. unfold same_connection. repeat split. right. by exists e. Qed.

Lemma same_connection_session_emit c sid text e :
  same_connection c (emit e (set_session sid text c)).
Proof. unfold same_connection. repeat split. right. by exists e. Qed.

Lemma same_connection_session c sid text : same_connection c (set_session sid text c).
Proof. unfold same_connection. repeat split; by left. Qed.

Lemma same_connection_clientId c sid : same_connection c (set_clientId sid c).
Proof. unfold same_connection. repeat split; by left. Qed.

Lemma attempt_same_connection {A} (r : Completion A) c c0 k :
  same_connection c c0 →
  (∀ a, same_connection c (fst (k a))) →
  same_connection c (fst (attempt r c0 k)).
Proof. intros H0 Hk. destruct r; simpl; [apply Hk|done|done]. Qed.

Lemma handle_status_same_connection msg c :
  same_connection c (fst (handle_status msg c)).
Proof.
  unfold handle_status, emit_status.
  apply attempt_same_connection; [apply same_connection_refl|]. intros sid.
  destruct (js_truthy sid).
  - apply attempt_same_connection; [apply same_connection_clientId|]. intros text.
    apply attempt_same_connection; [apply same_connection_session|].
    intros q. apply same_connection_session_emit.
  - apply attempt_same_connection; [apply same_connection_refl|].
    intros q. apply same_connection_emit.
Qed.

Lemma json_message_same_connection msg c :
  same_connection c (fst (json_message msg c)).
Proof.
  unfold json_message.
  apply attempt_same_connection; [apply same_connection_refl|]. intros ty.
  repeat (case_match; try apply same_connection_refl);
    try apply handle_status_same_connection;
    (apply attempt_same_connection; [apply same_connection_refl|];
     intros ?; apply same_connection_emit).
Qed.

Lemma on_message_same_connection d c : same_connection c (on_message d c).
Proof.
  unfold on_message, message_body. destruct d as [data|[msg|]].
  - apply attempt_same_connection; [apply same_connection_refl|]. intros ty.
    destruct (ty =? 1)%N; [|apply same_connection_refl].
    apply attempt_same_connection; [apply same_connection_refl|]. intros ity.
    apply same_connection_emit.
  - apply json_message_same_connection.
  - apply same_connection_refl.
Qed.
End MessageListener.

(** X17.  A message never changes the connection: whatever frame arrives,
    the socket reference, the sockets, the pending timers, the polls and
    the close requests are as before, and at most one event is added to
    those emitted. *)
Theorem message_leaves_connection_alone (d : ComfyAPI.MessageData) (c : ComfyAPI.Client) :
  let c' := ComfyAPI.on_message d c in
  ComfyAPI.socket c' = ComfyAPI.socket c
  ∧ ComfyAPI.sockets c' = ComfyAPI.sockets c
  ∧ ComfyAPI.closeRequested c' = ComfyAPI.closeRequested c
  ∧ ComfyAPI.timers c' = ComfyAPI.timers c
  ∧ ComfyAPI.pollers c' = ComfyAPI.pollers c
  ∧ (ComfyAPI.eventBus c' = ComfyAPI.eventBus c
     ∨ ∃ e, ComfyAPI.eventBus c' = (ComfyAPI.eventBus c ++ [e])%list).
Proof. apply on_message_same_connection. Qed.

Lemma unhandled_type_is_ignored (msg : JsValue) (c : ComfyAPI.Client) (t : string) :
  t ∉ EventLoop.handled_types →
  js_get msg "type" = Some (JStr t) →
  ComfyAPI.json_message msg c = (c, Normal tt).
Proof.
  intros Ht Hty. unfold ComfyAPI.json_message, ComfyAPI.attempt, ComfyAPI.get.
  rewrite Hty. unfold EventLoop.handled_types in Ht.
  repeat (case_match; try done); subst;
    exfalso; apply Ht; repeat (first [by left | right]).
Qed.

(** X18.  A frame the listener cannot decode leaves the client as it was
    and emits nothing: a text that is not JSON, a binary frame shorter
    than its four-byte tag, a binary frame with a tag other than 1, and a
    JSON message whose [type] is missing, is not a string, or is a string
    other than the eight the listener handles. *)
Theorem undecodable_frames_are_ignored (c : ComfyAPI.Client) :
  ComfyAPI.on_message (ComfyAPI.Text None) c = c
  ∧ (∀ data, length data < 4 → ComfyAPI.on_message (ComfyAPI.Binary data) c = c)
  ∧ (∀ data ty, ComfyAPI.getUint32 data 0 = Normal ty → ty ≠ 1%N →
                ComfyAPI.on_message (ComfyAPI.Binary data) c = c)
  ∧ (∀ msg, (∀ t, js_get msg "type" = Some (JStr t) → t ∉ EventLoop.handled_types) →
            ComfyAPI.on_message (ComfyAPI.Text (Some msg)) c = c).
Proof.
  split; [done|]. split; [|split].
  - intros data Hlen. unfold ComfyAPI.on_message, ComfyAPI.message_body, ComfyAPI.getUint32.
    destruct data as [|b0 [|b1 [|b2 [|b3 data]]]]; simpl in *; try done. lia.
  - intros data ty Hty Hne.
    unfold ComfyAPI.on_message, ComfyAPI.message_body, ComfyAPI.attempt. rewrite Hty.
    destruct (ty =? 1)%N eqn:E; [|done]. by apply N.eqb_eq in E.
  - intros msg Hty. unfold ComfyAPI.on_message, ComfyAPI.message_body.
    destruct (js_get msg "type") as [ty|] eqn:E.
    + destruct ty as [| | | |t| |];
        try (unfold ComfyAPI.json_message, ComfyAPI.attempt, ComfyAPI.get; by rewrite E).
      by rewrite (unhandled_type_is_ignored msg c t (Hty t eq_refl) E).
    + unfold ComfyAPI.json_message, ComfyAPI.attempt, ComfyAPI.get. by rewrite E.
Qed.

(** X19.  A [status] message whose [data.sid] is truthy makes that value
    the client id, whether or not the rest of the message can be read.
    The session storage keeps strings: what it stores is the text
    [String(sid)], and the next reconnect opens its socket with
    [?clientId=<text>] in the address, unless the text is empty - as it is
    for [sid = []] - and then nothing is added.  When [sid] cannot be
    converted to a string the storage is left as it was and no [status]
    event is emitted. *)
Theorem status_message_persists_session (c : ComfyAPI.Client) (msg data sid : JsValue) :
  js_get msg "type" = Some (JStr "status") →
  js_get msg "data" = Some data →
  js_get data "sid" = Some sid →
  js_truthy sid = true →
  let c' := ComfyAPI.on_message (ComfyAPI.Text (Some msg)) c in
  ComfyAPI.clientId c' = sid
  ∧ (js_stringable sid = true →
     ComfyAPI.sessionId c' = JStr (js_to_string sid)
     ∧ ∀ i, is_Some (ComfyAPI.timers c !! i) →
            ComfyAPI.sockets (ComfyAPI.on_timeout i c')
            = (ComfyAPI.sockets c
               ++ [ComfyAPI.mkClosure true false
                     (if String.eqb (js_to_string sid) "" then ""
                      else "?clientId=" ++ js_to_string sid)])%list)
  ∧ (js_stringable sid = false →
     ComfyAPI.sessionId c' = ComfyAPI.sessionId c
     ∧ ComfyAPI.eventBus c' = ComfyAPI.eventBus c).
Proof.
  intros Hty Hdata Hsid Htruthy c'.
  assert (c' = fst (ComfyAPI.attempt (js_String sid) (ComfyAPI.set_clientId sid c)
                      (fun text => ComfyAPI.emit_status msg
                                     (ComfyAPI.set_session sid text c)))) as Hc'.
  { unfold c', ComfyAPI.on_message, ComfyAPI.message_body, ComfyAPI.json_message,
      ComfyAPI.handle_status, ComfyAPI.get. rewrite Hty. cbn [ComfyAPI.attempt].
    rewrite Hdata. cbn [mbind Completion_bind cbind]. rewrite Hsid. cbn [ComfyAPI.attempt].
    by rewrite Htruthy. }
  assert (∀ c1, ComfyAPI.clientId (fst (ComfyAPI.emit_status msg c1)) = ComfyAPI.clientId c1
                ∧ ComfyAPI.sessionId (fst (ComfyAPI.emit_status msg c1))
                  = ComfyAPI.sessionId c1) as Hemit.
  { intros c1. unfold ComfyAPI.emit_status.
    destruct (_ ≫= _) as [q| |]; simpl; done. }
  unfold js_String in Hc'. split; [|split].
  - rewrite Hc'. destruct (js_stringable sid); cbn [ComfyAPI.attempt fst]; [|done].
    by rewrite (proj1 (Hemit _)).
  - intros Hstr. rewrite Hstr in Hc'. cbn [ComfyAPI.attempt] in Hc'.
    assert (ComfyAPI.sessionId c' = JStr (js_to_string sid)) as Hs
      by (by rewrite Hc', (proj2 (Hemit _))).
    split; [exact Hs|]. intros i [d Hd].
    destruct (on_message_same_connection (ComfyAPI.Text (Some msg)) c)
      as (_ & Hsockets & _ & Htimers & _). fold c' in Hsockets, Htimers.
    unfold ComfyAPI.on_timeout. rewrite Htimers, Hd.
    unfold ComfyAPI.createSocket. simpl. rewrite Hs, Hsockets. simpl.
    by destruct (String.eqb (js_to_string sid) "").
  - intros Hstr. rewrite Hstr in Hc'. cbn [ComfyAPI.attempt] in Hc'. by rewrite Hc'.
Qed.

Lemma status_message_persists_session_witness :
  ComfyAPI.sessionId
    (ComfyAPI.on_message (ComfyAPI.Text (Some (MoreSamples.status_message "abc" 3)))
       ComfyAPI.new_client) = JStr "abc"
  ∧ ComfyAPI.sessionId
      (ComfyAPI.on_message
         (ComfyAPI.Text (Some (JObj [("type", JStr "status");
                                     ("data", JObj [("sid", JArr [])])])))
         ComfyAPI.new_client) = JStr "".
Proof.
  split.
  - refine (proj1 (proj1 (proj2 (status_message_persists_session ComfyAPI.new_client
      (MoreSamples.status_message "abc" 3)
      (JObj [("sid", JStr "abc");
             ("status", JObj [("exec_info", JObj [("queue_remaining", JNum 3)])])])
      (JStr "abc") _ _ _ _)) _)); reflexivity.
  - refine (proj1 (proj1 (proj2 (status_message_persists_session ComfyAPI.new_client
      (JObj [("type", JStr "status"); ("data", JObj [("sid", JArr [])])])
      (JObj [("sid", JArr [])]) (JArr []) _ _ _ _)) _)); reflexivity.
Defined.

Section ConnectionState.
Import ComfyAPI EventLoop.

Lemma timers_all_delay (l : list Z) :
  (∀ i d, l !! i = Some d → d = reconnect_delay) ↔ Forall (fun d => d = reconnect_delay) l.
Proof. by rewrite Forall_lookup. Qed.

Lemma connected_init : connected (init new_client).
Proof.
  unfold connected. simpl. repeat split.
  - exists 0. split; [done|]. simpl. lia.
  - by intros [|i] d.
  - intros [|[|h]] cl Hl Hne; done.
Qed.

Lemma dispatch_connected c e : connected c → connected (dispatch c e).
Proof.
  intros Hconn. pose proof Hconn as ((h0 & Hsock & Hlt) & Htimers & Hre).
  destruct e as [h|h|h|h d|i]; simpl.
  - (* open *)
    unfold on_open. destruct (sockets c !! h) as [cl|] eqn:Hcl; [|done].
    assert (connected (set_sockets (<[h:=mkClosure (isReconnect cl) true (existingSession cl)]>
                                      (sockets c)) c)) as Hc.
    { repeat split; simpl.
      - exists h0. split; [done|]. by rewrite length_insert.
      - done.
      - intros h' cl' Hl Hne. destruct (decide (h = h')) as [<-|Hneq].
        + rewrite list_lookup_insert_eq in Hl by (by eapply lookup_lt_Some).
          injection Hl as <-. simpl. by eapply Hre.
        + rewrite list_lookup_insert_ne in Hl by done. by eapply Hre. }
    by destruct (isReconnect cl).
  - (* error *)
    unfold on_error. destruct (sockets c !! h) as [cl|]; [|done].
    rewrite Hsock. by destruct (negb (isReconnect cl) && negb (opened cl)).
  - (* close *)
    unfold on_close. destruct (sockets c !! h) as [cl|]; [|done].
    assert (connected (set_timers (timers c ++ [reconnect_delay]) c)) as Hc.
    { repeat split; simpl; [by exists h0| |done].
      apply timers_all_delay, Forall_app. split; [by apply timers_all_delay|].
      by repeat constructor. }
    by destruct (opened cl).
  - (* message *)
    destruct (sockets c !! h); [|done].
    destruct (on_message_same_connection d c) as (Hs & Hss & _ & Ht & _).
    unfold connected. rewrite Hs, Hss, Ht. done.
  - (* timeout *)
    unfold on_timeout. destruct (timers c !! i) as [d|] eqn:Hd; [|done].
    unfold createSocket. simpl. repeat split; simpl.
    + eexists. split; [done|]. rewrite length_app. simpl. lia.
    + apply timers_all_delay, Forall_app. apply timers_all_delay in Htimers.
      split; [by apply Forall_take|by apply Forall_drop].
    + intros h' cl' Hl Hne. apply lookup_app_Some in Hl as [Hl|[Hge Hl]].
      * by eapply Hre.
      * destruct (h' - length (sockets c)) as [|k]; [|done].
        by injection Hl as <-.
Qed.

Lemma run_connected trace c : connected c → connected (run trace c).
Proof.
  revert c. unfold run. induction trace as [|e trace IH]; intros c Hc; [done|].
  simpl. apply IH. by apply dispatch_connected.
Qed.

Lemma dispatch_first_socket c e cl :
  sockets c !! 0 = Some cl →
  ∃ cl', sockets (dispatch c e) !! 0 = Some cl' ∧ isReconnect cl' = isReconnect cl.
Proof.
  intros H0. destruct e as [h|h|h|h d|i]; simpl.
  - unfold on_open. destruct (sockets c !! h) as [clh|] eqn:Hcl; [|by exists cl].
    assert (∃ cl', <[h:=mkClosure (isReconnect clh) true (existingSession clh)]> (sockets c)
                     !! 0 = Some cl' ∧ isReconnect cl' = isReconnect cl) as Hi.
    { destruct (decide (h = 0)) as [->|Hne].
      - rewrite list_lookup_insert_eq by (by eapply lookup_lt_Some).
        eexists. split; [done|]. simpl. congruence.
      - rewrite list_lookup_insert_ne by done. by exists cl. }
    by destruct (isReconnect clh).
  - unfold on_error. destruct (sockets c !! h) as [clh|]; [|by exists cl].
    exists cl. split; [|done].
    destruct (socket c), (negb (isReconnect clh) && negb (opened clh)); done.
  - unfold on_close. destruct (sockets c !! h) as [clh|]; [|by exists cl].
    exists cl. split; [|done]. by destruct (opened clh).
  - destruct (sockets c !! h); [|by exists cl].
    destruct (on_message_same_connection d c) as (_ & -> & _). by exists cl.
  - unfold on_timeout. destruct (timers c !! i); [|by exists cl].
    unfold createSocket. simpl. exists cl. split; [|done].
    by apply lookup_app_l_Some.
Qed.

Lemma dispatch_past_first_open c e :
  past_first_open c →
  past_first_open (dispatch c e) ∧ pollers (dispatch c e) = pollers c.
Proof.
  intros Hpast. destruct e as [h|h|h|h d|i]; simpl.
  - unfold on_open. destruct (sockets c !! h) as [cl|] eqn:Hcl; [|done].
    assert (past_first_open
              (set_sockets (<[h:=mkClosure (isReconnect cl) true (existingSession cl)]>
                              (sockets c)) c)) as Hp.
    { intros h' cl' Hl. simpl in Hl. destruct (decide (h = h')) as [<-|Hneq].
      - rewrite list_lookup_insert_eq in Hl by (by eapply lookup_lt_Some).
        injection Hl as <-. simpl. apply orb_true_r.
      - rewrite list_lookup_insert_ne in Hl by done. by eapply Hpast. }
    by destruct (isReconnect cl).
  - unfold on_error. destruct (sockets c !! h) as [cl|] eqn:Hcl; [|done].
    pose proof (Hpast h cl Hcl) as Hb.
    assert (negb (isReconnect cl) && negb (opened cl) = false) as ->
      by (by destruct (isReconnect cl), (opened cl)).
    destruct (socket c); (split; [exact Hpast|reflexivity]).
  - unfold on_close. destruct (sockets c !! h) as [cl|]; [|done].
    destruct (opened cl); (split; [exact Hpast|reflexivity]).
  - destruct (sockets c !! h); [|done].
    destruct (on_message_same_connection d c) as (_ & Hss & _ & _ & Hp & _).
    split; [|done]. unfold past_first_open. by rewrite Hss.
  - unfold on_timeout. destruct (timers c !! i); [|done].
    unfold createSocket. simpl. split; [|done].
    intros h' cl' Hl. simpl in Hl. apply lookup_app_Some in Hl as [Hl|[Hge Hl]].
    + by eapply Hpast.
    + destruct (h' - length (sockets c)) as [|k]; [|done]. by injection Hl as <-.
Qed.
End ConnectionState.

(** X20.  After [init], whatever the browser delivers - opens, errors,
    closes, messages and timers, in any order - the client always holds a
    reference to a socket it created, every pending reconnect timer has
    the one fixed delay, the first socket is the only one that was not
    created as a reconnect attempt. *)
Theorem connection_stays_in_order (trace : list EventLoop.BrowserEvent) :
  let c := EventLoop.run trace (ComfyAPI.init ComfyAPI.new_client) in
  (∃ h, ComfyAPI.socket c = Some h ∧ h < length (ComfyAPI.sockets c))
  ∧ (∀ i d, ComfyAPI.timers c !! i = Some d → d = 300%Z)
  ∧ (∀ h cl, ComfyAPI.sockets c !! h = Some cl → h ≠ 0 → ComfyAPI.isReconnect cl = true)
  ∧ (∃ cl, ComfyAPI.sockets c !! 0 = Some cl ∧ ComfyAPI.isReconnect cl = false).
Proof.
  intros c.
  destruct (run_connected trace _ connected_init) as (H1 & H2 & H3).
  repeat split; try done.
  unfold c, EventLoop.run.
  assert (∀ c0 cl0, ComfyAPI.sockets c0 !! 0 = Some cl0 →
            ∃ cl, ComfyAPI.sockets (fold_left EventLoop.dispatch trace c0) !! 0 = Some cl
                  ∧ ComfyAPI.isReconnect cl = ComfyAPI.isReconnect cl0) as H.
  { clear. induction trace as [|e tr IH]; intros c0 cl0 H0; [by exists cl0|]. simpl.
    destruct (dispatch_first_socket c0 e cl0 H0) as (cl1 & Hcl1 & Heq).
    destruct (IH (EventLoop.dispatch c0 e) cl1 Hcl1) as (cl & Hcl & Heq').
    exists cl. split; [done|]. congruence. }
  destruct (H (ComfyAPI.init ComfyAPI.new_client) (ComfyAPI.mkClosure false false "") eq_refl)
    as (cl & Hcl & Heq).
  by exists cl.
Qed.

(** X21.  The polling fallback can only start from a first connection
    attempt that fails before it opens: once no socket is an unopened
    first attempt - in particular once the first socket has opened - no
    sequence of events starts a poll.  An error on the first socket
    before it opens does start one. *)
Theorem polling_starts_only_before_first_open (trace : list EventLoop.BrowserEvent)
    (c : ComfyAPI.Client) :
  EventLoop.past_first_open c →
  ComfyAPI.pollers (EventLoop.run trace c) = ComfyAPI.pollers c
  ∧ ComfyAPI.pollers
      (EventLoop.run trace (ComfyAPI.on_open 0 (ComfyAPI.init ComfyAPI.new_client))) = 0
  ∧ ComfyAPI.pollers (ComfyAPI.on_error 0 (ComfyAPI.init ComfyAPI.new_client)) = 1.
Proof.
  assert (∀ c0, EventLoop.past_first_open c0 →
            ComfyAPI.pollers (EventLoop.run trace c0) = ComfyAPI.pollers c0) as H.
  { unfold EventLoop.run. induction trace as [|e tr IH]; intros c0 Hp; [done|]. simpl.
    destruct (dispatch_past_first_open c0 e Hp) as [Hp' Heq]. rewrite IH; done. }
  intros Hp. split; [by apply H|]. split; [|done].
  rewrite H; [done|]. intros [|[|h]] cl Hl; try done. by injection Hl as <-.
Qed.

Lemma polling_starts_only_before_first_open_witness :
  ComfyAPI.pollers
    (EventLoop.run [EventLoop.Error 0; EventLoop.Close 0; EventLoop.Timeout 0;
                    EventLoop.Error 1]
       (ComfyAPI.on_open 0 (ComfyAPI.init ComfyAPI.new_client))) = 0.
Proof.
  refine (proj1 (polling_starts_only_before_first_open
    [EventLoop.Error 0; EventLoop.Close 0; EventLoop.Timeout 0; EventLoop.Error 1]
    (ComfyAPI.on_open 0 (ComfyAPI.init ComfyAPI.new_client)) _)).
  intros [|[|h]] cl Hl.
  - injection Hl as <-. reflexivity.
  - discriminate Hl.
  - discriminate Hl.
Defined.

(** X22.  A socket that closes without ever having opened emits nothing,
    and a reconnect is scheduled all the same; when the reconnect's socket
    opens, [reconnected] is the only event of the episode. *)
Theorem close_before_open_is_silent (c : ComfyAPI.Client) (h : nat)
    (cl : ComfyAPI.SocketClosure) :
  ComfyAPI.sockets c !! h = Some cl →
  ComfyAPI.opened cl = false →
  let c1 := ComfyAPI.on_close h c in
  let c2 := ComfyAPI.on_timeout (length (ComfyAPI.timers c)) c1 in
  let c3 := ComfyAPI.on_open (length (ComfyAPI.sockets c)) c2 in
  ComfyAPI.eventBus c1 = ComfyAPI.eventBus c
  ∧ ComfyAPI.timers c1 = (ComfyAPI.timers c ++ [ComfyAPI.reconnect_delay])%list
  ∧ ComfyAPI.socket c2 = Some (length (ComfyAPI.sockets c))
  ∧ ComfyAPI.eventBus c3 = (ComfyAPI.eventBus c ++ [ComfyAPI.reconnected])%list.
Proof.
  intros Hh Hop c1 c2 c3.
  assert (c1 = ComfyAPI.set_timers (ComfyAPI.timers c ++ [ComfyAPI.reconnect_delay])%list c)
    as Hc1.
  { unfold c1, ComfyAPI.on_close. by rewrite Hh, Hop. }
  assert (ComfyAPI.timers c1 !! length (ComfyAPI.timers c) = Some ComfyAPI.reconnect_delay)
    as Hl.
  { rewrite Hc1. simpl. by apply list_lookup_middle. }
  assert (ComfyAPI.socket c2 = Some (length (ComfyAPI.sockets c))
          ∧ (∃ q, ComfyAPI.sockets c2
                  = (ComfyAPI.sockets c ++ [ComfyAPI.mkClosure true false q])%list)
          ∧ ComfyAPI.eventBus c2 = ComfyAPI.eventBus c) as (Hk2 & [q Hs2] & He2).
  { unfold c2, ComfyAPI.on_timeout. rewrite Hl. unfold ComfyAPI.createSocket. simpl.
    rewrite Hc1. simpl. repeat split. by eexists. }
  repeat split; try done.
  - by rewrite Hc1.
  - by rewrite Hc1.
  - unfold c3, ComfyAPI.on_open. rewrite Hs2.
    rewrite list_lookup_middle by done. simpl. by rewrite He2.
Qed.

Lemma close_before_open_is_silent_witness :
  ComfyAPI.eventBus
    (ComfyAPI.on_open 1
       (ComfyAPI.on_timeout 0 (ComfyAPI.on_close 0 (ComfyAPI.init ComfyAPI.new_client))))
  = [ComfyAPI.reconnected].
Proof.
  exact (proj2 (proj2 (proj2
    (close_before_open_is_silent (ComfyAPI.init ComfyAPI.new_client) 0
       (ComfyAPI.mkClosure false false "") eq_refl eq_refl)))).
Defined.

Section RestOutcomes.
Import ComfyAPI.
Variable fetch : string -> RequestInit -> Promise Response.
Variable JSON_stringify : ComfyPromptRequest -> string + JsValue.
Variable url : string.

Lemma catch_resolve_never_rejects {A} (p : Promise A) (g : JsValue -> A) r :
  catch p (fun e => Resolved (g e)) ≠ Rejected r.
Proof. by destruct p. Qed.

Lemma and_then_with_status {B} st u init (k : Promise JsValue -> Promise B) :
  and_then (Network.with_status st fetch u init) (fun res => k (res_json res))
  = and_then (fetch u init) (fun res => k (res_json res)).
Proof. unfold Network.with_status. by destruct (fetch u init). Qed.
End RestOutcomes.

Lemma toString_method_fuel (v : JsValue) : toString_method v ≠ OutOfFuel.
Proof.
  unfold toString_method, js_String.
  destruct v as [| |b|z|t|l|fs]; try done.
  - by destruct (js_stringable (JArr l)).
  - by destruct (js_stringable (JObj fs)).
Qed.

(** X23.  [queuePrompt] rejects exactly when the request cannot be
    stringified, and the rejection is the same whatever the network would
    have answered.  It carries [{error: e.toString()}] for the value [e]
    that [JSON.stringify] threw; when that call itself throws - [e] is
    [null] or [undefined], or has no [toString] that can be called - the
    rejection is the [TypeError] of the call. *)
Theorem queuePrompt_rejects_only_unstringifiable
    (fetch fetch' : string -> ComfyAPI.RequestInit -> ComfyAPI.Promise ComfyAPI.Response)
    (JSON_stringify : ComfyAPI.ComfyPromptRequest -> string + JsValue)
    (url : string) (c : ComfyAPI.Client) (body : ComfyAPI.ComfyPromptRequest) (r : JsValue) :
  ComfyAPI.queuePrompt fetch JSON_stringify url c body = ComfyAPI.Rejected r
  ↔ (∃ e, JSON_stringify (ComfyAPI.queuePrompt_body c body) = inr e
          ∧ ComfyAPI.queuePrompt fetch' JSON_stringify url c body = ComfyAPI.Rejected r
          ∧ (∀ text, toString_method e = Normal text → r = JObj [("error", JStr text)])
          ∧ (∀ m, toString_method e = Throw m → r = JStr m)
          ∧ (e ≠ JNull → e ≠ JUndefined → js_stringable e = true →
             r = JObj [("error", JStr (js_to_string e))])).
Proof.
  unfold ComfyAPI.queuePrompt.
  destruct (JSON_stringify (ComfyAPI.queuePrompt_body c body)) as [text|e] eqn:Hs.
  - split.
    + intros H. by apply catch_resolve_never_rejects in H.
    + by intros (e & He & _).
  - split.
    + intros Hr. exists e. split; [done|]. split; [done|].
      pose proof (toString_method_fuel e) as Hfuel.
      destruct (toString_method e) as [text|m|] eqn:Ht; [| |done]; injection Hr as <-.
      * repeat split; try done; try (by intros ? [= <-]).
        intros Hn Hu Hstr. unfold toString_method, js_String in Ht. rewrite Hstr in Ht.
        destruct e; try done; by injection Ht as <-.
      * repeat split; try done; try (by intros ? [= <-]).
        intros Hn Hu Hstr. unfold toString_method, js_String in Ht. rewrite Hstr in Ht.
        by destruct e.
    + intros (e' & [= <-] & Hr & _). exact Hr.
Qed.

Lemma queuePrompt_rejects_only_unstringifiable_witness :
  ComfyAPI.queuePrompt Samples.network_down MoreSamples.stringify_fails
    "http://127.0.0.1:8188" ComfyAPI.new_client (Samples.request None None)
  = ComfyAPI.Rejected (JObj [("error", JStr "TypeError: cyclic object value")]).
Proof.
  destruct (proj1 (queuePrompt_rejects_only_unstringifiable
                     (MoreSamples.answers 200 (Network.accepted "a1b2" 7))
                     Samples.network_down MoreSamples.stringify_fails
                     "http://127.0.0.1:8188" ComfyAPI.new_client (Samples.request None None)
                     (JObj [("error", JStr "TypeError: cyclic object value")]))
              eq_refl) as (e & _ & Hdown & _).
  exact Hdown.
Defined.

(** X24.  Once the request is stringified: a response of status 200 whose
    body is [raw] resolves to [{promptID: raw.prompt_id, number:
    raw.number}]; a request that fails on the network resolves to the
    failure itself, which the caller receives as if it were the response. *)
Theorem queuePrompt_after_stringify
    (fetch : string -> ComfyAPI.RequestInit -> ComfyAPI.Promise ComfyAPI.Response)
    (JSON_stringify : ComfyAPI.ComfyPromptRequest -> string + JsValue)
    (url : string) (c : ComfyAPI.Client) (body : ComfyAPI.ComfyPromptRequest) (text : string) :
  JSON_stringify (ComfyAPI.queuePrompt_body c body) = inl text →
  (∀ res raw p n,
     fetch (url ++ "/prompt") (ComfyAPI.POST (Some text)) = ComfyAPI.Resolved res →
     ComfyAPI.res_status res = 200%Z →
     ComfyAPI.res_json res = ComfyAPI.Resolved raw →
     js_get raw "prompt_id" = Some p → js_get raw "number" = Some n →
     ComfyAPI.queuePrompt fetch JSON_stringify url c body
     = ComfyAPI.Resolved (JObj [("promptID", p); ("number", n)]))
  ∧ (∀ e,
       fetch (url ++ "/prompt") (ComfyAPI.POST (Some text)) = ComfyAPI.Rejected e →
       ComfyAPI.queuePrompt fetch JSON_stringify url c body = ComfyAPI.Resolved e)
  ∧ (∀ res e,
       fetch (url ++ "/prompt") (ComfyAPI.POST (Some text)) = ComfyAPI.Resolved res →
       ComfyAPI.res_json res = ComfyAPI.Rejected e →
       ComfyAPI.queuePrompt fetch JSON_stringify url c body = ComfyAPI.Resolved e).
Proof.
  intros Hs. unfold ComfyAPI.queuePrompt. rewrite Hs. repeat split.
  - intros res raw p n Hf Hst Hj Hp Hn. rewrite Hf. simpl. rewrite Hst, Hj. simpl.
    unfold ComfyAPI.read. by rewrite Hp, Hn.
  - intros e Hf. by rewrite Hf.
  - intros res e Hf Hj. rewrite Hf. simpl. rewrite Hj.
    by destruct (negb _).
Qed.

Lemma queuePrompt_after_stringify_witness :
  ComfyAPI.queuePrompt (MoreSamples.answers 200 (Network.accepted "a1b2" 7))
    Samples.stringify_ok "http://127.0.0.1:8188" ComfyAPI.new_client
    (Samples.request None None)
  = ComfyAPI.Resolved (JObj [("promptID", JStr "a1b2"); ("number", JNum 7)]).
Proof.
  exact (proj1 (queuePrompt_after_stringify (MoreSamples.answers 200 (Network.accepted "a1b2" 7))
                  Samples.stringify_ok "http://127.0.0.1:8188" ComfyAPI.new_client
                  (Samples.request None None) "{}" eq_refl)
           (ComfyAPI.mkResponse 200 (ComfyAPI.Resolved (Network.accepted "a1b2" 7)))
           (Network.accepted "a1b2" 7) (JStr "a1b2") (JNum 7)
           eq_refl eq_refl eq_refl eq_refl eq_refl).
Defined.

(** X25.  Of everything that reads from the backend, only [queuePrompt]
    looks at the HTTP status: [getQueue], [getHistory], [getNodeDefs],
    [getExtensions], [getEmbeddings], [getSystemStats] and the status poll
    give the same result whatever the status of the responses, so an error
    response with a readable body is taken for an answer. *)
Theorem only_queuePrompt_checks_http_status
    (fetch : string -> ComfyAPI.RequestInit -> ComfyAPI.Promise ComfyAPI.Response)
    (url : string) (st : Z) :
  ComfyAPI.getQueue (Network.with_status st fetch) url = ComfyAPI.getQueue fetch url
  ∧ ComfyAPI.getHistory (Network.with_status st fetch) url = ComfyAPI.getHistory fetch url
  ∧ ComfyAPI.getNodeDefs (Network.with_status st fetch) url = ComfyAPI.getNodeDefs fetch url
  ∧ ComfyAPI.getExtensions (Network.with_status st fetch) url = ComfyAPI.getExtensions fetch url
  ∧ ComfyAPI.getEmbeddings (Network.with_status st fetch) url = ComfyAPI.getEmbeddings fetch url
  ∧ ComfyAPI.getSystemStats (Network.with_status st fetch) url
    = ComfyAPI.getSystemStats fetch url
  ∧ (∀ c, Polling.tick (Network.with_status st fetch) url c = Polling.tick fetch url c)
  ∧ ComfyAPI.queuePrompt (Network.with_status 500 (MoreSamples.answers 200 (Network.accepted "a1b2" 7)))
      Samples.stringify_ok url ComfyAPI.new_client (Samples.request None None)
    ≠ ComfyAPI.queuePrompt (MoreSamples.answers 200 (Network.accepted "a1b2" 7))
        Samples.stringify_ok url ComfyAPI.new_client (Samples.request None None).
Proof.
  unfold ComfyAPI.getQueue, ComfyAPI.getHistory, ComfyAPI.getNodeDefs, ComfyAPI.getExtensions,
    ComfyAPI.getEmbeddings, ComfyAPI.getSystemStats, Polling.tick.
  repeat split.
  - by rewrite (and_then_with_status fetch st _ _ (fun p => p)).
  - by rewrite (and_then_with_status fetch st _ _ (fun p => p)).
  - by rewrite (and_then_with_status fetch st _ _ (fun p => p)).
  - by rewrite (and_then_with_status fetch st _ _ (fun p => p)).
  - by rewrite (and_then_with_status fetch st _ _ (fun p => p)).
  - by rewrite (and_then_with_status fetch st _ _ (fun p => p)).
  - intros c.
    by rewrite (and_then_with_status fetch st _ _
                  (fun p => ComfyAPI.and_then p (fun status =>
                     ComfyAPI.and_then (ComfyAPI.read status "exec_info") (fun exec_info =>
                     ComfyAPI.read exec_info "queue_remaining")))).
  - discriminate.
Qed.

(** X26.  One run of the poll callback emits at most one event, a
    [status], and leaves the sockets, timers, polls and ids of the client
    as they were.  The event carries the remaining queue length when the
    answer could be read, and the text [error.toString()] of the failure
    otherwise; when that call throws - a rejection with [null] or
    [undefined] - the callback ends in its [catch] block and emits
    nothing. *)
Theorem poll_tick_emits_at_most_one_status
    (fetch : string -> ComfyAPI.RequestInit -> ComfyAPI.Promise ComfyAPI.Response)
    (url : string) (c : ComfyAPI.Client) :
  let c' := Polling.tick fetch url c in
  (ComfyAPI.eventBus c' = ComfyAPI.eventBus c
   ∨ ∃ v, ComfyAPI.eventBus c' = (ComfyAPI.eventBus c ++ [ComfyAPI.status v])%list
          ∧ ((∃ q, v = JObj [("execInfo", JObj [("queueRemaining", q)])])
             ∨ (∃ s, v = JObj [("error", JStr s)])))
  ∧ ComfyAPI.socket c' = ComfyAPI.socket c
  ∧ ComfyAPI.sockets c' = ComfyAPI.sockets c
  ∧ ComfyAPI.timers c' = ComfyAPI.timers c
  ∧ ComfyAPI.pollers c' = ComfyAPI.pollers c
  ∧ ComfyAPI.clientId c' = ComfyAPI.clientId c
  ∧ ComfyAPI.sessionId c' = ComfyAPI.sessionId c
  ∧ (∀ res st ei q,
       fetch (url ++ "/prompt") ComfyAPI.GET = ComfyAPI.Resolved res →
       ComfyAPI.res_json res = ComfyAPI.Resolved st →
       js_get st "exec_info" = Some ei → js_get ei "queue_remaining" = Some q →
       ComfyAPI.eventBus c'
       = (ComfyAPI.eventBus c
          ++ [ComfyAPI.status (JObj [("execInfo", JObj [("queueRemaining", q)])])])%list)
  ∧ (∀ e text,
       fetch (url ++ "/prompt") ComfyAPI.GET = ComfyAPI.Rejected e →
       toString_method e = Normal text →
       ComfyAPI.eventBus c'
       = (ComfyAPI.eventBus c ++ [ComfyAPI.status (JObj [("error", JStr text)])])%list)
  ∧ (∀ e,
       fetch (url ++ "/prompt") ComfyAPI.GET = ComfyAPI.Rejected e →
       e = JNull ∨ e = JUndefined →
       ComfyAPI.eventBus c' = ComfyAPI.eventBus c).
Proof.
  intros c'. unfold c', Polling.tick.
  split; [|split; [|split; [|split; [|split; [|split; [|split; [|split; [|split]]]]]]]].
  - destruct (ComfyAPI.and_then _ _) as [q|e]; simpl.
    + right. eexists. split; [done|]. left. by eexists.
    + destruct (toString_method e) as [text| |]; [|by left|by left].
      right. eexists. split; [done|]. right. by eexists.
  - destruct (ComfyAPI.and_then _ _) as [q|e]; [done|]. by destruct (toString_method e).
  - destruct (ComfyAPI.and_then _ _) as [q|e]; [done|]. by destruct (toString_method e).
  - destruct (ComfyAPI.and_then _ _) as [q|e]; [done|]. by destruct (toString_method e).
  - destruct (ComfyAPI.and_then _ _) as [q|e]; [done|]. by destruct (toString_method e).
  - destruct (ComfyAPI.and_then _ _) as [q|e]; [done|]. by destruct (toString_method e).
  - destruct (ComfyAPI.and_then _ _) as [q|e]; [done|]. by destruct (toString_method e).
  - intros res st ei q Hf Hj Hei Hq. rewrite Hf. simpl. rewrite Hj. simpl.
    unfold ComfyAPI.read. rewrite Hei. simpl. by rewrite Hq.
  - intros e text Hf Ht. rewrite Hf. simpl. by rewrite Ht.
  - intros e Hf [->| ->]; by rewrite Hf.
Qed.

Lemma poll_tick_emits_at_most_one_status_witness :
  ComfyAPI.eventBus (Polling.tick Samples.network_down "http://127.0.0.1:8188"
                       ComfyAPI.new_client)
  = [ComfyAPI.status (JObj [("error", JStr "TypeError: Failed to fetch")])]
  ∧ ComfyAPI.eventBus (Polling.tick (Network.rejects_with JNull) "http://127.0.0.1:8188"
                         ComfyAPI.new_client)
    = [].
Proof.
  split.
  - exact (proj1 (proj2 (proj2 (proj2 (proj2 (proj2 (proj2 (proj2 (proj2
             (poll_tick_emits_at_most_one_status Samples.network_down
                "http://127.0.0.1:8188" ComfyAPI.new_client)))))))))
             (JStr "TypeError: Failed to fetch") "TypeError: Failed to fetch"
             eq_refl eq_refl).
  - exact (proj2 (proj2 (proj2 (proj2 (proj2 (proj2 (proj2 (proj2 (proj2
             (poll_tick_emits_at_most_one_status (Network.rejects_with JNull)
                "http://127.0.0.1:8188" ComfyAPI.new_client)))))))))
             JNull eq_refl (or_introl eq_refl)).
Defined.

Lemma string_append_assoc (a b c : string) : (a ++ b) ++ c = a ++ (b ++ c).
Proof. induction a as [|x a IH]; [done|]. change (String x ((a ++ b) ++ c) = String x (a ++ (b ++ c))). by f_equal. Qed.

(** X27.  The host the client talks to is the configured one, unless that
    is unset, empty or [localhost], in which case it is the host the page
    was served from; so [localhost] is used only when the page itself is
    on [localhost].  The REST address and the websocket address name the
    same host and port. *)
Theorem configured_localhost_means_page_host (hostname : option string) (port : option Z)
    (location : Transport.Location) :
  let host := Transport.getHostname hostname location in
  (∀ h, hostname = Some h → h ≠ "" → h ≠ "localhost" → host = h)
  ∧ (hostname = None ∨ hostname = Some "" ∨ hostname = Some "localhost" →
     host = Transport.loc_hostname location)
  ∧ (host = "localhost" → Transport.loc_hostname location = "localhost")
  ∧ (∃ authority,
       Transport.getBackendUrl hostname port location
       = Transport.protocol location ++ "//" ++ authority
       ∧ ∀ session,
           Transport.socketUrl hostname port location session
           = "ws" ++ (if String.eqb (Transport.protocol location) "https:" then "s" else "")
             ++ "://" ++ authority ++ "/ws" ++ session).
Proof.
  intros host. unfold host, Transport.getHostname. repeat split.
  - intros h -> Hne Hnl.
    apply String.eqb_neq in Hne, Hnl. by rewrite Hne, Hnl.
  - intros [ -> | [ -> | -> ] ]; simpl; try done;
      by destruct (String.eqb (Transport.loc_hostname location) "localhost").
  - destruct hostname as [h|].
    + destruct (String.eqb h "") eqn:E1.
      * by destruct (String.eqb (Transport.loc_hostname location) "localhost").
      * destruct (String.eqb h "localhost") eqn:E2; [done|].
        intros ->. done.
    + by destruct (String.eqb (Transport.loc_hostname location) "localhost").
  - exists (Transport.getHostname hostname location ++ ":" ++ Transport.port_text port location).
    split; [done|]. intros session. unfold Transport.socketUrl.
    by rewrite !string_append_assoc.
Qed.

Lemma configured_localhost_means_page_host_witness :
  Transport.getHostname (Some "localhost") Network.example_page = "example.org"
  ∧ Transport.getHostname (Some "10.0.0.5") Network.example_page = "10.0.0.5".
Proof.
  pose proof (configured_localhost_means_page_host (Some "localhost") (Some 8188%Z)
                Network.example_page) as (_ & Hpage & _).
  pose proof (configured_localhost_means_page_host (Some "10.0.0.5") (Some 8188%Z)
                Network.example_page) as (Hconf & _).
  split.
  - apply Hpage. right. right. reflexivity.
  - apply (Hconf "10.0.0.5"); [reflexivity|discriminate|discriminate].
Defined.
